(** * logexpect: the log-expectation matcher of varnishtest

    A shallow embedding of [bin/varnishtest/vtc_logexp.c].  The C [int]s are
    integers of [Z]: they are compared and assigned, cast from a [long]
    once ([int_of_long]) and incremented once ([skip_cnt++], undefined at
    [INT_MAX]).  C strings are [string]s, the tail queue of tests is a list
    and the pointer [le->test] into it is an index.  Whatever the file
    obtains from libvarnishapi, the regex engine, the harness and libc is an
    interface below; [strtol] has, besides, a model after the C standard
    ([c_strtol]), for what turns on the tokens it accepts. *)

From Stdlib Require Import ZArith List String Ascii Bool Lia.
Import ListNotations.
Local Open Scope Z_scope.

Set Implicit Arguments.

(** ** Collaborators *)

(** [vre.h]: compiled expressions, [VRE_compile] (a matcher, or the engine's
    message and offset) and [VRE_exec] on a subject and its length. *)
Class VRE := {
  vre_t : Type;
  VRE_compile : string -> vre_t + (string * Z);
  VRE_exec : vre_t -> string -> Z -> Z;
  VRE_ERROR_NOMATCH : Z
}.

(** One log record, as the accessor macros of [vapi/vsl.h] show it. *)
Record VSL_record := {
  VSL_ID : Z;
  VSL_TAG : Z;
  VSL_CDATA : string;
  VSL_LEN : Z;
  VSL_CLIENT : bool;
  VSL_BACKEND : bool
}.

(** A transaction is read through its cursor: the records for which
    [VSL_Next] answers 1, in order. *)
Definition VSL_transaction := list VSL_record.

(** The state of a [struct VSL_data]: the arguments [VSL_Arg] took. *)
Definition VSL_data := list (ascii * string).

(** [vapi/vsl.h] and [vapi/vsm.h]: the batch pseudo tag, the default
    grouping, the selector of the [-b -c -i -I] arguments, the two name
    registries, and what opening the log answers (a cursor and a query
    context are there, or not). *)
Class VSL := {
  SLT__Batch : Z;
  VSL_g_vxid : Z;
  VSL_Match : VSL_data -> VSL_record -> bool;
  VSL_Name2Tag : string -> Z;
  VSLQ_Name2Grouping : string -> Z;
  VSL_Arg : VSL_data -> ascii -> string -> Z * VSL_data;
  VSM_n_Arg : string -> Z;
  VSM_Open : string -> Z;
  VSL_CursorVSM : VSL_data -> string -> bool -> bool;
  VSLQ_New : VSL_data -> Z -> option string -> bool
}.

(** Modelled from the spec: [VSLQ_Dispatch] of libvarnishapi is not among
    the sources.  The dispatch loop requests the next batch and feeds it to
    the callback; one call hands the callback the transaction sets of
    [deliveries], one callback call each and in order, stops at the first
    call that answers non-zero and answers that code, and answers [rc]
    itself when none did (0: nothing more for now, negative: an error). *)
Record dispatch_call := {
  deliveries : list (list VSL_transaction);
  rc : Z
}.

(** [vtc.h] and [vsb.h]: the two global flags, the tokens [parse_string]
    cuts a specification into (one list per command line), macro expansion,
    the name check and the quoting of a string. *)
Class VTC := {
  vtc_error : bool;
  vtc_stop : bool;
  tokens : string -> list (list string);
  macro_expand : string -> option string;
  VTC_CHECK_NAME : string -> bool;
  VSB_quote : string -> string
}.

(** libc: [strtol(s, &end, 10)] gives the value and what [end] points to. *)
Class LIBC := {
  strtol : string -> Z * string;
  atoi : string -> Z
}.

(** ** Data model *)

Definition LE_ANY : Z := -1.
Definition LE_LAST : Z := -2.

(** The largest [int]. *)
Definition INT_MAX : Z := 2 ^ 31 - 1.

(** The cast [(int)] of a [long]. *)
Definition int_of_long (x : Z) : Z := (x + 2 ^ 31) mod 2 ^ 32 - 2 ^ 31.

(** ** The [strtol] of C

    ISO C 7.22.1.4, for base 10 and a [long] of 64 bits: white space is
    passed over, then an optional sign, then the digits; with no digit
    there is no conversion, the value is 0 and [end] is the string itself;
    a value out of the range of [long] is the nearest bound. *)

Definition LONG_MAX : Z := 2 ^ 63 - 1.
Definition LONG_MIN : Z := - 2 ^ 63.

Definition long_of (v : Z) : Z := Z.max LONG_MIN (Z.min LONG_MAX v).

(** [isspace] in the C locale: the space and the controls 9 to 13. *)
Definition isspace (c : ascii) : bool :=
  let n := Z.of_nat (nat_of_ascii c) in
  (n =? 32) || ((9 <=? n) && (n <=? 13)).

Definition digit (c : ascii) : option Z :=
  let n := Z.of_nat (nat_of_ascii c) in
  if (48 <=? n) && (n <=? 57) then Some (n - 48) else None.

(** The digits a string opens with, as a number, and the rest. *)
Fixpoint digits (acc : Z) (s : string) : Z * string :=
  match s with
  | EmptyString => (acc, EmptyString)
  | String c s' =>
      match digit c with
      | Some d => digits (10 * acc + d) s'
      | None => (acc, s)
      end
  end.

Fixpoint skip_space (s : string) : string :=
  match s with
  | EmptyString => EmptyString
  | String c s' => if isspace c then skip_space s' else s
  end.

(** [strtol(s, &end, 10)]: the value and what [end] points to. *)
Definition c_strtol (s : string) : Z * string :=
  let s1 := skip_space s in
  let neg :=
    match s1 with
    | String c _ => Ascii.eqb c "-"
    | EmptyString => false
    end in
  let s2 :=
    match s1 with
    | String c r => if Ascii.eqb c "-" || Ascii.eqb c "+" then r else s1
    | EmptyString => s1
    end in
  match s2 with
  | String c _ =>
      match digit c with
      | Some _ =>
          let '(v, e) := digits 0 s2 in
          (long_of (if neg then - v else v), e)
      | None => (0, s)
      end
  | EmptyString => (0, s)
  end.

(** [atoi(s)] is [(int)strtol(s, NULL, 10)]. *)
Definition c_atoi (s : string) : Z := int_of_long (fst (c_strtol s)).

(** Lines written to the log handle [le->vl]. *)
Inductive log_line :=
| L_begin
| L_qry (q : string)
| L_expecting (str : string)
| L_rec (legend : string) (vxid tag : Z) (type : ascii) (len : Z)
    (data : string)
| L_end
| L_waiting.

(** The three classifications of a record against the active test. *)
Inductive classification := MATCH | SKIP | FAIL.

(** A result, unless an assertion of the C code trips or an [int]
    overflows, which C leaves undefined. *)
Inductive res (A : Type) :=
| Done (a : A)
| Assert_failed
| Undefined.
Arguments Assert_failed {A}.
Arguments Undefined {A}.

(** The messages of [vtc_fatal]. *)
Inductive fatal :=
| Bad_expectation_failed
| Bad_dispatch_failed (i : Z)
| No_v_argument
| V_argument_error
| VSM_Open_error
| VSL_CursorVSM_error
| VSLQ_New_error
| Logexp_returned
| Syntax_error
| Not_a_positive_integer (s : string)
| Unknown_tag_name (s : string)
| Regex_error (err s : string) (pos : Z)
| Unknown_command (s : string)
| Bad_name (s : string)
| Not_started (s : string)
| Missing_argument (opt : string)
| Unknown_grouping (s : string)
| VSL_error
| Unknown_logexp_argument (s : string).

(** How the thread stands: it returned [NULL], it left through
    [vtc_fatal], it is still in its loop with nothing more delivered, an
    assertion tripped, or its counter overflowed. *)
Inductive thread_exit :=
| T_null
| T_fatal (m : fatal)
| T_running
| T_assert
| T_undefined.

(** The fields of [struct logexp] the controlling thread writes. *)
Inductive field :=
| F_tests | F_test | F_skip_cnt | F_vxid_last | F_tag_last | F_run
| F_d_arg | F_g_arg | F_query | F_n_arg | F_vsl | F_vslq.

(** What the controlling thread does that the background thread can see:
    it writes a field of the engine, creates the thread, or has joined it. *)
Inductive event :=
| Ev_write (f : field)
| Ev_create
| Ev_join.

(** How a command of the controlling thread ends: with a value, in
    [vtc_fatal], in a join that does not return, in an assertion, or after
    the thread it joined has left defined behaviour. *)
Inductive outcome (A : Type) :=
| Ok (a : A)
| Fatal (m : fatal)
| Blocked
| Asserted
| Undef.
Arguments Fatal {A}.
Arguments Blocked {A}.
Arguments Asserted {A}.
Arguments Undef {A}.

Section Model.
Context {re : VRE} {vsl_api : VSL} {vtc : VTC} {libc : LIBC}.

(** [struct logexp_test], without its magic and its links in the queue. *)
Record logexp_test := {
  str : string;
  vxid : Z;
  tag : Z;
  vre : option vre_t;
  skip_max : Z
}.

(** [struct logexp], also without magic and links: [vl] is what has been
    written to the log handle, [vsl] the state of the [VSL_data], [vslq]
    whether the query context is there, and [tp] the thread created and not
    joined yet, as the calls of [VSLQ_Dispatch] it will be served. *)
Record logexp := {
  name : string;
  vl : list log_line;
  run : bool;
  tests : list logexp_test;
  test : option nat;
  skip_cnt : Z;
  vxid_last : Z;
  tag_last : Z;
  d_arg : Z;
  g_arg : Z;
  query : option string;
  n_arg : option string;
  vsl : VSL_data;
  vslq : bool;
  tp : option (list dispatch_call)
}.

Definition vtc_log (le : logexp) (l : log_line) : logexp :=
  {| name := name le; vl := vl le ++ [l]; run := run le; tests := tests le;
     test := test le; skip_cnt := skip_cnt le; vxid_last := vxid_last le;
     tag_last := tag_last le; d_arg := d_arg le; g_arg := g_arg le;
     query := query le; n_arg := n_arg le; vsl := vsl le; vslq := vslq le;
     tp := tp le |}.

Definition set_test (le : logexp) (t : option nat) : logexp :=
  {| name := name le; vl := vl le; run := run le; tests := tests le;
     test := t; skip_cnt := skip_cnt le; vxid_last := vxid_last le;
     tag_last := tag_last le; d_arg := d_arg le; g_arg := g_arg le;
     query := query le; n_arg := n_arg le; vsl := vsl le; vslq := vslq le;
     tp := tp le |}.

Definition set_skip_cnt (le : logexp) (n : Z) : logexp :=
  {| name := name le; vl := vl le; run := run le; tests := tests le;
     test := test le; skip_cnt := n; vxid_last := vxid_last le;
     tag_last := tag_last le; d_arg := d_arg le; g_arg := g_arg le;
     query := query le; n_arg := n_arg le; vsl := vsl le; vslq := vslq le;
     tp := tp le |}.

Definition set_last (le : logexp) (v t : Z) : logexp :=
  {| name := name le; vl := vl le; run := run le; tests := tests le;
     test := test le; skip_cnt := skip_cnt le; vxid_last := v;
     tag_last := t; d_arg := d_arg le; g_arg := g_arg le;
     query := query le; n_arg := n_arg le; vsl := vsl le; vslq := vslq le;
     tp := tp le |}.

(** [VTAILQ_FIRST] and [VTAILQ_NEXT] on the list of tests. *)
Definition VTAILQ_FIRST (l : list logexp_test) : option nat :=
  match l with [] => None | _ :: _ => Some 0%nat end.

Definition VTAILQ_NEXT (l : list logexp_test) (i : nat) : option nat :=
  if Nat.ltb (S i) (List.length l) then Some (S i) else None.

(** What [le->test] points to; [None] is where [CHECK_OBJ_NOTNULL] trips. *)
Definition deref_test (le : logexp) : option logexp_test :=
  match test le with
  | Some i => nth_error (tests le) i
  | None => None
  end.

Definition logexp_next (le : logexp) : logexp :=
  let le :=
    match test le with
    | Some i => set_test le (VTAILQ_NEXT (tests le) i)
    | None => set_test le (VTAILQ_FIRST (tests le))
    end in
  match deref_test le with
  | Some t => vtc_log le (L_expecting (str t))
  | None => le
  end.

(** ** The record matcher *)

(** One call of [VRE_exec]: expression, subject, length. *)
Definition vre_call : Type := vre_t * string * Z.

(** The three checks of [logexp_dispatch] on one record, with the calls
    of the regex engine they make. *)
Definition record_ok (le : logexp) (t : logexp_test) (r : VSL_record)
  : bool * list vre_call :=
  let vxid_r := VSL_ID r in
  let tag_r := VSL_TAG r in
  let data := VSL_CDATA r in
  let len := VSL_LEN r - 1 in
  let ok := true in
  let ok :=
    if vxid t =? LE_LAST then
      if negb (vxid_last le =? vxid_r) then false else ok
    else if 0 <=? vxid t then
      if negb (vxid t =? vxid_r) then false else ok
    else ok in
  let ok :=
    if tag t =? LE_LAST then
      if negb (tag_last le =? tag_r) then false else ok
    else if 0 <=? tag t then
      if negb (tag t =? tag_r) then false else ok
    else ok in
  match vre t with
  | Some e =>
      if (0 <=? tag t) && (tag t =? tag_r) then
        if VRE_ERROR_NOMATCH =? VRE_exec e data len
        then (false, [(e, data, len)])
        else (ok, [(e, data, len)])
      else (ok, [])
  | None => (ok, [])
  end.

Definition record_skip (le : logexp) (t : logexp_test) (ok : bool) : bool :=
  negb ok && ((skip_max t =? LE_ANY) || (skip_cnt le <? skip_max t)).

Definition legend_of (ok skip : bool) : option string :=
  if ok then Some "match"%string
  else if skip then None else Some "err"%string.

Definition classify (ok skip : bool) : classification :=
  if ok then MATCH else if skip then SKIP else FAIL.

Definition record_type (r : VSL_record) : ascii :=
  if VSL_CLIENT r then "c"%char
  else if VSL_BACKEND r then "b"%char else "-"%char.

(** What the matcher did with one record. *)
Record verdict := {
  v_index : nat;
  v_test : logexp_test;
  v_rec : VSL_record;
  v_class : classification;
  v_calls : list vre_call
}.

(** Control after one record: go on with the loops, or [return (code)]. *)
Inductive flow :=
| Next (le : logexp)
| Return (code : Z) (le : logexp).

(** The body of the [while (1 == VSL_Next(t->c))] loop. *)
Definition logexp_record (vsl0 : VSL_data) (le : logexp) (r : VSL_record)
  : res (flow * list verdict) :=
  if negb (VSL_Match vsl0 r) then Done (Next le, [])
  else
    match test le, deref_test le with
    | Some i, Some t =>
        let vxid_r := VSL_ID r in
        let tag_r := VSL_TAG r in
        let data := VSL_CDATA r in
        let len := VSL_LEN r - 1 in
        if tag_r =? SLT__Batch then Done (Next le, [])
        else
          let '(ok, calls) := record_ok le t r in
          let skip := record_skip le t ok in
          let le :=
            match legend_of ok skip with
            | Some legend =>
                vtc_log le (L_rec legend vxid_r tag_r (record_type r) len data)
            | None => le
            end in
          let v := {| v_index := i; v_test := t; v_rec := r;
                      v_class := classify ok skip; v_calls := calls |} in
          if ok then
            let le := set_last le vxid_r tag_r in
            let le := set_skip_cnt le 0 in
            let le := logexp_next le in
            match test le with
            | None => Done (Return 1 le, [v])
            | Some _ => Done (Next le, [v])
            end
          else if skip then
            if skip_cnt le <? INT_MAX
            then Done (Next (set_skip_cnt le (skip_cnt le + 1)), [v])
            else Undefined
          else
            Done (Return 2 le, [v])
    | _, _ => Assert_failed
    end.

(** The inner loop over the records of one transaction. *)
Fixpoint logexp_records (vsl0 : VSL_data) (le : logexp)
    (c : VSL_transaction)
  : res (flow * list verdict) :=
  match c with
  | [] => Done (Next le, [])
  | r :: c' =>
      match logexp_record vsl0 le r with
      | Assert_failed => Assert_failed
      | Undefined => Undefined
      | Done (Return code le', vs) => Done (Return code le', vs)
      | Done (Next le', vs) =>
          match logexp_records vsl0 le' c' with
          | Assert_failed => Assert_failed
          | Undefined => Undefined
          | Done (f, vs') => Done (f, vs ++ vs')
          end
      end
  end.

(** [logexp_dispatch]: the outer loop over [pt[]]; the code returned, the
    engine afterwards and the verdicts given, in order. *)
Fixpoint logexp_dispatch (vsl0 : VSL_data) (le : logexp)
    (pt : list VSL_transaction)
  : res (Z * logexp * list verdict) :=
  match pt with
  | [] => Done (0, le, [])
  | t :: pt' =>
      match logexp_records vsl0 le t with
      | Assert_failed => Assert_failed
      | Undefined => Undefined
      | Done (Return code le', vs) => Done (code, le', vs)
      | Done (Next le', vs) =>
          match logexp_dispatch vsl0 le' pt' with
          | Assert_failed => Assert_failed
          | Undefined => Undefined
          | Done (code, le'', vs') => Done (code, le'', vs ++ vs')
          end
      end
  end.

(** ** The background thread *)

(** [VSLQ_Dispatch(le->vslq, logexp_dispatch, le)] on one [dispatch_call]. *)
Fixpoint VSLQ_Dispatch (le : logexp) (ds : list (list VSL_transaction))
    (own : Z) : res (Z * logexp * list verdict) :=
  match ds with
  | [] => Done (own, le, [])
  | pt :: ds' =>
      match logexp_dispatch (vsl le) le pt with
      | Assert_failed => Assert_failed
      | Undefined => Undefined
      | Done (code, le', vs) =>
          if code =? 0 then
            match VSLQ_Dispatch le' ds' own with
            | Assert_failed => Assert_failed
            | Undefined => Undefined
            | Done (code', le'', vs') => Done (code', le'', vs ++ vs')
            end
          else Done (code, le', vs)
      end
  end.

(** The [while (le->test)] loop of [logexp_thread] over the calls of
    [VSLQ_Dispatch] the log source serves; [VTIM_sleep] changes nothing. *)
Fixpoint thread_loop (le : logexp) (calls : list dispatch_call)
  : thread_exit * logexp * list verdict :=
  match test le with
  | None => (T_null, vtc_log le L_end, [])
  | Some _ =>
      match calls with
      | [] => (T_running, le, [])
      | c :: calls' =>
          match VSLQ_Dispatch le (deliveries c) (rc c) with
          | Assert_failed => (T_assert, le, [])
          | Undefined => (T_undefined, le, [])
          | Done (i, le', vs) =>
              if i =? 2 then (T_fatal Bad_expectation_failed, le', vs)
              else if i <? 0 then (T_fatal (Bad_dispatch_failed i), le', vs)
              else
                let '(e, le'', vs') := thread_loop le' calls' in
                (e, le'', vs ++ vs')
          end
      end
  end.

Definition logexp_thread (le : logexp) (calls : list dispatch_call)
  : thread_exit * logexp * list verdict :=
  if negb (run le) || negb (vslq le) then (T_assert, le, [])
  else
    match test le with
    | Some _ => (T_assert, le, [])
    | None =>
        let le := vtc_log le L_begin in
        let le :=
          match query le with
          | Some q => vtc_log le (L_qry q)
          | None => le
          end in
        let le := logexp_next le in
        thread_loop le calls
    end.

(** ** The controlling thread *)

(** The engine, and what the log source will serve to the threads still to
    be started, one list of [VSLQ_Dispatch] calls per thread. *)
Record world := {
  w_le : logexp;
  w_src : list (list dispatch_call)
}.

(** Commands: the world is threaded through, also up to a [vtc_fatal], and
    the events are collected in order. *)
Definition M (A : Type) : Type := world -> outcome A * world * list event.

Definition ret {A} (a : A) : M A := fun w => (Ok a, w, []).

Definition bind {A B} (m : M A) (f : A -> M B) : M B :=
  fun w =>
    match m w with
    | (Ok a, w', e1) => let '(o, w'', e2) := f a w' in (o, w'', e1 ++ e2)
    | (Fatal x, w', e1) => (Fatal x, w', e1)
    | (Blocked, w', e1) => (Blocked, w', e1)
    | (Asserted, w', e1) => (Asserted, w', e1)
    | (Undef, w', e1) => (Undef, w', e1)
    end.

Notation "x <- m ;; k" := (bind m (fun x => k))
  (at level 61, m at next level, right associativity).
Notation "m ;;; k" := (bind m (fun _ => k))
  (at level 61, right associativity).

Definition vtc_fatal {A} (m : fatal) : M A := fun w => (Fatal m, w, []).
Definition assert_that (b : bool) : M unit :=
  fun w => if b then (Ok tt, w, []) else (Asserted, w, []).
Definition get : M logexp := fun w => (Ok (w_le w), w, []).

(** A write of field [f] by the controlling thread. *)
Definition write (f : field) (g : logexp -> logexp) : M unit :=
  fun w => (Ok tt, {| w_le := g (w_le w); w_src := w_src w |}, [Ev_write f]).

(** A line on [le->vl]; the log handle is no field of the engine. *)
Definition log (l : log_line) : M unit :=
  fun w => (Ok tt, {| w_le := vtc_log (w_le w) l; w_src := w_src w |}, []).

Definition set_tests (l : list logexp_test) (le : logexp) : logexp :=
  {| name := name le; vl := vl le; run := run le; tests := l;
     test := test le; skip_cnt := skip_cnt le; vxid_last := vxid_last le;
     tag_last := tag_last le; d_arg := d_arg le; g_arg := g_arg le;
     query := query le; n_arg := n_arg le; vsl := vsl le; vslq := vslq le;
     tp := tp le |}.

Definition set_run (b : bool) (le : logexp) : logexp :=
  {| name := name le; vl := vl le; run := b; tests := tests le;
     test := test le; skip_cnt := skip_cnt le; vxid_last := vxid_last le;
     tag_last := tag_last le; d_arg := d_arg le; g_arg := g_arg le;
     query := query le; n_arg := n_arg le; vsl := vsl le; vslq := vslq le;
     tp := tp le |}.

Definition set_d_arg (d : Z) (le : logexp) : logexp :=
  {| name := name le; vl := vl le; run := run le; tests := tests le;
     test := test le; skip_cnt := skip_cnt le; vxid_last := vxid_last le;
     tag_last := tag_last le; d_arg := d; g_arg := g_arg le;
     query := query le; n_arg := n_arg le; vsl := vsl le; vslq := vslq le;
     tp := tp le |}.

Definition set_g_arg (g : Z) (le : logexp) : logexp :=
  {| name := name le; vl := vl le; run := run le; tests := tests le;
     test := test le; skip_cnt := skip_cnt le; vxid_last := vxid_last le;
     tag_last := tag_last le; d_arg := d_arg le; g_arg := g;
     query := query le; n_arg := n_arg le; vsl := vsl le; vslq := vslq le;
     tp := tp le |}.

Definition set_query (q : option string) (le : logexp) : logexp :=
  {| name := name le; vl := vl le; run := run le; tests := tests le;
     test := test le; skip_cnt := skip_cnt le; vxid_last := vxid_last le;
     tag_last := tag_last le; d_arg := d_arg le; g_arg := g_arg le;
     query := q; n_arg := n_arg le; vsl := vsl le; vslq := vslq le;
     tp := tp le |}.

Definition set_n_arg (n : option string) (le : logexp) : logexp :=
  {| name := name le; vl := vl le; run := run le; tests := tests le;
     test := test le; skip_cnt := skip_cnt le; vxid_last := vxid_last le;
     tag_last := tag_last le; d_arg := d_arg le; g_arg := g_arg le;
     query := query le; n_arg := n; vsl := vsl le; vslq := vslq le;
     tp := tp le |}.

Definition set_vsl (v : VSL_data) (le : logexp) : logexp :=
  {| name := name le; vl := vl le; run := run le; tests := tests le;
     test := test le; skip_cnt := skip_cnt le; vxid_last := vxid_last le;
     tag_last := tag_last le; d_arg := d_arg le; g_arg := g_arg le;
     query := query le; n_arg := n_arg le; vsl := v; vslq := vslq le;
     tp := tp le |}.

Definition set_vslq (b : bool) (le : logexp) : logexp :=
  {| name := name le; vl := vl le; run := run le; tests := tests le;
     test := test le; skip_cnt := skip_cnt le; vxid_last := vxid_last le;
     tag_last := tag_last le; d_arg := d_arg le; g_arg := g_arg le;
     query := query le; n_arg := n_arg le; vsl := vsl le; vslq := b;
     tp := tp le |}.

Definition set_tp (t : option (list dispatch_call)) (le : logexp) : logexp :=
  {| name := name le; vl := vl le; run := run le; tests := tests le;
     test := test le; skip_cnt := skip_cnt le; vxid_last := vxid_last le;
     tag_last := tag_last le; d_arg := d_arg le; g_arg := g_arg le;
     query := query le; n_arg := n_arg le; vsl := vsl le; vslq := vslq le;
     tp := t |}.

(** [pthread_create(&le->tp, NULL, logexp_thread, le)]: the thread gets the
    next list of calls the log source serves. *)
Definition pthread_create : M unit :=
  fun w =>
    let calls := match w_src w with [] => [] | c :: _ => c end in
    (Ok tt,
     {| w_le := set_tp (Some calls) (w_le w); w_src := tl (w_src w) |},
     [Ev_create]).

(** Modelled from the spec: [vtc_fatal] is not among the sources; a
    background unit that left through it has the outcome FAILURE, which
    [pthread_join] hands over as a non-[NULL] result.  The answer is
    whether [res != NULL].  The thread has worked on the engine itself, so
    the engine after the join is the one the thread left; a thread that
    stays in its loop keeps the join from returning. *)
Definition pthread_join : M bool :=
  fun w =>
    match tp (w_le w) with
    | None => (Asserted, w, [])
    | Some calls =>
        match logexp_thread (w_le w) calls with
        | (T_null, le', _) =>
            (Ok false, {| w_le := set_tp None le'; w_src := w_src w |},
             [Ev_join])
        | (T_fatal _, le', _) =>
            (Ok true, {| w_le := set_tp None le'; w_src := w_src w |},
             [Ev_join])
        | (T_running, _, _) => (Blocked, w, [])
        | (T_assert, _, _) => (Asserted, w, [])
        | (T_undefined, _, _) => (Undef, w, [])
        end
    end.

Definition logexp_close : M unit :=
  le <- get ;;
  if vslq le then write F_vslq (set_vslq false) else ret tt.

Definition logexp_start : M unit :=
  le <- get ;;
  assert_that (negb (vslq le)) ;;;
  match n_arg le with
  | None => vtc_fatal No_v_argument
  | Some n =>
      if VSM_n_Arg n <=? 0 then vtc_fatal V_argument_error
      else if negb (VSM_Open n =? 0) then vtc_fatal VSM_Open_error
      else if negb (VSL_CursorVSM (vsl le) n (d_arg le =? 0))
      then vtc_fatal VSL_CursorVSM_error
      else if negb (VSLQ_New (vsl le) (g_arg le) (query le))
      then vtc_fatal VSLQ_New_error
      else
        write F_vslq (set_vslq true) ;;;
        write F_test (fun le => set_test le None) ;;;
        write F_skip_cnt (fun le => set_skip_cnt le 0) ;;;
        write F_tag_last (fun le => set_last le (vxid_last le) (-1)) ;;;
        write F_vxid_last (fun le => set_last le (-1) (tag_last le)) ;;;
        write F_run (set_run true) ;;;
        pthread_create
  end.

Definition logexp_wait : M unit :=
  log L_waiting ;;;
  res <- pthread_join ;;
  logexp_close ;;;
  (if res && negb vtc_stop then vtc_fatal Logexp_returned else ret tt) ;;;
  write F_run (set_run false).

(** ** The pattern compiler *)

(** [(int)strtol(s, &end, 10)], refused when [*end] is not the end of the
    string or the value is negative. *)
Definition parse_uint (s : string) : fatal + Z :=
  let '(v, end_) := strtol s in
  let v := int_of_long v in
  if negb (String.eqb end_ "") || (v <? 0)
  then inl (Not_a_positive_integer s)
  else inr v.

(** The text of [test->str]: [VSB_printf] of the tokens, then [VSB_quote]
    of the expression. *)
Definition test_str (a0 a1 a2 a3 : string) (a4 : option string) : string :=
  let s := (a0 ++ " " ++ a1 ++ " " ++ a2 ++ " " ++ a3 ++ " ")%string in
  match a4 with
  | Some e => (s ++ VSB_quote e)%string
  | None => s
  end.

(** The checks of [cmd_logexp_expect] on [av], up to the allocation of
    the test: the new test, or the message of the [vtc_fatal] taken. *)
Definition compile (av : list string) : fatal + logexp_test :=
  match nth_error av 1, nth_error av 2, nth_error av 3 with
  | Some a1, Some a2, Some a3 =>
      match nth_error av 4, nth_error av 5 with
      | Some _, Some _ => inl Syntax_error
      | a4, _ =>
          match
            (if String.eqb a1 "*" then inr LE_ANY else parse_uint a1)
          with
          | inl m => inl m
          | inr skip_max_ =>
              match
                (if String.eqb a2 "*" then inr LE_ANY
                 else if String.eqb a2 "=" then inr LE_LAST
                 else parse_uint a2)
              with
              | inl m => inl m
              | inr vxid_ =>
                  match
                    (if String.eqb a3 "*" then inr LE_ANY
                     else if String.eqb a3 "=" then inr LE_LAST
                     else
                       let t := VSL_Name2Tag a3 in
                       if t <? 0 then inl (Unknown_tag_name a3) else inr t)
                  with
                  | inl m => inl m
                  | inr tag_ =>
                      match
                        (match a4 with
                         | Some e =>
                             match VRE_compile e with
                             | inl v => inr (Some v)
                             | inr (err, pos) => inl (Regex_error err e pos)
                             end
                         | None => inr None
                         end)
                      with
                      | inl m => inl m
                      | inr vre_ =>
                          inr {| str := test_str (nth 0 av ""%string)
                                          a1 a2 a3 a4;
                                 vxid := vxid_; tag := tag_; vre := vre_;
                                 skip_max := skip_max_ |}
                      end
                  end
              end
          end
      end
  | _, _, _ => inl Syntax_error
  end.

Definition cmd_logexp_expect (av : list string) : M unit :=
  match compile av with
  | inl m => vtc_fatal m
  | inr t => write F_tests (fun le => set_tests (tests le ++ [t]) le)
  end.

(** Modelled from the spec: [parse_string] of [vtc.c], the command
    dispatcher of the harness, is not among the sources, and the
    specification has it feed the lines [expect <skip> <vxid> <tag>
    [<regex>]] of a block to the core.  In
    [parse_string(spec, logexp_cmds, le, le->vl)] every command line goes
    to the command of its first token, and [expect] is the only one of
    the table [logexp_cmds]; that the lines are taken in order and that a
    token the table has not ends the run are taken for granted here. *)
Fixpoint parse_string (lines : list (list string)) : M unit :=
  match lines with
  | [] => ret tt
  | av :: lines' =>
      match av with
      | [] => parse_string lines'
      | c :: _ =>
          if String.eqb c "expect"
          then cmd_logexp_expect av ;;; parse_string lines'
          else vtc_fatal (Unknown_command c)
      end
  end.

Definition logexp_delete_tests : M unit :=
  write F_tests (set_tests []).

Definition logexp_spec (spec : string) : M unit :=
  logexp_delete_tests ;;;
  parse_string (tokens spec).

(** ** The command *)

(** The [for (; *av != NULL; av++)] loop of [cmd_logexpect] on the engine
    of the name given. *)
Fixpoint logexpect_args (av : list string) : M unit :=
  match av with
  | [] => ret tt
  | a :: rest =>
      if vtc_error then ret tt
      else if String.eqb a "-wait" then
        le <- get ;;
        (if negb (run le) then vtc_fatal (Not_started a) else ret tt) ;;;
        logexp_wait ;;;
        logexpect_args rest
      else
        le <- get ;;
        (if run le then logexp_wait else ret tt) ;;;
        le <- get ;;
        assert_that (negb (run le)) ;;;
        if String.eqb a "-v" then
          match rest with
          | [] => vtc_fatal (Missing_argument a)
          | a1 :: rest' =>
              let n := macro_expand ("${tmpdir}/" ++ a1)%string in
              write F_n_arg (set_n_arg n) ;;;
              match n with
              | None => ret tt
              | Some _ => logexpect_args rest'
              end
          end
        else if String.eqb a "-d" then
          match rest with
          | [] => vtc_fatal (Missing_argument a)
          | a1 :: rest' =>
              write F_d_arg (set_d_arg (atoi a1)) ;;;
              logexpect_args rest'
          end
        else if String.eqb a "-g" then
          match rest with
          | [] => vtc_fatal (Missing_argument a)
          | a1 :: rest' =>
              write F_g_arg (set_g_arg (VSLQ_Name2Grouping a1)) ;;;
              if VSLQ_Name2Grouping a1 <? 0
              then vtc_fatal (Unknown_grouping a1)
              else logexpect_args rest'
          end
        else if String.eqb a "-q" then
          match rest with
          | [] => vtc_fatal (Missing_argument a)
          | a1 :: rest' =>
              write F_query (set_query (Some a1)) ;;;
              logexpect_args rest'
          end
        else if String.eqb a "-start" then
          logexp_start ;;;
          logexpect_args rest
        else if String.eqb a "-run" then
          logexp_start ;;;
          logexp_wait ;;;
          logexpect_args rest
        else if match a with
                | String c _ => Ascii.eqb c "-"
                | EmptyString => false
                end then
          match rest with
          | a1 :: rest' =>
              let c := match a with
                       | String _ (String c _) => c
                       | _ => zero
                       end in
              le <- get ;;
              let '(r, v) := VSL_Arg (vsl le) c a1 in
              write F_vsl (set_vsl v) ;;;
              if negb (r =? 0) then logexpect_args rest'
              else vtc_fatal VSL_error
          | [] => vtc_fatal (Unknown_logexp_argument a)
          end
        else
          logexp_spec a ;;;
          logexpect_args rest
  end.

(** [logexp_new]: a zeroed engine of that name with the default grouping. *)
Definition logexp_new (nm : string) : logexp :=
  {| name := nm; vl := []; run := false; tests := []; test := None;
     skip_cnt := 0; vxid_last := 0; tag_last := 0; d_arg := 0;
     g_arg := VSL_g_vxid; query := None; n_arg := None; vsl := [];
     vslq := false; tp := None |}.

Fixpoint find_logexp (nm : string) (l : list logexp) : option logexp :=
  match l with
  | [] => None
  | le :: l' => if String.eqb (name le) nm then Some le else find_logexp nm l'
  end.

Fixpoint store_logexp (le : logexp) (l : list logexp) : list logexp :=
  match l with
  | [] => [le]
  | x :: l' =>
      if String.eqb (name x) (name le) then le :: l'
      else x :: store_logexp le l'
  end.

(** [cmd_logexpect] on a command line ([av] is not [NULL]; the other
    branch is the teardown of the harness): the registry [logexps] and the
    log source before, and the outcome, both of them and the events after. *)
Definition cmd_logexpect (logexps : list logexp)
    (src : list (list dispatch_call)) (av : list string)
  : outcome unit * list logexp * list (list dispatch_call) * list event :=
  match av with
  | "logexpect"%string :: nm :: av' =>
      if negb (VTC_CHECK_NAME nm) then (Fatal (Bad_name nm), logexps, src, [])
      else
        let le := match find_logexp nm logexps with
                  | Some le => le
                  | None => logexp_new nm
                  end in
        let '(o, w, evs) := logexpect_args av' {| w_le := le; w_src := src |} in
        (o, store_logexp (w_le w) logexps, w_src w, evs)
  | _ => (Asserted, logexps, src, [])
  end.

(** No write and no second thread while the thread is in flight. *)
Fixpoint race_free (flying : bool) (evs : list event) : bool :=
  match evs with
  | [] => true
  | Ev_write _ :: evs' => negb flying && race_free flying evs'
  | Ev_create :: evs' => negb flying && race_free true evs'
  | Ev_join :: evs' => race_free false evs'
  end.

End Model.

Arguments logexp_test {re}.
Arguments logexp {re}.
Arguments verdict {re}.
Arguments flow {re}.

(** ** A small instance of the collaborators, to run the model on *)

Module Sample.

(** An expression is a literal that must open the subject. *)
#[export] Instance re : VRE := {|
  vre_t := string;
  VRE_compile := fun s =>
    if String.eqb s "" then inr ("empty"%string, 0) else inl s;
  VRE_exec := fun e data len =>
    if String.prefix e (String.substring 0 (Z.to_nat len) data)
    then 0 else -1;
  VRE_ERROR_NOMATCH := -1
|}.

Definition tag_table : list (string * Z) :=
  [("ReqStart", 1); ("ReqEnd", 2); ("Hit", 3); ("Miss", 4);
   ("ReqURL", 5)]%string.

Fixpoint lookup (nm : string) (l : list (string * Z)) : Z :=
  match l with
  | [] => -1
  | (k, v) :: l' => if String.eqb k nm then v else lookup nm l'
  end.

#[export] Instance vsl_api : VSL := {|
  SLT__Batch := 255;
  VSL_g_vxid := 1;
  VSL_Match := fun _ _ => true;
  VSL_Name2Tag := fun nm => lookup nm tag_table;
  VSLQ_Name2Grouping := fun nm =>
    lookup nm [("raw", 0); ("vxid", 1); ("request", 2);
               ("session", 3)]%string;
  VSL_Arg := fun d c a => (1, d ++ [(c, a)]);
  VSM_n_Arg := fun _ => 1;
  VSM_Open := fun _ => 0;
  VSL_CursorVSM := fun _ _ _ => true;
  VSLQ_New := fun _ _ _ => true
|}.

(** libc as the C standard has it. *)
#[export] Instance libc : LIBC := {|
  strtol := c_strtol;
  atoi := c_atoi
|}.

(** A specification is read as the tag of one line [expect 0 * tag];
    enough to run the command on. *)
#[export] Instance vtc : VTC := {|
  vtc_error := false;
  vtc_stop := false;
  tokens := fun s =>
    if String.eqb s "" then []
    else [["expect"; "0"; "*"; s]]%string;
  macro_expand := fun s => Some s;
  VTC_CHECK_NAME := fun s => String.prefix "l" s;
  VSB_quote := fun s => s
|}.

Definition rec_ (id tg : Z) (data : string) : VSL_record :=
  {| VSL_ID := id; VSL_TAG := tg; VSL_CDATA := data;
     VSL_LEN := Z.of_nat (String.length data) + 1;
     VSL_CLIENT := true; VSL_BACKEND := false |}.

Definition pat (skip vx tg : Z) (e : option string) : logexp_test :=
  {| str := ""; vxid := vx; tag := tg; vre := e; skip_max := skip |}.

(** An engine as [logexp_start] leaves it, with the given tests. *)
Definition started (ts : list logexp_test) : logexp :=
  {| name := "l1"; vl := []; run := true; tests := ts; test := None;
     skip_cnt := 0; vxid_last := -1; tag_last := -1; d_arg := 0;
     g_arg := 1; query := None; n_arg := Some "v1"%string; vsl := [];
     vslq := true; tp := None |}.

(** One call of [VSLQ_Dispatch] serving one transaction. *)
Definition serve (rs : list VSL_record) : dispatch_call :=
  {| deliveries := [[rs]]; rc := 0 |}.

(** A started engine whose thread has made its first [logexp_next]. *)
Definition active (ts : list logexp_test) : logexp :=
  logexp_next (started ts).

(** An engine with its [-v] argument and tests, not started, and the log
    its threads will be served. *)
Definition ready (ts : list logexp_test) (src : list (list dispatch_call))
  : world :=
  {| w_le :=
       {| name := "l1"; vl := []; run := false; tests := ts; test := None;
          skip_cnt := 0; vxid_last := 0; tag_last := 0; d_arg := 0;
          g_arg := 1; query := None; n_arg := Some "v1"%string; vsl := [];
          vslq := false; tp := None |};
     w_src := src |}.

(** The tests and records of the scenarios: a ReqStart then a ReqEnd of
    the same vxid; a Hit after at most one other record; a ReqURL under
    [/api/]. *)
Definition tests_AB : list logexp_test :=
  [pat 0 LE_ANY 1 None; pat 0 LE_LAST 2 None].
Definition tests_C : list logexp_test := [pat 2 LE_ANY 3 None].
Definition tests_D : list logexp_test := [pat 1 LE_ANY 3 None].
Definition tests_E : list logexp_test :=
  [pat 0 LE_ANY 5 (Some "/api/"%string)].

Definition log_A : list dispatch_call :=
  [serve [rec_ 5 1 "a"; rec_ 5 2 "b"]].
Definition log_B : list dispatch_call :=
  [serve [rec_ 5 1 "a"; rec_ 6 2 "b"]].
Definition log_CD : list dispatch_call :=
  [serve [rec_ 7 4 "m"; rec_ 8 4 "m"; rec_ 9 3 "h"]].

End Sample.


(** ** Notions of the properties *)

Unset Implicit Arguments.

Section Notions.
Context {re : VRE} {vsl_api : VSL} {vtc : VTC} {libc : LIBC}.

(** The engine a [flow] carries. *)
Definition flow_le (f : flow) : logexp :=
  match f with
  | Next le => le
  | Return _ le => le
  end.

(** A record the matcher classifies: the selector passes it and it is no
    batch marker. *)
Definition classified (vsl0 : VSL_data) (r : VSL_record) : bool :=
  VSL_Match vsl0 r && negb (VSL_TAG r =? SLT__Batch).

(** The pointer [le->test] is [NULL] or points into the list of tests. *)
Definition wf (le : logexp) : Prop :=
  match test le with
  | Some i => (i < List.length (tests le))%nat
  | None => True
  end.

(** The verdict on a classified record, from the flags [ok] and [skip]. *)
Definition verdict_of (le : logexp) (i : nat) (t : logexp_test)
    (r : VSL_record) : verdict :=
  let ok := fst (record_ok le t r) in
  {| v_index := i; v_test := t; v_rec := r;
     v_class := classify ok (record_skip le t ok);
     v_calls := snd (record_ok le t r) |}.

(** The engine after a classified record. *)
Definition after_record (le : logexp) (t : logexp_test) (r : VSL_record)
  : logexp :=
  let ok := fst (record_ok le t r) in
  let skip := record_skip le t ok in
  let le1 :=
    match legend_of ok skip with
    | Some legend =>
        vtc_log le (L_rec legend (VSL_ID r) (VSL_TAG r) (record_type r)
                      (VSL_LEN r - 1) (VSL_CDATA r))
    | None => le
    end in
  if ok then
    logexp_next (set_skip_cnt (set_last le1 (VSL_ID r) (VSL_TAG r)) 0)
  else if skip then set_skip_cnt le1 (skip_cnt le1 + 1)
  else le1.

(** How the loops go on after a classified record. *)
Definition flow_after (le : logexp) (i : nat) (t : logexp_test)
    (r : VSL_record) : flow :=
  match v_class (verdict_of le i t r) with
  | MATCH =>
      match test (after_record le t r) with
      | None => Return 1 (after_record le t r)
      | Some _ => Next (after_record le t r)
      end
  | SKIP => Next (after_record le t r)
  | FAIL => Return 2 (after_record le t r)
  end.

(** The record is a SKIP with the counter at [INT_MAX]. *)
Definition overflows (le : logexp) (i : nat) (t : logexp_test)
    (r : VSL_record) : bool :=
  match v_class (verdict_of le i t r) with
  | SKIP => negb (skip_cnt le <? INT_MAX)
  | _ => false
  end.

(** The test [t] with no expression. *)
Definition without_vre (t : logexp_test) : logexp_test :=
  {| str := str t; vxid := vxid t; tag := tag t; vre := None;
     skip_max := skip_max t |}.

(** A log line about a record carries this length and this text. *)
Definition line_of_len (n : Z) (d : string) (l : log_line) : Prop :=
  match l with
  | L_rec _ _ _ _ len data => len = n /\ data = d
  | _ => True
  end.

Definition flow_code (f : flow) : Z :=
  match f with
  | Next _ => 0
  | Return c _ => c
  end.

(** A verdict after which the run is still open: a SKIP, or a MATCH on a
    test that is not the last of [n]. *)
Definition open_verdict (n : nat) (v : verdict) : Prop :=
  v_class v = SKIP \/ (v_class v = MATCH /\ (S (v_index v) < n)%nat).

(** How a run with verdicts [vs] stands, by the code of the dispatch. *)
Definition ends (n : nat) (code : Z) (le' : logexp) (vs : list verdict)
  : Prop :=
  (code = 0 /\ test le' <> None /\ Forall (open_verdict n) vs) \/
  (code = 1 /\ test le' = None /\
   exists vs0 v, vs = vs0 ++ [v] /\ Forall (open_verdict n) vs0 /\
                 v_class v = MATCH /\ S (v_index v) = n) \/
  (code = 2 /\ test le' <> None /\
   exists vs0 v, vs = vs0 ++ [v] /\ Forall (open_verdict n) vs0 /\
                 v_class v = FAIL).

(** The two last fields after the verdicts [vs], from [lv] and [lt]. *)
Fixpoint last_fields (lv lt : Z) (vs : list verdict) : Z * Z :=
  match vs with
  | [] => (lv, lt)
  | v :: vs' =>
      match v_class v with
      | MATCH => last_fields (VSL_ID (v_rec v)) (VSL_TAG (v_rec v)) vs'
      | _ => last_fields lv lt vs'
      end
  end.

(** Every MATCH of a test with LAST is on the field recorded before it. *)
Fixpoint backref_ok (lv lt : Z) (vs : list verdict) : Prop :=
  match vs with
  | [] => True
  | v :: vs' =>
      (v_class v = MATCH ->
       (vxid (v_test v) = LE_LAST -> VSL_ID (v_rec v) = lv) /\
       (tag (v_test v) = LE_LAST -> VSL_TAG (v_rec v) = lt)) /\
      backref_ok (fst (last_fields lv lt [v])) (snd (last_fields lv lt [v]))
        vs'
  end.

(** The verdict is on the test its index names. *)
Definition on_test (le : logexp) (v : verdict) : Prop :=
  nth_error (tests le) (v_index v) = Some (v_test v).

(** What a run of the matcher over the records [rs] keeps and yields. *)
Definition run_summary (vsl0 : VSL_data) (le : logexp)
    (rs : list VSL_record) (code : Z) (le' : logexp) (vs : list verdict)
  : Prop :=
  tests le' = tests le /\ vsl le' = vsl le /\ wf le' /\
  ends (List.length (tests le)) code le' vs /\
  Forall (on_test le) vs /\
  (exists rest, filter (classified vsl0) rs = map v_rec vs ++ rest /\
                (code = 0 -> rest = [])) /\
  backref_ok (vxid_last le) (tag_last le) vs /\
  last_fields (vxid_last le) (tag_last le) vs = (vxid_last le', tag_last le').

(** The summary of the result of a loop over records: no assertion trips,
    and unless the counter overflows the run is as [run_summary] says. *)
Definition summary_of (vsl0 : VSL_data) (le : logexp)
    (rs : list VSL_record) (x : res (flow * list verdict)) : Prop :=
  match x with
  | Done (f, vs) =>
      run_summary vsl0 le rs (flow_code f) (flow_le f) vs /\
      (flow_code f = 0 -> f = Next (flow_le f))
  | Assert_failed => False
  | Undefined => True
  end.

(** The counter has room for a SKIP on each of the records [rs]. *)
Definition room (le : logexp) (rs : list VSL_record) : Prop :=
  0 <= skip_cnt le /\ skip_cnt le + Z.of_nat (List.length rs) <= INT_MAX.

(** The records one call of [VSLQ_Dispatch] serves, and a list of calls. *)
Definition records_of (ds : list (list VSL_transaction))
  : list VSL_record :=
  List.concat (List.concat ds).

Definition records_of_calls (calls : list dispatch_call)
  : list VSL_record :=
  List.concat (map (fun c => records_of (deliveries c)) calls).

(** What the thread keeps and yields, by the way it stands. *)
Definition thread_summary (le : logexp) (calls : list dispatch_call)
    (e : thread_exit) (le' : logexp) (vs : list verdict) : Prop :=
  tests le' = tests le /\ wf le' /\
  Forall (on_test le) vs /\
  (exists rest, filter (classified (vsl le)) (records_of_calls calls)
                = map v_rec vs ++ rest) /\
  backref_ok (vxid_last le) (tag_last le) vs /\
  match e with
  | T_null =>
      test le' = None /\
      ((test le = None /\ vs = []) \/
       ends (List.length (tests le)) 1 le' vs)
  | T_running => ends (List.length (tests le)) 0 le' vs
  | T_fatal _ =>
      ends (List.length (tests le)) 0 le' vs \/
      ends (List.length (tests le)) 2 le' vs
  | T_assert => False
  | T_undefined => ends (List.length (tests le)) 0 le' vs
  end.

(** The engine with which [logexp_thread] enters its loop. *)
Definition thread_entry (le : logexp) : logexp :=
  logexp_next
    (match query le with
     | Some q => vtc_log (vtc_log le L_begin) (L_qry q)
     | None => vtc_log le L_begin
     end).

(** From the spec: a non-negative integer, that is a decimal numeral: one
    digit or more and nothing else; its value. *)
Definition spec_uint (s : string) : option Z :=
  match s with
  | EmptyString => None
  | String _ _ =>
      let '(v, e) := digits 0 s in
      if String.eqb e "" then Some v else None
  end.

(** From the spec: the skip token is ["*"] for ANY, else a non-negative
    integer. *)
Definition spec_skip (s : string) : option Z :=
  if String.eqb s "*" then Some LE_ANY else spec_uint s.

(** From the spec: the vxid token is ["*"] for ANY, ["="] for LAST, else a
    non-negative integer. *)
Definition spec_vxid (s : string) : option Z :=
  if String.eqb s "*" then Some LE_ANY
  else if String.eqb s "=" then Some LE_LAST
  else spec_uint s.

(** From the spec: the tag token is ["*"] for ANY, ["="] for LAST, else a
    name of the tag vocabulary. *)
Definition spec_tag (s : string) : option Z :=
  if String.eqb s "*" then Some LE_ANY
  else if String.eqb s "=" then Some LE_LAST
  else if 0 <=? VSL_Name2Tag s then Some (VSL_Name2Tag s) else None.

(** From the spec: the optional fourth token must compile. *)
Definition spec_regex (e : option string) : option (option vre_t) :=
  match e with
  | None => Some None
  | Some x =>
      match VRE_compile x with
      | inl v => Some (Some v)
      | inr _ => None
      end
  end.

(** From the spec: three or four tokens, each of them accepted; the
    skip, vxid and tag values and the matcher of the pattern. *)
Definition spec_compile (toks : list string)
  : option (Z * Z * Z * option vre_t) :=
  let fields s v t e :=
    match spec_skip s, spec_vxid v, spec_tag t, spec_regex e with
    | Some a, Some b, Some c, Some d => Some (a, b, c, d)
    | _, _, _, _ => None
    end in
  match toks with
  | [s; v; t] => fields s v t None
  | [s; v; t; e] => fields s v t (Some e)
  | _ => None
  end.

(** The engine with the test [t] at the end of its list. *)
Definition with_test (w : world) (t : logexp_test) : world :=
  {| w_le := set_tests (tests (w_le w) ++ [t]) (w_le w);
     w_src := w_src w |}.

(** The background thread is in flight: created and not joined yet. *)
Definition fly (w : world) : bool :=
  match tp (w_le w) with
  | Some _ => true
  | None => false
  end.

(** The flag [run] is set whenever the thread is in flight. *)
Definition run_covers (w : world) : Prop :=
  fly w = true -> run (w_le w) = true.

Fixpoint flying_after (flying : bool) (evs : list event) : bool :=
  match evs with
  | [] => flying
  | Ev_write _ :: evs' => flying_after flying evs'
  | Ev_create :: evs' => flying_after true evs'
  | Ev_join :: evs' => flying_after false evs'
  end.

(** A command run from [w] is free of races, leaves [run] covering the
    thread, and leaves [Q] when it comes to its end. *)
Definition safe_at {A} (m : M A) (w : world) (Q : A -> world -> Prop)
  : Prop :=
  race_free (fly w) (snd (m w)) = true /\
  fly (snd (fst (m w))) = flying_after (fly w) (snd (m w)) /\
  run_covers (snd (fst (m w))) /\
  (forall a, fst (fst (m w)) = Ok a -> Q a (snd (fst (m w)))).

(** No thread in flight. *)
Definition landed (w : world) : Prop := fly w = false.

(** No thread in flight and the flag [run] down. *)
Definition idle (w : world) : Prop :=
  fly w = false /\ run (w_le w) = false.


(** The exit of a thread and the classes of its verdicts. *)
Definition classes (x : thread_exit * logexp * list verdict)
  : thread_exit * list classification :=
  (fst (fst x), map v_class (snd x)).

End Notions.

(** ** Notions of the further properties *)

Section Further_notions.
Context {re : VRE} {vsl_api : VSL} {vtc : VTC} {libc : LIBC}.

(** What the thread never writes: every field of the engine but [test],
    [skip_cnt], [vxid_last], [tag_last] and the log. *)
Definition same_setup (le le' : logexp) : Prop :=
  name le' = name le /\ run le' = run le /\ tests le' = tests le /\
  d_arg le' = d_arg le /\ g_arg le' = g_arg le /\ query le' = query le /\
  n_arg le' = n_arg le /\ vsl le' = vsl le /\ vslq le' = vslq le /\
  tp le' = tp le.

(** Where [le->test] stands in the list, its end for [NULL]. *)
Definition cur (le : logexp) : nat :=
  match test le with
  | Some i => i
  | None => List.length (tests le)
  end.

Definition is_match (v : verdict) : bool :=
  match v_class v with
  | MATCH => true
  | _ => false
  end.

(** The number of MATCH verdicts. *)
Definition matches (vs : list verdict) : nat :=
  List.length (filter is_match vs).

(** Verdicts from index [i] on: each on the test after the last MATCH. *)
Fixpoint indexed (i : nat) (vs : list verdict) : Prop :=
  match vs with
  | [] => True
  | v :: vs' =>
      v_index v = i /\ indexed (if is_match v then S i else i) vs'
  end.

(** The lines of the log about a record, and the verdicts that have one. *)
Definition is_rec_line (l : log_line) : bool :=
  match l with
  | L_rec _ _ _ _ _ _ => true
  | _ => false
  end.

Definition is_loud (v : verdict) : bool :=
  match v_class v with
  | SKIP => false
  | _ => true
  end.

Definition verdict_line (v : verdict) : log_line :=
  L_rec (match v_class v with MATCH => "match" | _ => "err" end)%string
    (VSL_ID (v_rec v)) (VSL_TAG (v_rec v)) (record_type (v_rec v))
    (VSL_LEN (v_rec v) - 1) (VSL_CDATA (v_rec v)).

(** The counter after the verdicts [vs], from [k]. *)
Fixpoint skips_after (k : Z) (vs : list verdict) : Z :=
  match vs with
  | [] => k
  | v :: vs' =>
      match v_class v with
      | MATCH => skips_after 0 vs'
      | SKIP => skips_after (k + 1) vs'
      | FAIL => skips_after k vs'
      end
  end.

(** With the counter at [k], every SKIP of [vs] is within the budget of
    its test and every FAIL is on a test whose budget is used up. *)
Fixpoint within_budget (k : Z) (vs : list verdict) : Prop :=
  match vs with
  | [] => True
  | v :: vs' =>
      match v_class v with
      | MATCH => True
      | SKIP => skip_max (v_test v) = LE_ANY \/ k < skip_max (v_test v)
      | FAIL => skip_max (v_test v) <> LE_ANY /\ skip_max (v_test v) <= k
      end /\
      within_budget (skips_after k [v]) vs'
  end.

(** The tests a list of command lines compiles to: those of the lines up
    to the first one that is refused, and whether one was. *)
Fixpoint compiled (lines : list (list string))
  : list logexp_test * option fatal :=
  match lines with
  | [] => ([], None)
  | [] :: lines' => compiled lines'
  | (c :: av) :: lines' =>
      if String.eqb c "expect" then
        match compile (c :: av) with
        | inr t => let '(ts, m) := compiled lines' in (t :: ts, m)
        | inl m => ([], Some m)
        end
      else ([], Some (Unknown_command c))
  end.

(** The engine is consistent: a thread in flight has the flag [run], the
    query context and no test yet; with none, [run] is down and there is no
    query context. *)
Definition consistent (w : world) : Prop :=
  match tp (w_le w) with
  | Some _ =>
      run (w_le w) = true /\ vslq (w_le w) = true /\ test (w_le w) = None
  | None => run (w_le w) = false /\ vslq (w_le w) = false
  end.

(** A command run from [w] trips no assertion, and leaves [Q] when it
    comes to its end. *)
Definition sound_at {A} (m : M A) (w : world) (Q : A -> world -> Prop)
  : Prop :=
  fst (fst (m w)) <> Asserted /\
  (forall a, fst (fst (m w)) = Ok a -> Q a (snd (fst (m w)))).

(** A command keeps the name of the engine. *)
Definition keeps_name {A} (m : M A) : Prop :=
  forall w, name (w_le (snd (fst (m w)))) = name (w_le w).

(** The cursor after a run is the cursor before plus the MATCHes, and
    every verdict is on the test the cursor stood on. *)
Definition cursor_moves (le : logexp) (vs : list verdict) (le' : logexp)
  : Prop :=
  wf le ->
  wf le' /\ tests le' = tests le /\ indexed (cur le) vs /\
  cur le' = (cur le + matches vs)%nat.

(** The log grows by lines of which those about records are the lines of
    the verdicts that are no SKIP, in order. *)
Definition log_tells (le : logexp) (vs : list verdict) (le' : logexp)
  : Prop :=
  exists new,
    vl le' = vl le ++ new /\
    filter is_rec_line new = map verdict_line (filter is_loud vs).

(** The counter follows the verdicts, which keep to the budget. *)
Definition budget_kept (le : logexp) (vs : list verdict) (le' : logexp)
  : Prop :=
  skip_cnt le' = skips_after (skip_cnt le) vs /\
  within_budget (skip_cnt le) vs.

(** No FAIL among the verdicts. *)
Definition no_fail (vs : list verdict) : Prop :=
  Forall (fun v => v_class v <> FAIL) vs.

(** How the exit of the thread stands to the verdicts: a FAIL is the last
    verdict and the exit is the failed expectation; the exit on a failed
    dispatch has a negative code and no FAIL; no other message ends the
    thread. *)
Definition fail_is_last (e : thread_exit) (vs : list verdict) : Prop :=
  (forall pre v post,
     vs = pre ++ v :: post -> v_class v = FAIL ->
     post = [] /\ e = T_fatal Bad_expectation_failed) /\
  (forall i, e = T_fatal (Bad_dispatch_failed i) -> i < 0 /\ no_fail vs) /\
  (forall m, e = T_fatal m ->
     m = Bad_expectation_failed \/ exists i, m = Bad_dispatch_failed i).

(** The thread is in flight as [logexp_start] leaves it: the handle, the
    flag [run], the query context and no test yet. *)
Definition in_flight (w : world) : Prop :=
  tp (w_le w) <> None /\ run (w_le w) = true /\ vslq (w_le w) = true /\
  test (w_le w) = None.

(** No thread, the flag [run] down and no query context. *)
Definition at_rest (w : world) : Prop :=
  tp (w_le w) = None /\ run (w_le w) = false /\ vslq (w_le w) = false.

(** The values of a test are in range: each of [skip_max], [vxid] and
    [tag] is a sentinel it may have or a non-negative [int]. *)
Definition ranged (t : logexp_test) : Prop :=
  (skip_max t = LE_ANY \/ 0 <= skip_max t <= INT_MAX) /\
  (vxid t = LE_ANY \/ vxid t = LE_LAST \/ 0 <= vxid t <= INT_MAX) /\
  (tag t = LE_ANY \/ tag t = LE_LAST \/ 0 <= tag t).

End Further_notions.

(** ** Properties *)

Section Properties.
Context {re : VRE} {vsl_api : VSL} {vtc : VTC} {libc : LIBC}.


(** *** The cursor *)

Lemma test_logexp_next le :
  test (logexp_next le) =
  match test le with
  | Some i => VTAILQ_NEXT (tests le) i
  | None => VTAILQ_FIRST (tests le)
  end.
Proof.
  unfold logexp_next.
  destruct (test le); cbn;
    match goal with |- context [deref_test ?x] => destruct (deref_test x) end;
    reflexivity.
Qed.

Lemma logexp_next_frame le :
  tests (logexp_next le) = tests le /\
  skip_cnt (logexp_next le) = skip_cnt le /\
  vxid_last (logexp_next le) = vxid_last le /\
  tag_last (logexp_next le) = tag_last le /\
  vsl (logexp_next le) = vsl le.
Proof.
  unfold logexp_next.
  destruct (test le); cbn;
    match goal with |- context [deref_test ?x] => destruct (deref_test x) end;
    cbn; auto.
Qed.

Lemma vl_logexp_next le :
  vl (logexp_next le) = vl le \/
  exists s, vl (logexp_next le) = vl le ++ [L_expecting s].
Proof.
  unfold logexp_next.
  destruct (test le); cbn;
    match goal with |- context [deref_test ?x] => destruct (deref_test x) end;
    cbn; eauto.
Qed.

Lemma VTAILQ_NEXT_wf l i j : VTAILQ_NEXT l i = Some j ->
  j = S i /\ (j < List.length l)%nat.
Proof.
  unfold VTAILQ_NEXT. destruct (Nat.ltb_spec (S i) (List.length l));
    intros E; inversion E; subst; auto.
Qed.

Lemma VTAILQ_NEXT_none l i : (i < List.length l)%nat ->
  VTAILQ_NEXT l i = None <-> S i = List.length l.
Proof.
  unfold VTAILQ_NEXT. intros Hi.
  destruct (Nat.ltb_spec (S i) (List.length l)); split; intros E;
    try discriminate; try lia; auto.
Qed.

Lemma wf_logexp_next le : wf (logexp_next le).
Proof.
  unfold wf. rewrite test_logexp_next.
  destruct (logexp_next_frame le) as [-> _].
  destruct (test le) as [i|].
  - destruct (VTAILQ_NEXT (tests le) i) eqn:E; auto.
    apply VTAILQ_NEXT_wf in E. tauto.
  - destruct (tests le); cbn; auto. lia.
Qed.

(** *** One record *)

Lemma logexp_record_ignored vsl0 le r :
  classified vsl0 r = false -> deref_test le <> None ->
  logexp_record vsl0 le r = Done (Next le, []).
Proof.
  unfold classified, logexp_record, deref_test. intros Hc Hd.
  destruct (VSL_Match vsl0 r); cbn in *; auto.
  destruct (test le) as [i|]; [|congruence].
  destruct (nth_error (tests le) i); [|congruence].
  destruct (VSL_TAG r =? SLT__Batch); cbn in *; congruence.
Qed.

Lemma logexp_record_active vsl0 le r i t :
  test le = Some i -> nth_error (tests le) i = Some t ->
  classified vsl0 r = true ->
  logexp_record vsl0 le r =
  if overflows le i t r then Undefined
  else Done (flow_after le i t r, [verdict_of le i t r]).
Proof.
  unfold classified, logexp_record, deref_test, overflows, flow_after,
    verdict_of, after_record.
  intros Ht Hn Hc. apply andb_prop in Hc as [Hm Hb].
  rewrite Hm, Ht, Hn. cbn [negb].
  destruct (VSL_TAG r =? SLT__Batch); [discriminate|].
  destruct (record_ok le t r) as [ok calls]. cbn [fst snd v_class].
  destruct ok; cbn [classify legend_of].
  - destruct (test (logexp_next _)); reflexivity.
  - destruct (record_skip le t false); cbn [classify]; [|reflexivity].
    destruct (skip_cnt le <? INT_MAX); reflexivity.
Qed.

Lemma overflows_room le i t r :
  skip_cnt le < INT_MAX -> overflows le i t r = false.
Proof.
  unfold overflows. intros H. destruct (v_class _); try reflexivity.
  apply Z.ltb_lt in H. now rewrite H.
Qed.

Lemma flow_le_after le i t r :
  flow_le (flow_after le i t r) = after_record le t r.
Proof.
  unfold flow_after. destruct (v_class _); try reflexivity.
  destruct (test _); reflexivity.
Qed.

Lemma logexp_record_assert vsl0 le r :
  VSL_Match vsl0 r = true -> deref_test le = None ->
  logexp_record vsl0 le r = Assert_failed.
Proof.
  unfold logexp_record, deref_test. intros -> Hd. cbn.
  destruct (test le); [rewrite Hd|]; reflexivity.
Qed.

(** Every result of [logexp_record] is one of the two above. *)
Lemma logexp_record_inv vsl0 le r f vs :
  logexp_record vsl0 le r = Done (f, vs) ->
  (f = Next le /\ vs = [] /\
   (classified vsl0 r = false \/ deref_test le = None)) \/
  exists i t,
    test le = Some i /\ nth_error (tests le) i = Some t /\
    classified vsl0 r = true /\ overflows le i t r = false /\
    vs = [verdict_of le i t r] /\ flow_le f = after_record le t r /\
    f = flow_after le i t r.
Proof.
  intros H.
  destruct (classified vsl0 r) eqn:Hc.
  - destruct (test le) as [i|] eqn:Ht.
    + destruct (nth_error (tests le) i) as [t|] eqn:Hn.
      * right. exists i, t.
        rewrite (logexp_record_active _ _ _ _ _ Ht Hn Hc) in H.
        destruct (overflows le i t r); [discriminate|].
        injection H as <- <-. rewrite flow_le_after. auto 8.
      * apply andb_prop in Hc as [Hm _].
        rewrite logexp_record_assert in H; [discriminate|auto|].
        unfold deref_test. now rewrite Ht.
    + apply andb_prop in Hc as [Hm _].
      rewrite logexp_record_assert in H; [discriminate|auto|].
      unfold deref_test. now rewrite Ht.
  - left. unfold logexp_record in H. unfold classified in Hc.
    destruct (VSL_Match vsl0 r); cbn in H.
    + cbn in Hc. unfold deref_test in *.
      destruct (test le) as [i|]; [|discriminate].
      destruct (nth_error (tests le) i); [|discriminate].
      destruct (VSL_TAG r =? SLT__Batch); [|discriminate].
      inversion H; auto.
    + inversion H; auto.
Qed.

Lemma wf_active le : wf le -> test le <> None ->
  exists i t, test le = Some i /\ nth_error (tests le) i = Some t.
Proof.
  unfold wf. destruct (test le) as [i|]; [|congruence]. intros Hi _.
  destruct (nth_error (tests le) i) as [t|] eqn:E; [eauto|].
  apply nth_error_None in E. lia.
Qed.

(** With a test active and room in the counter, a record has its result. *)
Lemma logexp_record_total vsl0 le r :
  wf le -> test le <> None -> skip_cnt le < INT_MAX ->
  exists f vs, logexp_record vsl0 le r = Done (f, vs).
Proof.
  intros W N R. destruct (wf_active le W N) as (i & t & Ht & Hn).
  destruct (classified vsl0 r) eqn:Hc.
  - rewrite (logexp_record_active _ _ _ _ _ Ht Hn Hc).
    rewrite (overflows_room _ _ _ _ R). eauto.
  - rewrite logexp_record_ignored; eauto.
    unfold deref_test. rewrite Ht, Hn. discriminate.
Qed.

Lemma classify_MATCH ok skip : classify ok skip = MATCH <-> ok = true.
Proof. destruct ok, skip; cbn; split; congruence. Qed.

Lemma classify_SKIP ok skip :
  classify ok skip = SKIP <-> ok = false /\ skip = true.
Proof. destruct ok, skip; cbn; intuition congruence. Qed.

Lemma classify_FAIL ok skip :
  classify ok skip = FAIL <-> ok = false /\ skip = false.
Proof. destruct ok, skip; cbn; intuition congruence. Qed.

Lemma record_skip_true le t :
  record_skip le t false = true <->
  skip_max t = LE_ANY \/ skip_cnt le < skip_max t.
Proof.
  unfold record_skip. cbn [negb andb].
  rewrite orb_true_iff, Z.eqb_eq, Z.ltb_lt. tauto.
Qed.

(** The engine after a classified record, by the class of the verdict. *)
Lemma after_record_MATCH le t r :
  fst (record_ok le t r) = true ->
  after_record le t r =
  logexp_next
    (set_skip_cnt
       (set_last
          (vtc_log le (L_rec "match" (VSL_ID r) (VSL_TAG r) (record_type r)
                         (VSL_LEN r - 1) (VSL_CDATA r)))
          (VSL_ID r) (VSL_TAG r)) 0).
Proof. unfold after_record. intros ->. reflexivity. Qed.

Lemma after_record_SKIP le t r :
  fst (record_ok le t r) = false -> record_skip le t false = true ->
  after_record le t r = set_skip_cnt le (skip_cnt le + 1).
Proof. unfold after_record. intros -> ->. reflexivity. Qed.

Lemma after_record_FAIL le t r :
  fst (record_ok le t r) = false -> record_skip le t false = false ->
  after_record le t r =
  vtc_log le (L_rec "err" (VSL_ID r) (VSL_TAG r) (record_type r)
                (VSL_LEN r - 1) (VSL_CDATA r)).
Proof. unfold after_record. intros -> ->. reflexivity. Qed.

Lemma after_record_tests le t r : tests (after_record le t r) = tests le.
Proof.
  destruct (fst (record_ok le t r)) eqn:Hok.
  - rewrite after_record_MATCH by assumption.
    now destruct (logexp_next_frame
      (set_skip_cnt
         (set_last
            (vtc_log le (L_rec "match" (VSL_ID r) (VSL_TAG r)
                           (record_type r) (VSL_LEN r - 1) (VSL_CDATA r)))
            (VSL_ID r) (VSL_TAG r)) 0)) as [-> _].
  - destruct (record_skip le t false) eqn:Hs.
    + now rewrite after_record_SKIP.
    + now rewrite after_record_FAIL.
Qed.

Lemma after_record_vsl le t r : vsl (after_record le t r) = vsl le.
Proof.
  destruct (fst (record_ok le t r)) eqn:Hok.
  - rewrite after_record_MATCH by assumption.
    now destruct (logexp_next_frame
      (set_skip_cnt
         (set_last
            (vtc_log le (L_rec "match" (VSL_ID r) (VSL_TAG r)
                           (record_type r) (VSL_LEN r - 1) (VSL_CDATA r)))
            (VSL_ID r) (VSL_TAG r)) 0)) as (_ & _ & _ & _ & ->).
  - destruct (record_skip le t false) eqn:Hs.
    + now rewrite after_record_SKIP.
    + now rewrite after_record_FAIL.
Qed.

(** The calls [record_ok] makes, and its answer without them. *)
Lemma record_ok_calls le t r :
  snd (record_ok le t r) =
  match vre t with
  | Some e =>
      if (0 <=? tag t) && (tag t =? VSL_TAG r)
      then [(e, VSL_CDATA r, VSL_LEN r - 1)] else []
  | None => []
  end.
Proof.
  unfold record_ok. destruct (vre t) as [e|]; [|reflexivity].
  destruct ((0 <=? tag t) && (tag t =? VSL_TAG r)); [|reflexivity].
  destruct (VRE_ERROR_NOMATCH =? _); reflexivity.
Qed.

Lemma record_ok_without_vre le t r :
  snd (record_ok le t r) = [] ->
  fst (record_ok le t r) = fst (record_ok le (without_vre t) r).
Proof.
  unfold record_ok. cbn [without_vre vxid tag vre].
  destruct (vre t) as [e|]; [|reflexivity].
  destruct ((0 <=? tag t) && (tag t =? VSL_TAG r)); [|reflexivity].
  destruct (VRE_ERROR_NOMATCH =? _); cbn; discriminate.
Qed.

Lemma record_ok_nomatch le t r e d n :
  In (e, d, n) (snd (record_ok le t r)) ->
  VRE_exec e d n = VRE_ERROR_NOMATCH ->
  fst (record_ok le t r) = false.
Proof.
  unfold record_ok. destruct (vre t) as [e'|]; [|intros []].
  destruct ((0 <=? tag t) && (tag t =? VSL_TAG r)); [|intros []].
  destruct (VRE_ERROR_NOMATCH =? _) eqn:E; cbn; auto.
  intros [H|[]] Hx. inversion H; subst. rewrite Hx, Z.eqb_refl in E.
  discriminate.
Qed.

(** [record_ok] looks at the two last fields of the engine only. *)
Lemma record_ok_ext le le' t r :
  vxid_last le' = vxid_last le -> tag_last le' = tag_last le ->
  record_ok le' t r = record_ok le t r.
Proof. unfold record_ok. intros -> ->. reflexivity. Qed.

(** *** Effects of one record (C6, C10) *)

Lemma record_effects vsl0 le r f vs :
  logexp_record vsl0 le r = Done (f, vs) ->
  (vs = [] -> flow_le f = le) /\
  (forall v, In v vs ->
     match v_class v with
     | MATCH =>
         vxid_last (flow_le f) = VSL_ID r /\
         tag_last (flow_le f) = VSL_TAG r /\
         skip_cnt (flow_le f) = 0 /\
         test (flow_le f) <> test le
     | SKIP =>
         vxid_last (flow_le f) = vxid_last le /\
         tag_last (flow_le f) = tag_last le /\
         skip_cnt (flow_le f) = skip_cnt le + 1 /\
         test (flow_le f) = test le
     | FAIL =>
         vxid_last (flow_le f) = vxid_last le /\
         tag_last (flow_le f) = tag_last le /\
         skip_cnt (flow_le f) = skip_cnt le /\
         test (flow_le f) = test le
     end).
Proof.
  intros H.
  destruct (logexp_record_inv _ _ _ _ _ H)
    as [(-> & -> & _) | (i & t & Ht & Hn & Hc & _ & -> & Hf & _)].
  - split; [reflexivity | intros v []].
  - split; [discriminate|]. intros v [<-|[]]. rewrite Hf.
    unfold verdict_of. cbn [v_class].
    destruct (classify _ _) eqn:Hk.
    + apply classify_MATCH in Hk. rewrite after_record_MATCH by assumption.
      match goal with |- context [logexp_next ?x] =>
        destruct (logexp_next_frame x) as (_ & -> & -> & -> & _);
        rewrite (test_logexp_next x) end.
      cbn. repeat split; auto. rewrite Ht.
      destruct (VTAILQ_NEXT (tests le) i) as [j|] eqn:E; [|discriminate].
      apply VTAILQ_NEXT_wf in E as [-> _]. intros E; inversion E; lia.
    + apply classify_SKIP in Hk as [Hok Hs]. rewrite Hok in Hs.
      rewrite after_record_SKIP by assumption. cbn. auto.
    + apply classify_FAIL in Hk as [Hok Hs]. rewrite Hok in Hs.
      rewrite after_record_FAIL by assumption. cbn. auto.
Qed.

(** C6: for every record [logexp_dispatch] looks at (with a test active
    and the counter below [INT_MAX]), [vxid_last] and [tag_last] become the
    record's vxid and tag when the verdict is MATCH and keep their values
    on SKIP and on FAIL; [skip_cnt] becomes zero on MATCH, which is also
    exactly when [test] moves, grows by one on SKIP and stays on FAIL; a
    record that gets no verdict changes nothing. *)
Theorem C6_last_fields_and_skip_cnt vsl0 le r :
  wf le -> test le <> None -> skip_cnt le < INT_MAX ->
  exists f vs,
    logexp_record vsl0 le r = Done (f, vs) /\
    (vs = [] -> flow_le f = le) /\
    (forall v, In v vs ->
       match v_class v with
       | MATCH =>
           vxid_last (flow_le f) = VSL_ID r /\
           tag_last (flow_le f) = VSL_TAG r /\
           skip_cnt (flow_le f) = 0 /\
           test (flow_le f) <> test le
       | SKIP =>
           vxid_last (flow_le f) = vxid_last le /\
           tag_last (flow_le f) = tag_last le /\
           skip_cnt (flow_le f) = skip_cnt le + 1 /\
           test (flow_le f) = test le
       | FAIL =>
           vxid_last (flow_le f) = vxid_last le /\
           tag_last (flow_le f) = tag_last le /\
           skip_cnt (flow_le f) = skip_cnt le /\
           test (flow_le f) = test le
       end).
Proof.
  intros W N R.
  destruct (logexp_record_total vsl0 le r W N R) as (f & vs & E).
  exists f, vs. split; [exact E|]. exact (record_effects _ _ _ _ _ E).
Qed.

Lemma record_lengths vsl0 le r f vs :
  logexp_record vsl0 le r = Done (f, vs) ->
  (forall v e d n, In v vs -> In (e, d, n) (v_calls v) ->
     d = VSL_CDATA r /\ n = VSL_LEN r - 1) /\
  (exists new, vl (flow_le f) = vl le ++ new /\
     Forall (line_of_len (VSL_LEN r - 1) (VSL_CDATA r)) new).
Proof.
  intros H.
  destruct (logexp_record_inv _ _ _ _ _ H)
    as [(-> & -> & _) | (i & t & Ht & Hn & Hc & _ & -> & Hf & _)].
  - split; [intros v e d n []|]. exists []. cbn. now rewrite app_nil_r.
  - split.
    + intros v e d n [<-|[]]. unfold verdict_of. cbn [v_calls].
      rewrite record_ok_calls. destruct (vre t); [|intros []].
      destruct (_ && _); [|intros []].
      intros [E|[]]. inversion E; auto.
    + rewrite Hf. destruct (fst (record_ok le t r)) eqn:Hok.
      * rewrite after_record_MATCH by assumption.
        match goal with |- context [logexp_next ?x] =>
          destruct (vl_logexp_next x) as [->|[s ->]] end; cbn.
        -- eexists; split; [reflexivity|]. repeat constructor.
        -- rewrite <- app_assoc. eexists; split; [reflexivity|].
           repeat constructor.
      * destruct (record_skip le t false) eqn:Hs.
        -- rewrite after_record_SKIP by assumption. exists []. cbn.
           now rewrite app_nil_r.
        -- rewrite after_record_FAIL by assumption. cbn.
           eexists; split; [reflexivity|]. repeat constructor.
Qed.

(** C10: whenever [logexp_dispatch] hands a record to [VRE_exec] (with a
    test active and the counter below [INT_MAX]), the length it passes is
    [VSL_LEN] of the record minus one, with the record's data as the
    subject; the log line about the record is cut at the same length. *)
Theorem C10_declared_length_minus_one vsl0 le r :
  wf le -> test le <> None -> skip_cnt le < INT_MAX ->
  exists f vs,
    logexp_record vsl0 le r = Done (f, vs) /\
    (forall v e d n, In v vs -> In (e, d, n) (v_calls v) ->
       d = VSL_CDATA r /\ n = VSL_LEN r - 1) /\
    (exists new, vl (flow_le f) = vl le ++ new /\
       Forall (line_of_len (VSL_LEN r - 1) (VSL_CDATA r)) new).
Proof.
  intros W N R.
  destruct (logexp_record_total vsl0 le r W N R) as (f & vs & E).
  exists f, vs. split; [exact E|]. exact (record_lengths _ _ _ _ _ E).
Qed.

(** *** The regex check (C4) *)

(** C4: on a classified record (with room in the counter for a SKIP) the
    active test calls [VRE_exec] exactly when it has an expression, its tag
    is an exact one (not negative) and equal to the record's; a call that
    answers [VRE_ERROR_NOMATCH] makes [ok] false, so the verdict is not
    MATCH; with the tag ANY or LAST no call is made and the verdict is
    MATCH exactly when it is for the same test without its expression. *)
Theorem C4_regex_scope vsl0 le r i t :
  test le = Some i -> nth_error (tests le) i = Some t ->
  classified vsl0 r = true -> skip_cnt le < INT_MAX ->
  exists f v,
    logexp_record vsl0 le r = Done (f, [v]) /\
    (v_calls v <> [] <->
     (exists e, vre t = Some e) /\ 0 <= tag t /\ tag t = VSL_TAG r) /\
    (forall e d n, In (e, d, n) (v_calls v) ->
       VRE_exec e d n = VRE_ERROR_NOMATCH ->
       fst (record_ok le t r) = false /\ v_class v <> MATCH) /\
    (tag t = LE_ANY \/ tag t = LE_LAST ->
       v_calls v = [] /\
       (v_class v = MATCH <->
        fst (record_ok le (without_vre t) r) = true)).
Proof.
  intros Ht Hn Hc Hroom. rewrite (logexp_record_active _ _ _ _ _ Ht Hn Hc).
  rewrite (overflows_room _ _ _ _ Hroom).
  eexists _, _. split; [reflexivity|].
  unfold verdict_of. cbn [v_calls v_class]. split; [|split].
  - rewrite record_ok_calls. destruct (vre t) as [e|].
    + destruct ((0 <=? tag t) && (tag t =? VSL_TAG r)) eqn:E.
      * apply andb_prop in E as [E1 E2].
        apply Z.leb_le in E1. apply Z.eqb_eq in E2.
        split; [eauto|discriminate].
      * split; [congruence|]. intros (_ & E1 & E2).
        apply Z.leb_le in E1. apply Z.eqb_eq in E2.
        rewrite E1, E2 in E. discriminate.
    + split; [congruence|]. intros [[e E] _]. discriminate.
  - intros e d n Hin Hx.
    pose proof (record_ok_nomatch _ _ _ _ _ _ Hin Hx) as Hok.
    split; [assumption|]. rewrite classify_MATCH. congruence.
  - intros Htag.
    assert (Hcalls : snd (record_ok le t r) = []).
    { rewrite record_ok_calls. destruct (vre t); [|reflexivity].
      replace (0 <=? tag t) with false; [reflexivity|].
      symmetry. apply Z.leb_gt. unfold LE_ANY, LE_LAST in Htag. lia. }
    split; [assumption|]. rewrite classify_MATCH.
    now rewrite (record_ok_without_vre _ _ _ Hcalls).
Qed.

(** *** The skip budget (C2) *)

Lemma v_class_verdict_of le i t r :
  v_class (verdict_of le i t r) =
  classify (fst (record_ok le t r))
    (record_skip le t (fst (record_ok le t r))).
Proof. reflexivity. Qed.

Lemma flow_after_SKIP le i t r :
  fst (record_ok le t r) = false -> record_skip le t false = true ->
  flow_after le i t r = Next (set_skip_cnt le (skip_cnt le + 1)) /\
  v_class (verdict_of le i t r) = SKIP.
Proof.
  intros Hok Hs. unfold flow_after.
  rewrite v_class_verdict_of, Hok, Hs. cbn [classify].
  now rewrite (after_record_SKIP _ _ _ Hok Hs).
Qed.

Lemma flow_after_FAIL le i t r :
  fst (record_ok le t r) = false -> record_skip le t false = false ->
  flow_after le i t r = Return 2 (after_record le t r) /\
  v_class (verdict_of le i t r) = FAIL /\ overflows le i t r = false.
Proof.
  intros Hok Hs. unfold flow_after, overflows.
  rewrite v_class_verdict_of, Hok, Hs. cbn [classify]. auto.
Qed.

Lemma skip_run vsl0 i t rs : forall le,
  test le = Some i -> nth_error (tests le) i = Some t ->
  0 <= skip_cnt le <= skip_max t -> skip_max t <= INT_MAX ->
  Forall (fun r => classified vsl0 r = true /\
                   fst (record_ok le t r) = false) rs ->
  exists f vs,
    logexp_records vsl0 le rs = Done (f, vs) /\
    map v_class vs =
    repeat SKIP (Nat.min (List.length rs)
                   (Z.to_nat (skip_max t - skip_cnt le))) ++
    (if Nat.ltb (Z.to_nat (skip_max t - skip_cnt le)) (List.length rs)
     then [FAIL] else []).
Proof.
  induction rs as [|r rs IH]; intros le Ht Hn Hk Hmax Hrs.
  - cbn. eexists _, _. split; [reflexivity|].
    destruct (Nat.ltb_spec (Z.to_nat (skip_max t - skip_cnt le)) 0);
      [lia|reflexivity].
  - inversion Hrs as [|r' rs' [Hc Hok] Hrs']; subst.
    cbn [logexp_records].
    rewrite (logexp_record_active _ _ _ _ _ Ht Hn Hc).
    destruct (record_skip le t false) eqn:Hs.
    + destruct (flow_after_SKIP le i t r Hok Hs) as [-> Hcl].
      apply record_skip_true in Hs.
      assert (Hlt : skip_cnt le < skip_max t)
        by (unfold LE_ANY in Hs; lia).
      rewrite overflows_room by lia.
      assert (Hrs2 : Forall (fun r => classified vsl0 r = true /\
          fst (record_ok (set_skip_cnt le (skip_cnt le + 1)) t r) = false)
          rs).
      { eapply Forall_impl; [|exact Hrs']. cbn. intros a [? ?].
        split; [assumption|].
        rewrite (record_ok_ext le) by reflexivity. assumption. }
      assert (Hk2 : 0 <= skip_cnt (set_skip_cnt le (skip_cnt le + 1))
                    <= skip_max t) by (cbn; lia).
      destruct (IH (set_skip_cnt le (skip_cnt le + 1)) Ht Hn Hk2 Hmax Hrs2)
        as (f & vs & Hrun & Hvs).
      rewrite Hrun.
      eexists _, _. split; [reflexivity|].
      cbn [map app]. rewrite Hcl, Hvs.
      cbn [skip_cnt set_skip_cnt].
      replace (Z.to_nat (skip_max t - skip_cnt le))
        with (S (Z.to_nat (skip_max t - (skip_cnt le + 1)))) by lia.
      reflexivity.
    + destruct (flow_after_FAIL le i t r Hok Hs) as (-> & Hcl & ->).
      assert (Heq : skip_cnt le = skip_max t).
      { destruct (Z.ltb_spec (skip_cnt le) (skip_max t)); [|lia].
        assert (record_skip le t false = true)
          by (apply record_skip_true; auto). congruence. }
      eexists _, _. split; [reflexivity|].
      cbn [map]. rewrite Hcl, Heq, Z.sub_diag. reflexivity.
Qed.

(** C2: against the active test [t], a classified record that is not [ok]
    is a SKIP, with [skip_cnt] one higher (the counter being below
    [INT_MAX]), exactly when [skip_max] is ANY or above [skip_cnt], and a
    FAIL (the dispatch returns 2) otherwise; so for a [skip_max] of N with
    the counter at k, records that are all not [ok] get N - k SKIPs and
    then a FAIL: at most N from the zero the counter has when the test
    becomes active. *)
Theorem C2_skip_budget vsl0 le i t :
  test le = Some i -> nth_error (tests le) i = Some t ->
  skip_max t <= INT_MAX ->
  (forall r, classified vsl0 r = true -> fst (record_ok le t r) = false ->
     skip_cnt le < INT_MAX ->
     exists f v,
       logexp_record vsl0 le r = Done (f, [v]) /\
       (skip_max t = LE_ANY \/ skip_cnt le < skip_max t ->
        v_class v = SKIP /\ f = Next (flow_le f) /\
        skip_cnt (flow_le f) = skip_cnt le + 1) /\
       (~ (skip_max t = LE_ANY \/ skip_cnt le < skip_max t) ->
        v_class v = FAIL /\ f = Return 2 (flow_le f))) /\
  (forall rs,
     0 <= skip_cnt le <= skip_max t ->
     Forall (fun r => classified vsl0 r = true /\
                      fst (record_ok le t r) = false) rs ->
     exists f vs,
       logexp_records vsl0 le rs = Done (f, vs) /\
       map v_class vs =
       repeat SKIP (Nat.min (List.length rs)
                      (Z.to_nat (skip_max t - skip_cnt le))) ++
       (if Nat.ltb (Z.to_nat (skip_max t - skip_cnt le)) (List.length rs)
        then [FAIL] else [])).
Proof.
  intros Ht Hn Hmax. split.
  - intros r Hc Hok Hroom.
    rewrite (logexp_record_active _ _ _ _ _ Ht Hn Hc).
    rewrite (overflows_room _ _ _ _ Hroom).
    eexists _, _. split; [reflexivity|]. split.
    + intros Hs. apply record_skip_true in Hs.
      destruct (flow_after_SKIP le i t r Hok Hs) as [-> Hcl].
      cbn. auto.
    + intros Hs.
      destruct (record_skip le t false) eqn:E.
      * apply record_skip_true in E. contradiction.
      * destruct (flow_after_FAIL le i t r Hok E) as (-> & Hcl & _).
        cbn. auto.
  - intros rs Hk Hrs. exact (skip_run vsl0 i t rs le Ht Hn Hk Hmax Hrs).
Qed.

(** *** Runs of the matcher *)

Lemma last_fields_app vs1 : forall lv lt vs2,
  last_fields lv lt (vs1 ++ vs2) =
  last_fields (fst (last_fields lv lt vs1)) (snd (last_fields lv lt vs1)) vs2.
Proof.
  induction vs1 as [|v vs1 IH]; intros; cbn; [reflexivity|].
  destruct (v_class v); apply IH.
Qed.

Lemma backref_ok_app vs1 : forall lv lt vs2,
  backref_ok lv lt (vs1 ++ vs2) <->
  backref_ok lv lt vs1 /\
  backref_ok (fst (last_fields lv lt vs1)) (snd (last_fields lv lt vs1)) vs2.
Proof.
  induction vs1 as [|v vs1 IH]; intros; cbn [app backref_ok last_fields].
  - tauto.
  - rewrite IH. destruct (v_class v); cbn [fst snd]; tauto.
Qed.

Lemma run_summary_app vsl0 le rs1 le1 vs1 rs2 code le2 vs2 :
  run_summary vsl0 le rs1 0 le1 vs1 ->
  run_summary vsl0 le1 rs2 code le2 vs2 ->
  run_summary vsl0 le (rs1 ++ rs2) code le2 (vs1 ++ vs2).
Proof.
  intros (T1 & V1 & W1 & E1 & O1 & (rest1 & F1 & R1) & B1 & L1)
         (T2 & V2 & W2 & E2 & O2 & (rest2 & F2 & R2) & B2 & L2).
  assert (Hopen : Forall (open_verdict (List.length (tests le))) vs1).
  { destruct E1 as [(_ & _ & H) | [(H & _) | (H & _)]];
      [assumption | discriminate | discriminate]. }
  rewrite (R1 eq_refl), app_nil_r in F1. rewrite T1 in E2.
  repeat split.
  - congruence.
  - congruence.
  - assumption.
  - destruct E2 as [(C & N & H) | [(C & N & vs0 & v & -> & H & K)
                                 | (C & N & vs0 & v & -> & H & K)]].
    + left. repeat split; auto. apply Forall_app; auto.
    + right; left. repeat split; auto. exists (vs1 ++ vs0), v.
      rewrite app_assoc. split; [reflexivity|]. split; [|assumption].
      apply Forall_app; auto.
    + right; right. repeat split; auto. exists (vs1 ++ vs0), v.
      rewrite app_assoc. split; [reflexivity|]. split; [|assumption].
      apply Forall_app; auto.
  - apply Forall_app; split; [assumption|].
    eapply Forall_impl; [|exact O2]. unfold on_test. intros v.
    now rewrite T1.
  - exists rest2. rewrite filter_app, F1, F2, map_app, app_assoc.
    split; [reflexivity|assumption].
  - apply backref_ok_app. rewrite L1. cbn [fst snd]. auto.
  - rewrite last_fields_app, L1. cbn [fst snd]. assumption.
Qed.

Ltac split_ifs H :=
  repeat match type of H with
  | context [if ?b then _ else _] => destruct b
  | context [match ?x with Some _ => _ | None => _ end] => destruct x
  end.

Lemma record_ok_backref le t r :
  fst (record_ok le t r) = true ->
  (vxid t = LE_LAST -> VSL_ID r = vxid_last le) /\
  (tag t = LE_LAST -> VSL_TAG r = tag_last le).
Proof.
  unfold record_ok. intros H. split; intros E; rewrite E in H;
    cbn [Z.eqb LE_LAST Pos.eqb] in H.
  - destruct (Z.eqb_spec (vxid_last le) (VSL_ID r)) as [->|];
      [reflexivity|]. exfalso. cbn [negb] in H.
    split_ifs H; cbn in H; discriminate.
  - destruct (Z.eqb_spec (tag_last le) (VSL_TAG r)) as [->|];
      [reflexivity|]. exfalso. cbn [negb] in H.
    split_ifs H; cbn in H; discriminate.
Qed.

Lemma run_summary_nil vsl0 le rs :
  wf le -> test le <> None -> filter (classified vsl0) rs = [] ->
  run_summary vsl0 le rs 0 le [].
Proof.
  intros W N F. unfold run_summary. repeat split; auto.
  - left. auto.
  - exists []. rewrite F. auto.
Qed.

Ltac summary_split :=
  split; [|split; [|split; [|split; [|split; [|split; [|split]]]]]];
  try reflexivity; try assumption.

Lemma flow_after_MATCH le i t r :
  fst (record_ok le t r) = true ->
  flow_after le i t r =
  match test (after_record le t r) with
  | None => Return 1 (after_record le t r)
  | Some _ => Next (after_record le t r)
  end /\
  v_class (verdict_of le i t r) = MATCH.
Proof.
  intros Hok. unfold flow_after. rewrite v_class_verdict_of, Hok. auto.
Qed.

Lemma logexp_record_summary vsl0 le r :
  wf le -> test le <> None ->
  summary_of vsl0 le [r] (logexp_record vsl0 le r).
Proof.
  intros W N. destruct (wf_active le W N) as (i & t & Ht & Hn).
  destruct (classified vsl0 r) eqn:Hc.
  - rewrite (logexp_record_active _ _ _ _ _ Ht Hn Hc).
    destruct (overflows le i t r) eqn:Hov; [exact I|].
    cbn [summary_of]. rewrite flow_le_after.
    assert (Hidx : (i < List.length (tests le))%nat)
      by (apply nth_error_Some; congruence).
    assert (Ho : Forall (on_test le) [verdict_of le i t r])
      by (constructor; [exact Hn|constructor]).
    assert (Hf : exists rest,
      filter (classified vsl0) [r] = map v_rec [verdict_of le i t r] ++ rest
      /\ rest = []).
    { exists []. cbn. rewrite Hc. auto. }
    destruct Hf as (rest & Hf & ->).
    destruct (fst (record_ok le t r)) eqn:Hok.
    + destruct (flow_after_MATCH le i t r Hok) as [-> Hcl].
      assert (Hl : vxid_last (after_record le t r) = VSL_ID r /\
                   tag_last (after_record le t r) = VSL_TAG r).
      { rewrite after_record_MATCH by assumption.
        match goal with |- context [logexp_next ?x] =>
          destruct (logexp_next_frame x) as (_ & _ & -> & -> & _) end.
        cbn. auto. }
      assert (Hw : wf (after_record le t r))
        by (rewrite after_record_MATCH by assumption;
            apply wf_logexp_next).
      assert (Htest : test (after_record le t r) = VTAILQ_NEXT (tests le) i).
      { rewrite after_record_MATCH by assumption.
        rewrite test_logexp_next. cbn. now rewrite Ht. }
      assert (Hb : backref_ok (vxid_last le) (tag_last le)
                     [verdict_of le i t r]).
      { cbn. split; [|exact I]. intros _.
        apply record_ok_backref. assumption. }
      assert (Hlf : last_fields (vxid_last le) (tag_last le)
                      [verdict_of le i t r]
                    = (vxid_last (after_record le t r),
                       tag_last (after_record le t r))).
      { cbn [last_fields]. rewrite Hcl.
        destruct Hl as [-> ->]. reflexivity. }
      destruct (test (after_record le t r)) as [j|] eqn:Hj;
        cbn [flow_code flow_le].
      * split; [|reflexivity]. unfold run_summary.
        rewrite after_record_tests, after_record_vsl. summary_split.
        -- left. repeat split; [congruence|]. constructor; [|constructor].
           right. split; [assumption|]. cbn.
           symmetry in Htest. apply VTAILQ_NEXT_wf in Htest. lia.
        -- eauto.
      * split; [|discriminate]. unfold run_summary.
        rewrite after_record_tests, after_record_vsl. summary_split.
        -- right; left. repeat split; auto. exists [], (verdict_of le i t r).
           repeat split; auto. cbn.
           symmetry in Htest. now apply VTAILQ_NEXT_none in Htest.
        -- exists []. split; [assumption|discriminate].
    + assert (Hb : backref_ok (vxid_last le) (tag_last le)
                     [verdict_of le i t r]).
      { cbn. split; [|exact I]. rewrite Hok.
        destruct (record_skip le t false); cbn; discriminate. }
      destruct (record_skip le t false) eqn:Hs.
      * destruct (flow_after_SKIP le i t r Hok Hs) as [-> Hcl].
        rewrite (after_record_SKIP _ _ _ Hok Hs). cbn [flow_code flow_le].
        split; [|reflexivity]. unfold run_summary.
        cbn [tests vsl set_skip_cnt]. summary_split.
        -- left. repeat split; [cbn; congruence|].
           constructor; [|constructor]. left. assumption.
        -- eauto.
        -- cbn [last_fields]. rewrite Hcl. reflexivity.
      * destruct (flow_after_FAIL le i t r Hok Hs) as (-> & Hcl & _).
        cbn [flow_code flow_le].
        split; [|discriminate]. unfold run_summary.
        rewrite (after_record_FAIL _ _ _ Hok Hs). cbn [tests vsl vtc_log].
        summary_split.
        -- right; right. repeat split; [cbn; congruence|].
           exists [], (verdict_of le i t r). repeat split; auto.
        -- exists []. split; [assumption|discriminate].
        -- cbn [last_fields]. rewrite Hcl. reflexivity.
  - rewrite logexp_record_ignored; auto.
    + cbn [summary_of flow_code flow_le]. split; [|reflexivity].
      apply run_summary_nil; auto. cbn. now rewrite Hc.
    + unfold deref_test. rewrite Ht, Hn. discriminate.
Qed.

Lemma summary_open vsl0 le rs le1 vs :
  run_summary vsl0 le rs 0 le1 vs -> wf le1 /\ test le1 <> None.
Proof.
  intros (_ & _ & W & E & _). split; [assumption|].
  destruct E as [(_ & H & _)|[(H & _)|(H & _)]];
    [assumption|discriminate|discriminate].
Qed.

Lemma logexp_records_summary vsl0 rs : forall le,
  wf le -> test le <> None ->
  summary_of vsl0 le rs (logexp_records vsl0 le rs).
Proof.
  induction rs as [|r rs IH]; intros le W N.
  - cbn. split; [|reflexivity]. apply run_summary_nil; auto.
  - cbn [logexp_records].
    pose proof (logexp_record_summary vsl0 le r W N) as S1.
    destruct (logexp_record vsl0 le r) as [[f vs]| |];
      [|contradiction|exact I].
    cbn [summary_of] in S1. destruct S1 as [S1 Z1].
    destruct f as [le1|code le1]; cbn [flow_code flow_le] in *.
    + destruct (summary_open _ _ _ _ _ S1) as [W1 N1].
      specialize (IH le1 W1 N1).
      destruct (logexp_records vsl0 le1 rs) as [[f2 vs2]| |];
        [|contradiction|exact I].
      cbn [summary_of] in *. destruct IH as [S2 Z2].
      split; [|assumption].
      exact (run_summary_app _ _ [r] _ _ _ _ _ _ S1 S2).
    + cbn [summary_of flow_code flow_le]. split; [|assumption].
      destruct S1 as (T & V & W1 & E & O & (rest & F & R) & B & L).
      unfold run_summary. summary_split.
      exists (rest ++ filter (classified vsl0) rs).
      change (r :: rs) with ([r] ++ rs).
      rewrite filter_app, F, app_assoc. split; [reflexivity|].
      intros ->. specialize (Z1 eq_refl). discriminate.
Qed.

Lemma logexp_dispatch_summary vsl0 pt : forall le,
  wf le -> test le <> None ->
  match logexp_dispatch vsl0 le pt with
  | Done (code, le', vs) => run_summary vsl0 le (List.concat pt) code le' vs
  | Assert_failed => False
  | Undefined => True
  end.
Proof.
  induction pt as [|t pt IH]; intros le W N.
  - cbn. apply run_summary_nil; auto.
  - cbn [logexp_dispatch List.concat].
    pose proof (logexp_records_summary vsl0 t le W N) as S1.
    destruct (logexp_records vsl0 le t) as [[f vs]| |];
      [|contradiction|exact I].
    cbn [summary_of] in S1. destruct S1 as [S1 Z1].
    destruct f as [le1|code le1]; cbn [flow_code flow_le] in *.
    + destruct (summary_open _ _ _ _ _ S1) as [W1 N1].
      specialize (IH le1 W1 N1).
      destruct (logexp_dispatch vsl0 le1 pt) as [[[c2 le2] vs2]| |];
        [|contradiction|exact I].
      exact (run_summary_app _ _ _ _ _ _ _ _ _ S1 IH).
    + destruct S1 as (T & V & W1 & E & O & (rest & F & R) & B & L).
      unfold run_summary. summary_split.
      exists (rest ++ filter (classified vsl0) (List.concat pt)).
      rewrite filter_app, F, app_assoc. split; [reflexivity|].
      intros ->. specialize (Z1 eq_refl). discriminate.
Qed.

Lemma ends_app n code le' vs1 vs2 :
  Forall (open_verdict n) vs1 -> ends n code le' vs2 ->
  ends n code le' (vs1 ++ vs2).
Proof.
  intros H1 [(C & N & H) | [(C & N & vs0 & v & -> & H & K)
                          | (C & N & vs0 & v & -> & H & K)]].
  - left. repeat split; auto. apply Forall_app; auto.
  - right; left. repeat split; auto. exists (vs1 ++ vs0), v.
    rewrite app_assoc. split; [reflexivity|]. split; [|assumption].
    apply Forall_app; auto.
  - right; right. repeat split; auto. exists (vs1 ++ vs0), v.
    rewrite app_assoc. split; [reflexivity|]. split; [|assumption].
    apply Forall_app; auto.
Qed.

Lemma ends_open n le' vs : ends n 0 le' vs ->
  test le' <> None /\ Forall (open_verdict n) vs.
Proof.
  intros [(_ & N & H) | [(C & _) | (C & _)]];
    [auto | discriminate | discriminate].
Qed.

Lemma ends_codes n code le' vs : ends n code le' vs ->
  code = 0 \/ code = 1 \/ code = 2.
Proof. intros [(C & _) | [(C & _) | (C & _)]]; auto. Qed.

(** Records after the one that ended the run change nothing. *)
Lemma run_summary_more vsl0 le rs code le' vs rs' :
  code <> 0 -> run_summary vsl0 le rs code le' vs ->
  run_summary vsl0 le (rs ++ rs') code le' vs.
Proof.
  intros C (T & V & W1 & E & O & (rest & F & R) & B & L).
  unfold run_summary. summary_split.
  exists (rest ++ filter (classified vsl0) rs').
  rewrite filter_app, F, app_assoc. split; [reflexivity|].
  intros ->. contradiction.
Qed.

(** *** The codes of a dispatch (C5) *)

Lemma after_record_skip_cnt le t r :
  skip_cnt (after_record le t r) = 0 \/
  skip_cnt (after_record le t r) = skip_cnt le + 1 \/
  skip_cnt (after_record le t r) = skip_cnt le.
Proof.
  destruct (fst (record_ok le t r)) eqn:Hok.
  - left. rewrite after_record_MATCH by assumption.
    match goal with |- context [logexp_next ?x] =>
      destruct (logexp_next_frame x) as (_ & -> & _) end.
    reflexivity.
  - destruct (record_skip le t false) eqn:Hs.
    + right; left. now rewrite after_record_SKIP.
    + right; right. now rewrite after_record_FAIL.
Qed.

(** With room in the counter the loops stay defined. *)
Lemma room_record vsl0 le r rs :
  room le (r :: rs) ->
  logexp_record vsl0 le r <> Undefined /\
  forall f vs, logexp_record vsl0 le r = Done (f, vs) -> room (flow_le f) rs.
Proof.
  unfold room. cbn [List.length]. intros [R0 R1].
  destruct (classified vsl0 r) eqn:Hc.
  - destruct (test le) as [i|] eqn:Ht.
    + destruct (nth_error (tests le) i) as [t|] eqn:Hn.
      * rewrite (logexp_record_active _ _ _ _ _ Ht Hn Hc).
        rewrite overflows_room by lia. split; [discriminate|].
        intros f vs E. injection E as <- _. rewrite flow_le_after.
        destruct (after_record_skip_cnt le t r) as [-> | [-> | ->]]; lia.
      * apply andb_prop in Hc as [Hm _].
        rewrite logexp_record_assert;
          [split; [discriminate|intros; discriminate] | auto |].
        unfold deref_test. now rewrite Ht.
    + apply andb_prop in Hc as [Hm _].
      rewrite logexp_record_assert;
        [split; [discriminate|intros; discriminate] | auto |].
      unfold deref_test. now rewrite Ht.
  - split.
    + intros E.
      destruct (logexp_record vsl0 le r) as [[f vs]| |] eqn:K;
        try discriminate.
      unfold logexp_record in K. unfold classified in Hc.
      destruct (VSL_Match vsl0 r); cbn in K; [|discriminate].
      cbn in Hc. destruct (test le); [|discriminate].
      destruct (deref_test le); [|discriminate].
      destruct (VSL_TAG r =? SLT__Batch); discriminate.
    + intros f vs E.
      destruct (logexp_record_inv _ _ _ _ _ E)
        as [(-> & _) | (i & t & _ & _ & Hc' & _)]; [|congruence].
      cbn [flow_le]. lia.
Qed.

Lemma room_records vsl0 rs rs' : forall le,
  room le (rs ++ rs') ->
  logexp_records vsl0 le rs <> Undefined /\
  forall f vs, logexp_records vsl0 le rs = Done (f, vs) ->
               room (flow_le f) rs'.
Proof.
  induction rs as [|r rs IH]; intros le R.
  - cbn. split; [discriminate|]. intros f vs E. now inversion E.
  - cbn [logexp_records]. cbn [app] in R.
    destruct (room_record vsl0 le r (rs ++ rs') R) as [U1 R1].
    destruct (logexp_record vsl0 le r) as [[f vs]| |];
      [|split; [discriminate|intros; discriminate]|contradiction].
    specialize (R1 f vs eq_refl).
    destruct f as [le1|code le1]; cbn [flow_le] in R1.
    + destruct (IH le1 R1) as [U2 R2].
      destruct (logexp_records vsl0 le1 rs) as [[f2 vs2]| |];
        [|split; [discriminate|intros; discriminate]|contradiction].
      split; [discriminate|]. intros f' vs' E. inversion E; subst.
      now apply (R2 f' vs2).
    + split; [discriminate|]. intros f' vs' E. inversion E; subst.
      cbn. destruct R1 as [A B]. unfold room.
      rewrite length_app in B. lia.
Qed.

Lemma room_dispatch vsl0 pt rs' : forall le,
  room le (List.concat pt ++ rs') ->
  logexp_dispatch vsl0 le pt <> Undefined /\
  forall code le' vs, logexp_dispatch vsl0 le pt = Done (code, le', vs) ->
                      room le' rs'.
Proof.
  induction pt as [|t pt IH]; intros le R.
  - cbn. split; [discriminate|]. intros c le' vs E.
    injection E as <- <- <-. exact R.
  - cbn [logexp_dispatch]. cbn [List.concat] in R. rewrite <- app_assoc in R.
    destruct (room_records vsl0 t _ le R) as [U1 R1].
    destruct (logexp_records vsl0 le t) as [[f vs]| |];
      [|split; [discriminate|intros; discriminate]|contradiction].
    specialize (R1 f vs eq_refl).
    destruct f as [le1|code le1]; cbn [flow_le] in R1.
    + destruct (IH le1 R1) as [U2 R2].
      destruct (logexp_dispatch vsl0 le1 pt) as [[[c2 le2] vs2]| |];
        [|split; [discriminate|intros; discriminate]|contradiction].
      split; [discriminate|]. intros c' le' vs' E. inversion E; subst.
      now apply (R2 c' le' vs2).
    + split; [discriminate|]. intros c' le' vs' E. inversion E; subst.
      destruct R1 as [A B]. unfold room.
      rewrite length_app in B. lia.
Qed.

(** C5: called with a test active (and fewer records than the counter has
    room for), [logexp_dispatch] returns 0, 1 or 2.  It is 0 with every
    classified record of the call given a verdict, none of them ending the
    run, and a test still active; 1 with the last verdict a MATCH on the
    last test and no test active any more; 2 with the last verdict a FAIL.
    With 1 and 2 the verdicts stop there: the classified records after
    that one ([rest]) get none. *)
Theorem C5_dispatch_codes vsl0 le pt :
  wf le -> test le <> None -> room le (List.concat pt) ->
  exists code le' vs,
    logexp_dispatch vsl0 le pt = Done (code, le', vs) /\
    ((code = 0 /\ test le' <> None /\
      Forall (open_verdict (List.length (tests le))) vs /\
      filter (classified vsl0) (List.concat pt) = map v_rec vs) \/
     (code = 1 /\ test le' = None /\
      exists vs0 v rest,
        vs = vs0 ++ [v] /\
        Forall (open_verdict (List.length (tests le))) vs0 /\
        v_class v = MATCH /\ S (v_index v) = List.length (tests le) /\
        filter (classified vsl0) (List.concat pt) = map v_rec vs ++ rest) \/
     (code = 2 /\ test le' <> None /\
      exists vs0 v rest,
        vs = vs0 ++ [v] /\
        Forall (open_verdict (List.length (tests le))) vs0 /\
        v_class v = FAIL /\
        filter (classified vsl0) (List.concat pt) = map v_rec vs ++ rest)).
Proof.
  intros W N R.
  pose proof (logexp_dispatch_summary vsl0 pt le W N) as S.
  rewrite <- (app_nil_r (List.concat pt)) in R.
  destruct (room_dispatch vsl0 pt [] le R) as [U _].
  destruct (logexp_dispatch vsl0 le pt) as [[[code le'] vs]| |];
    [|contradiction|contradiction].
  exists code, le', vs. split; [reflexivity|].
  destruct S as (_ & _ & _ & E & _ & (rest & F & R') & _).
  destruct E as [(C & N' & H) | [(C & N' & vs0 & v & -> & H & K1 & K2)
                               | (C & N' & vs0 & v & -> & H & K)]].
  - left. rewrite (R' C), app_nil_r in F. auto.
  - right; left. repeat split; auto. exists vs0, v, rest. auto.
  - right; right. repeat split; auto. exists vs0, v, rest. auto.
Qed.

(** *** The thread *)

Lemma VSLQ_Dispatch_summary ds own : forall le,
  wf le -> test le <> None ->
  match VSLQ_Dispatch le ds own with
  | Done (code, le', vs) =>
      (code = own /\ run_summary (vsl le) le (records_of ds) 0 le' vs) \/
      (code <> 0 /\ run_summary (vsl le) le (records_of ds) code le' vs)
  | Assert_failed => False
  | Undefined => True
  end.
Proof.
  induction ds as [|pt ds IH]; intros le W N.
  - cbn. left. split; [reflexivity|]. apply run_summary_nil; auto.
  - cbn [VSLQ_Dispatch].
    pose proof (logexp_dispatch_summary (vsl le) pt le W N) as S1.
    destruct (logexp_dispatch (vsl le) le pt) as [[[c1 le1] vs1]| |];
      [|contradiction|exact I].
    unfold records_of. cbn [List.concat]. rewrite concat_app.
    destruct (Z.eqb_spec c1 0) as [->|C1].
    + destruct (summary_open _ _ _ _ _ S1) as [W1 N1].
      assert (V1 : vsl le1 = vsl le) by apply S1.
      specialize (IH le1 W1 N1). rewrite V1 in IH.
      destruct (VSLQ_Dispatch le1 ds own) as [[[c2 le2] vs2]| |];
        [|contradiction|exact I].
      destruct IH as [[-> S2]|[C2 S2]].
      * left. split; [reflexivity|].
        exact (run_summary_app _ _ _ _ _ _ _ _ _ S1 S2).
      * right. split; [assumption|].
        exact (run_summary_app _ _ _ _ _ _ _ _ _ S1 S2).
    + right. split; [assumption|]. now apply run_summary_more.
Qed.

Lemma thread_loop_none le calls : test le = None ->
  thread_loop le calls = (T_null, vtc_log le L_end, []).
Proof.
  intros H. destruct calls; cbn [thread_loop]; rewrite H; reflexivity.
Qed.

Lemma thread_summary_step le c cs le1 vs1 e le2 vs2 :
  run_summary (vsl le) le (records_of (deliveries c)) 0 le1 vs1 ->
  thread_summary le1 cs e le2 vs2 ->
  thread_summary le (c :: cs) e le2 (vs1 ++ vs2).
Proof.
  intros (T1 & V1 & W1 & E1 & O1 & (rest1 & F1 & R1) & B1 & L1)
         (T2 & W2 & O2 & (rest2 & F2) & B2 & X).
  apply ends_open in E1 as [N1 H1].
  rewrite (R1 eq_refl), app_nil_r in F1. rewrite T1, V1 in *.
  unfold thread_summary. repeat apply conj.
  - congruence.
  - assumption.
  - apply Forall_app; split; [assumption|].
    eapply Forall_impl; [|exact O2]. unfold on_test. intros v.
    now rewrite T1.
  - exists rest2. unfold records_of_calls. cbn [map List.concat].
    rewrite filter_app, F1. fold (records_of_calls cs).
    rewrite F2, map_app, app_assoc. reflexivity.
  - apply backref_ok_app. rewrite L1. cbn [fst snd]. auto.
  - destruct e.
    + destruct X as [X1 [[X2 _]|X2]]; [contradiction|].
      split; [assumption|]. right. now apply ends_app.
    + destruct X as [X|X]; [left|right]; now apply ends_app.
    + now apply ends_app.
    + assumption.
    + now apply ends_app.
Qed.

Lemma thread_summary_last le c cs code le1 vs1 e :
  code <> 0 ->
  run_summary (vsl le) le (records_of (deliveries c)) code le1 vs1 ->
  (code = 1 -> e = T_null) -> (code = 2 -> exists m, e = T_fatal m) ->
  forall le2, tests le2 = tests le1 -> test le2 = test le1 ->
  thread_summary le (c :: cs) e le2 vs1.
Proof.
  intros C (T1 & V1 & W1 & E1 & O1 & (rest1 & F1 & R1) & B1 & L1) H1 H2
    le2 T2 X2.
  assert (W2 : wf le2) by (unfold wf in *; now rewrite T2, X2).
  assert (E2 : ends (List.length (tests le)) code le2 vs1).
  { unfold ends in *. now rewrite X2. }
  unfold thread_summary. repeat apply conj; auto.
  - congruence.
  - exists (rest1 ++ filter (classified (vsl le)) (records_of_calls cs)).
    unfold records_of_calls. cbn [map List.concat].
    rewrite filter_app, F1, app_assoc. reflexivity.
  - destruct (ends_codes _ _ _ _ E2) as [-> | [-> | ->]]; [contradiction| |].
    + rewrite (H1 eq_refl). split; [|auto].
      destruct E2 as [(D & _)|[(_ & N & _)|(D & _)]];
        [discriminate|assumption|discriminate].
    + destruct (H2 eq_refl) as [m ->]. auto.
Qed.

Lemma thread_summary_null le calls : wf le -> test le = None ->
  thread_summary le calls T_null (vtc_log le L_end) [].
Proof.
  intros W N. unfold thread_summary.
  split; [reflexivity|]. split; [exact W|]. split; [constructor|].
  split; [eexists; reflexivity|]. split; [exact I|]. auto.
Qed.

Lemma thread_summary_running le calls : wf le -> test le <> None ->
  thread_summary le calls T_running le [].
Proof.
  intros W N. unfold thread_summary.
  split; [reflexivity|]. split; [exact W|]. split; [constructor|].
  split; [eexists; reflexivity|]. split; [exact I|]. left. auto.
Qed.

Lemma thread_summary_undefined le calls le' vs :
  thread_summary le calls T_running le' vs ->
  thread_summary le calls T_undefined le' vs.
Proof. intros H. exact H. Qed.

Lemma thread_summary_fatal le calls m le' vs :
  thread_summary le calls T_running le' vs ->
  thread_summary le calls (T_fatal m) le' vs.
Proof.
  intros (Y1 & Y2 & Y3 & Y4 & Y5 & Y6). unfold thread_summary. auto 8.
Qed.

Lemma thread_loop_summary calls : forall le,
  wf le ->
  exists e le' vs,
    thread_loop le calls = (e, le', vs) /\ thread_summary le calls e le' vs.
Proof.
  induction calls as [|c cs IH]; intros le W.
  - destruct (test le) as [i|] eqn:Ht.
    + cbn [thread_loop]. rewrite Ht. eexists _, _, _.
      split; [reflexivity|]. apply thread_summary_running; congruence.
    + rewrite thread_loop_none by assumption.
      eexists _, _, _. split; [reflexivity|].
      now apply thread_summary_null.
  - destruct (test le) as [i|] eqn:Ht.
    + assert (N : test le <> None) by congruence.
      cbn [thread_loop]. rewrite Ht.
      pose proof (VSLQ_Dispatch_summary (deliveries c) (rc c) le W N) as S.
      destruct (VSLQ_Dispatch le (deliveries c) (rc c))
        as [[[code le1] vs1]| |]; [|contradiction|].
      2:{ eexists _, _, _. split; [reflexivity|].
          apply thread_summary_undefined.
          apply thread_summary_running; congruence. }
      assert (Hopen : run_summary (vsl le) le (records_of (deliveries c))
                        0 le1 vs1 ->
                      thread_summary le (c :: cs) T_running le1 vs1).
      { intros S0.
        assert (X : thread_summary le1 cs T_running le1 []).
        { destruct S0 as (_ & _ & W1 & E1 & _).
          apply ends_open in E1 as [N1 _].
          now apply thread_summary_running. }
        pose proof (thread_summary_step le c cs le1 vs1 _ _ _ S0 X) as Y.
        now rewrite app_nil_r in Y. }
      destruct (Z.eqb_spec code 2) as [->|C2].
      { eexists _, _, _. split; [reflexivity|].
        destruct S as [[_ S]|[_ S]].
        - apply thread_summary_fatal. auto.
        - apply (thread_summary_last le c cs 2 le1 vs1); auto;
            [discriminate | discriminate | eauto]. }
      destruct (Z.ltb_spec code 0) as [Cneg|Cpos].
      { eexists _, _, _. split; [reflexivity|].
        destruct S as [[_ S]|[C0 S]].
        - apply thread_summary_fatal. auto.
        - destruct S as (_ & _ & _ & E & _).
          apply ends_codes in E. lia. }
      destruct S as [[_ S]|[C0 S]].
      * destruct (IH le1) as (e & le2 & vs2 & -> & X); [apply S|].
        eexists _, _, _. split; [reflexivity|].
        exact (thread_summary_step le c cs le1 vs1 _ _ _ S X).
      * assert (code = 1).
        { destruct S as (_ & _ & _ & E & _).
          apply ends_codes in E. lia. }
        subst code.
        assert (N1 : test le1 = None).
        { destruct S as (_ & _ & _ & [(D & _)|[(_ & N1 & _)|(D & _)]] & _);
            [discriminate|assumption|discriminate]. }
        rewrite (thread_loop_none le1 cs N1), app_nil_r.
        eexists _, _, _. split; [reflexivity|].
        apply (thread_summary_last le c cs 1 le1 vs1); auto; discriminate.
    + rewrite thread_loop_none by assumption.
      eexists _, _, _. split; [reflexivity|].
      now apply thread_summary_null.
Qed.

Lemma room_VSLQ ds own rs' : forall le,
  room le (records_of ds ++ rs') ->
  VSLQ_Dispatch le ds own <> Undefined /\
  forall code le' vs, VSLQ_Dispatch le ds own = Done (code, le', vs) ->
                      room le' rs'.
Proof.
  induction ds as [|pt ds IH]; intros le R.
  - cbn. split; [discriminate|]. intros c le' vs E.
    injection E as <- <- <-. exact R.
  - cbn [VSLQ_Dispatch]. unfold records_of in R. cbn [List.concat] in R.
    rewrite concat_app, <- app_assoc in R.
    destruct (room_dispatch (vsl le) pt _ le R) as [U1 R1].
    destruct (logexp_dispatch (vsl le) le pt) as [[[c1 le1] vs1]| |];
      [|split; [discriminate|intros; discriminate]|contradiction].
    specialize (R1 c1 le1 vs1 eq_refl).
    destruct (c1 =? 0).
    + destruct (IH le1 R1) as [U2 R2].
      destruct (VSLQ_Dispatch le1 ds own) as [[[c2 le2] vs2]| |];
        [|split; [discriminate|intros; discriminate]|contradiction].
      split; [discriminate|]. intros c' le' vs' E. inversion E; subst.
      now apply (R2 c' le' vs2).
    + split; [discriminate|]. intros c' le' vs' E. inversion E; subst.
      destruct R1 as [A B]. unfold room.
      rewrite length_app in B. lia.
Qed.

(** With room for every record of the log, the thread stays defined. *)
Lemma room_thread calls : forall le,
  room le (records_of_calls calls) ->
  fst (fst (thread_loop le calls)) <> T_undefined.
Proof.
  induction calls as [|c cs IH]; intros le R; cbn [thread_loop];
    destruct (test le); try discriminate.
  unfold records_of_calls in R. cbn [map List.concat] in R.
  destruct (room_VSLQ (deliveries c) (rc c) _ le R) as [U1 R1].
  destruct (VSLQ_Dispatch le (deliveries c) (rc c)) as [[[i le1] vs1]| |];
    [|discriminate|contradiction].
  specialize (R1 i le1 vs1 eq_refl).
  destruct (i =? 2); [discriminate|].
  destruct (i <? 0); [discriminate|].
  specialize (IH le1 R1).
  destruct (thread_loop le1 cs) as [[e le2] vs2]. exact IH.
Qed.

Lemma logexp_thread_entry le calls :
  run le = true -> vslq le = true -> test le = None ->
  logexp_thread le calls = thread_loop (thread_entry le) calls.
Proof.
  unfold logexp_thread, thread_entry. intros -> -> ->. cbn.
  destruct (query le); reflexivity.
Qed.

Lemma thread_entry_frame le : test le = None ->
  tests (thread_entry le) = tests le /\
  vsl (thread_entry le) = vsl le /\
  vxid_last (thread_entry le) = vxid_last le /\
  tag_last (thread_entry le) = tag_last le /\
  test (thread_entry le) = VTAILQ_FIRST (tests le) /\
  wf (thread_entry le).
Proof.
  intros Ht. unfold thread_entry.
  match goal with |- context [logexp_next ?x] =>
    destruct (logexp_next_frame x) as (-> & _ & -> & -> & ->);
    rewrite (test_logexp_next x); pose proof (wf_logexp_next x) end.
  destruct (query le); cbn; rewrite Ht; auto 6.
Qed.

Lemma skip_cnt_thread_entry le :
  skip_cnt (thread_entry le) = skip_cnt le.
Proof.
  unfold thread_entry.
  match goal with |- context [logexp_next ?x] =>
    destruct (logexp_next_frame x) as (_ & -> & _) end.
  destruct (query le); reflexivity.
Qed.

(** What [logexp_start] leaves when it gets as far as the thread. *)
Lemma logexp_start_ok w w' evs :
  logexp_start w = (Ok tt, w', evs) ->
  run (w_le w') = true /\ vslq (w_le w') = true /\
  test (w_le w') = None /\ skip_cnt (w_le w') = 0 /\
  vxid_last (w_le w') = -1 /\ tag_last (w_le w') = -1 /\
  tests (w_le w') = tests (w_le w) /\ vsl (w_le w') = vsl (w_le w) /\
  query (w_le w') = query (w_le w) /\ vl (w_le w') = vl (w_le w) /\
  tp (w_le w') = Some (match w_src w with [] => [] | c :: _ => c end).
Proof.
  unfold logexp_start, bind, get, assert_that, write, pthread_create,
    vtc_fatal. cbn.
  destruct (vslq (w_le w)); cbn; [discriminate|].
  destruct (n_arg (w_le w)) as [n|]; cbn; [|discriminate].
  destruct (VSM_n_Arg n <=? 0); [discriminate|].
  destruct (VSM_Open n =? 0); cbn; [|discriminate].
  destruct (VSL_CursorVSM _ _ _); cbn; [|discriminate].
  destruct (VSLQ_New _ _ _); cbn; [|discriminate].
  intros H. inversion H; subst. cbn. auto 12.
Qed.

Lemma logexp_thread_summary w w' evs calls :
  logexp_start w = (Ok tt, w', evs) ->
  exists e le' vs,
    logexp_thread (w_le w') calls = (e, le', vs) /\
    thread_summary (thread_entry (w_le w')) calls e le' vs.
Proof.
  intros H. apply logexp_start_ok in H
    as (R & Q & T & _).
  rewrite (logexp_thread_entry _ calls R Q T).
  apply thread_loop_summary. now apply thread_entry_frame.
Qed.

(** *** Success of the run (C1, C9) *)

(** C1: a thread started by [logexp_start], on a log of no more records
    than an [int] counts, trips no assertion and stays defined; it returns
    [NULL] exactly when it leaves [test] as [NULL]; and exactly when either
    there is no test at all and no verdict, or every verdict it gave is
    MATCH or SKIP and its last one is a MATCH on the last test of the
    list. *)
Theorem C1_run_succeeds_iff w w' evs calls :
  logexp_start w = (Ok tt, w', evs) ->
  Z.of_nat (List.length (records_of_calls calls)) <= INT_MAX ->
  exists e le' vs,
    logexp_thread (w_le w') calls = (e, le', vs) /\
    e <> T_assert /\ e <> T_undefined /\
    (e = T_null <-> test le' = None) /\
    (e = T_null <->
     (tests (w_le w) = [] /\ vs = []) \/
     (Forall (fun u => v_class u = MATCH \/ v_class u = SKIP) vs /\
      exists vs0 v,
        vs = vs0 ++ [v] /\ v_class v = MATCH /\
        S (v_index v) = List.length (tests (w_le w)))).
Proof.
  intros H Hlen.
  destruct (logexp_thread_summary w w' evs calls H)
    as (e & le' & vs & Hrun & S).
  apply logexp_start_ok in H as (R & Q & T & K & _ & _ & Ts & _).
  assert (Hdef : e <> T_undefined).
  { rewrite (logexp_thread_entry _ calls R Q T) in Hrun.
    pose proof (room_thread calls (thread_entry (w_le w'))) as U.
    rewrite Hrun in U. apply U. unfold room.
    rewrite skip_cnt_thread_entry, K. lia. }
  rewrite Hrun. clear Hrun R Q K.
  destruct (thread_entry_frame _ T) as (Te & _ & _ & _ & Tf & _).
  exists e, le', vs. split; [reflexivity|].
  assert (Hass : e <> T_assert).
  { intros ->. destruct S as (_ & _ & _ & _ & _ & X). exact X. }
  split; [exact Hass|]. split; [exact Hdef|].
  destruct S as (T' & W' & _ & _ & _ & X). rewrite Te, Ts in *.
  assert (Hopen : forall n us, Forall (open_verdict n) us ->
            Forall (fun u => v_class u = MATCH \/ v_class u = SKIP) us).
  { intros n us. apply Forall_impl. intros u [K|[K _]]; auto. }
  assert (Hlast : forall us (v : verdict),
            Forall (open_verdict (List.length (tests (w_le w)))) us ->
            v_class v = MATCH ->
            S (v_index v) = List.length (tests (w_le w)) ->
            ~ In v us).
  { intros us v F K1 K2 Hin. rewrite Forall_forall in F.
    destruct (F v Hin) as [K|[_ K]]; [congruence|lia]. }
  assert (Hnonempty : tests (w_le w) = [] -> test le' = None).
  { intros E. unfold wf in W'. rewrite T', E in W'.
    destruct (test le'); [cbn in W'; lia|reflexivity]. }
  destruct e.
  - destruct X as [N X]. split; [tauto|]. split; [intros _|reflexivity].
    destruct X as [[X1 ->]|X].
    + left. split; [|reflexivity]. rewrite Tf in X1.
      destruct (tests (w_le w)); [reflexivity|discriminate].
    + right.
      destruct X as [(D & _)|[(_ & _ & vs0 & v & -> & F & K1 & K2)
                             |(D & _)]]; try discriminate.
      split; [|eauto].
      apply Forall_app. split; [eauto|]. constructor; auto.
  - assert (N : test le' <> None).
    { destruct X as [X|X]; [now apply ends_open in X|].
      destruct X as [(D & _)|[(D & _)|(_ & N & _)]];
        [discriminate|discriminate|assumption]. }
    split; [split; [discriminate|contradiction]|].
    split; [discriminate|]. intros [[E _]|(F & vs0 & v & -> & K1 & K2)].
    + now apply Hnonempty in E.
    + exfalso. destruct X as [X|X].
      * apply ends_open in X as [_ X].
        apply (Hlast _ v X K1 K2). apply in_or_app. right. now left.
      * destruct X as [(D & _)|[(D & _)|(_ & _ & us & u & E & _ & K)]];
          try discriminate.
        apply app_inj_tail in E as [_ <-]. congruence.
  - apply ends_open in X as [N X].
    split; [split; [discriminate|contradiction]|].
    split; [discriminate|]. intros [[E _]|(F & vs0 & v & -> & K1 & K2)].
    + now apply Hnonempty in E.
    + exfalso. apply (Hlast _ v X K1 K2). apply in_or_app. right. now left.
  - contradiction.
  - now contradiction Hdef.
Qed.

(** C9: with an empty list of tests, a thread started by [logexp_start]
    returns [NULL] whatever the log serves: the first [logexp_next] leaves
    [test] as [NULL], the loop is not entered (the result is the one for no
    call at all), no record gets a verdict, and the log has just the lines
    of the beginning and the end. *)
Theorem C9_empty_list_succeeds w w' evs calls :
  logexp_start w = (Ok tt, w', evs) ->
  tests (w_le w) = [] ->
  exists le',
    logexp_thread (w_le w') calls = (T_null, le', []) /\
    logexp_thread (w_le w') [] = (T_null, le', []) /\
    test le' = None /\
    vl le' = vl (w_le w) ++ L_begin ::
             match query (w_le w) with
             | Some q => [L_qry q; L_end]
             | None => [L_end]
             end.
Proof.
  intros H E.
  apply logexp_start_ok in H as (R & Q & T & _ & _ & _ & Ts & _ & Hq & Hl & _).
  rewrite <- Ts in E. clear Ts.
  rewrite <- Hq, <- Hl.
  rewrite !(logexp_thread_entry _ _ R Q T).
  destruct (thread_entry_frame _ T) as (_ & _ & _ & _ & Tf & _).
  rewrite E in Tf. cbn in Tf.
  rewrite !(thread_loop_none _ _ Tf).
  eexists. split; [reflexivity|]. split; [reflexivity|].
  split; [exact Tf|].
  unfold thread_entry, logexp_next, deref_test.
  destruct (query (w_le w')); cbn; rewrite T; cbn; rewrite E; cbn;
    rewrite <- ?app_assoc; reflexivity.
Qed.

(** *** Back-references (C3) *)

(** Either no verdict of [pre] is a MATCH and the last fields are the ones
    before, or they are those of the record of its last MATCH. *)
Lemma last_fields_split pre : forall lv lt,
  (Forall (fun w => v_class w <> MATCH) pre /\
   last_fields lv lt pre = (lv, lt)) \/
  (exists pre1 u pre2,
     pre = pre1 ++ u :: pre2 /\ v_class u = MATCH /\
     Forall (fun w => v_class w <> MATCH) pre2 /\
     last_fields lv lt pre = (VSL_ID (v_rec u), VSL_TAG (v_rec u))).
Proof.
  induction pre as [|v pre IH]; intros lv lt.
  - left. split; [constructor|reflexivity].
  - cbn [last_fields]. destruct (v_class v) eqn:K.
    + right.
      destruct (IH (VSL_ID (v_rec v)) (VSL_TAG (v_rec v)))
        as [[F L]|(pre1 & u & pre2 & -> & Ku & F & L)].
      * exists [], v, pre. auto.
      * exists (v :: pre1), u, pre2. auto.
    + destruct (IH lv lt) as [[F L]|(pre1 & u & pre2 & -> & Ku & F & L)].
      * left. split; [|assumption]. constructor; [congruence|assumption].
      * right. exists (v :: pre1), u, pre2. auto.
    + destruct (IH lv lt) as [[F L]|(pre1 & u & pre2 & -> & Ku & F & L)].
      * left. split; [|assumption]. constructor; [congruence|assumption].
      * right. exists (v :: pre1), u, pre2. auto.
Qed.

(** C3: the engine starts with [vxid_last] and [tag_last] at -1 (by
    [logexp_start]); with no negative vxid or tag in the records of the
    log, whenever a test with LAST for its vxid or its tag gives a MATCH,
    an earlier verdict of the run was a MATCH, and the field of the record
    equals the one of the record of the latest such MATCH. *)
Theorem C3_backref_needs_prior_match w w' evs calls :
  logexp_start w = (Ok tt, w', evs) ->
  Forall (fun r => 0 <= VSL_ID r /\ 0 <= VSL_TAG r)
    (records_of_calls calls) ->
  exists e le' vs,
    logexp_thread (w_le w') calls = (e, le', vs) /\
    forall pre v post,
      vs = pre ++ v :: post -> v_class v = MATCH ->
      vxid (v_test v) = LE_LAST \/ tag (v_test v) = LE_LAST ->
      exists pre1 u pre2,
        pre = pre1 ++ u :: pre2 /\ v_class u = MATCH /\
        Forall (fun x => v_class x <> MATCH) pre2 /\
        (vxid (v_test v) = LE_LAST -> VSL_ID (v_rec v) = VSL_ID (v_rec u)) /\
        (tag (v_test v) = LE_LAST -> VSL_TAG (v_rec v) = VSL_TAG (v_rec u)).
Proof.
  intros H Hpos.
  destruct (logexp_thread_summary w w' evs calls H)
    as (e & le' & vs & -> & S).
  apply logexp_start_ok in H as (_ & _ & T & _ & Lv & Lt & _).
  destruct (thread_entry_frame _ T) as (_ & _ & Ev & Et & _).
  exists e, le', vs. split; [reflexivity|].
  destruct S as (_ & _ & _ & (rest & F) & B & _).
  rewrite Ev, Et, Lv, Lt in B.
  intros pre v post -> K Hlast.
  assert (Hv : 0 <= VSL_ID (v_rec v) /\ 0 <= VSL_TAG (v_rec v)).
  { rewrite Forall_forall in Hpos. apply Hpos.
    assert (Hin : In (v_rec v)
              (filter (classified (vsl (thread_entry (w_le w'))))
                 (records_of_calls calls))).
    { rewrite F, map_app. cbn [map].
      apply in_or_app. left. apply in_or_app. right. now left. }
    apply filter_In in Hin. tauto. }
  apply backref_ok_app in B as [_ B]. cbn [backref_ok] in B.
  destruct B as [B _]. specialize (B K).
  destruct (last_fields_split pre (-1) (-1))
    as [[_ L]|(pre1 & u & pre2 & -> & Ku & Fu & L)].
  - rewrite L in B. cbn [fst snd] in B. destruct B as [B1 B2].
    destruct Hlast as [E|E]; [specialize (B1 E)|specialize (B2 E)]; lia.
  - rewrite L in B. cbn [fst snd] in B. exists pre1, u, pre2. tauto.
Qed.

(** *** The implicit wait (C8) *)

Lemma race_free_app evs1 : forall f evs2,
  race_free f (evs1 ++ evs2) =
  race_free f evs1 && race_free (flying_after f evs1) evs2.
Proof.
  induction evs1 as [|e evs1 IH]; intros; cbn; [reflexivity|].
  destruct e; rewrite IH; cbn; try reflexivity;
    now rewrite andb_assoc.
Qed.

Lemma flying_after_app evs1 : forall f evs2,
  flying_after f (evs1 ++ evs2) = flying_after (flying_after f evs1) evs2.
Proof.
  induction evs1 as [|e evs1 IH]; intros; cbn; [reflexivity|].
  destruct e; apply IH.
Qed.

Lemma safe_bind {A B} (m : M A) (f : A -> M B) w Q R :
  safe_at m w Q ->
  (forall a w', Q a w' -> safe_at (f a) w' R) ->
  safe_at (bind m f) w R.
Proof.
  unfold safe_at, bind. intros (H1 & H2 & H3 & H4) Hf.
  destruct (m w) as [[o w1] e1]. cbn [fst snd] in *.
  destruct o as [a| | | |]; cbn [fst snd];
    try (repeat split; auto; intros; discriminate).
  specialize (Hf a w1 (H4 a eq_refl)).
  destruct (f a w1) as [[o2 w2] e2]. cbn [fst snd] in *.
  destruct Hf as (G1 & G2 & G3 & G4).
  rewrite race_free_app, flying_after_app, H1, <- H2. auto.
Qed.

Lemma safe_weaken {A} (m : M A) w (Q Q' : A -> world -> Prop) :
  safe_at m w Q -> (forall a w', Q a w' -> Q' a w') -> safe_at m w Q'.
Proof.
  unfold safe_at. intros (H1 & H2 & H3 & H4) H. repeat split; auto.
Qed.

Lemma safe_ret {A} (a : A) w (Q : A -> world -> Prop) :
  run_covers w -> Q a w -> safe_at (ret a) w Q.
Proof.
  unfold safe_at, ret. cbn. intros H1 H2. repeat split; auto.
  intros a' E. inversion E; subst. assumption.
Qed.

Lemma safe_fatal {A} m w (Q : A -> world -> Prop) :
  run_covers w -> safe_at (vtc_fatal m) w Q.
Proof.
  unfold safe_at, vtc_fatal. cbn. intros H1. repeat split; auto.
  intros a' E. discriminate.
Qed.

Lemma safe_assert b w (Q : unit -> world -> Prop) :
  run_covers w -> (b = true -> Q tt w) -> safe_at (assert_that b) w Q.
Proof.
  unfold safe_at, assert_that. intros H1 H2.
  destruct b; cbn; repeat split; auto; intros a E; [|discriminate].
  destruct a. auto.
Qed.

Lemma bind_get {A} (f : logexp -> M A) w :
  bind get f w = f (w_le w) w.
Proof.
  unfold bind, get. destruct (f (w_le w) w) as [[o w'] e]. reflexivity.
Qed.

Lemma safe_get {A} (f : logexp -> M A) w Q :
  safe_at (f (w_le w)) w Q -> safe_at (bind get f) w Q.
Proof. unfold safe_at. now rewrite bind_get. Qed.

(** A write is safe when no thread is in flight. *)
Lemma safe_write f g w (Q : unit -> world -> Prop) :
  (forall le, tp (g le) = tp le) ->
  fly w = false ->
  Q tt {| w_le := g (w_le w); w_src := w_src w |} ->
  safe_at (write f g) w Q.
Proof.
  unfold safe_at, write, run_covers, fly. cbn. intros Hg Hf HQ.
  rewrite Hg. unfold fly in Hf. rewrite Hf. cbn.
  destruct (tp (w_le w)); [discriminate|].
  repeat split; auto; try discriminate.
  intros [] _. assumption.
Qed.

Lemma safe_log l w (Q : unit -> world -> Prop) :
  run_covers w ->
  Q tt {| w_le := vtc_log (w_le w) l; w_src := w_src w |} ->
  safe_at (log l) w Q.
Proof.
  unfold safe_at, log, run_covers, fly. cbn. intros H HQ.
  repeat split; auto. intros [] _. assumption.
Qed.

Lemma landed_covers w : landed w -> run_covers w.
Proof. unfold landed, run_covers. congruence. Qed.

Lemma idle_covers w : idle w -> run_covers w.
Proof. intros [H _]. now apply landed_covers. Qed.

#[local] Hint Resolve landed_covers idle_covers : core.

Lemma safe_join w :
  run_covers w -> safe_at pthread_join w (fun _ w' => landed w').
Proof.
  unfold safe_at, pthread_join, run_covers, landed, fly. intros H.
  destruct (tp (w_le w)) as [calls|] eqn:E; cbn.
  - destruct (logexp_thread (w_le w) calls) as [[e le'] vs].
    destruct e; cbn; rewrite ?E; cbn; repeat split; auto;
      try discriminate; intros a Ha; discriminate.
  - rewrite E. repeat split; auto; intros a Ha; discriminate.
Qed.

Lemma safe_close w :
  landed w -> safe_at logexp_close w (fun _ w' => landed w').
Proof.
  intros H. unfold logexp_close. apply safe_get.
  destruct (vslq (w_le w)).
  - apply safe_write; auto.
  - apply safe_ret; auto.
Qed.

Lemma safe_wait w :
  run_covers w -> safe_at logexp_wait w (fun _ w' => idle w').
Proof.
  intros H. unfold logexp_wait.
  eapply safe_bind; [apply safe_log with (Q := fun _ w' => run_covers w');
                     [assumption|exact H]|].
  cbn beta. intros _ w1 H1.
  eapply safe_bind; [apply safe_join; assumption|].
  cbn beta. intros res w2 H2.
  eapply safe_bind; [apply safe_close; assumption|].
  cbn beta. intros _ w3 H3.
  eapply safe_bind with (Q := fun _ w' => landed w').
  - destruct (res && negb vtc_stop).
    + apply safe_fatal; auto.
    + apply safe_ret; auto.
  - cbn beta. intros _ w4 H4. apply safe_write; auto.
    split; [exact H4|reflexivity].
Qed.

Lemma safe_create w :
  landed w -> run (w_le w) = true ->
  safe_at pthread_create w (fun _ w' => run_covers w').
Proof.
  unfold safe_at, pthread_create, landed, run_covers, fly. intros H R.
  cbn. destruct (tp (w_le w)); [discriminate|]. cbn.
  repeat split; auto.
Qed.

Lemma safe_start w :
  idle w -> safe_at logexp_start w (fun _ w' => run_covers w').
Proof.
  intros [H R]. unfold logexp_start. apply safe_get.
  eapply safe_bind with (Q := fun _ w' => w' = w).
  { apply safe_assert; auto. }
  intros _ w' ->.
  destruct (n_arg (w_le w)) as [n|]; [|apply safe_fatal; auto].
  destruct (VSM_n_Arg n <=? 0); [apply safe_fatal; auto|].
  destruct (negb (VSM_Open n =? 0)); [apply safe_fatal; auto|].
  destruct (negb (VSL_CursorVSM _ _ _)); [apply safe_fatal; auto|].
  destruct (negb (VSLQ_New _ _ _)); [apply safe_fatal; auto|].
  do 5 (eapply safe_bind with (Q := fun _ w' => landed w');
        [apply safe_write; auto|cbn beta; intros _ ? ?]).
  eapply safe_bind with (Q := fun _ w' => landed w' /\ run (w_le w') = true).
  { apply safe_write; auto. }
  cbn beta. intros _ w7 [H7 R7]. now apply safe_create.
Qed.

Lemma idle_write f g w :
  (forall le, tp (g le) = tp le) -> (forall le, run (g le) = run le) ->
  idle w -> safe_at (write f g) w (fun _ w' => idle w').
Proof.
  intros Hg Hr [H R]. apply safe_write; auto.
  unfold idle, fly in *. cbn. now rewrite Hg, Hr.
Qed.

Lemma safe_expect av w :
  idle w -> safe_at (cmd_logexp_expect av) w (fun _ w' => idle w').
Proof.
  intros H. unfold cmd_logexp_expect. destruct (compile av).
  - apply safe_fatal; auto.
  - apply idle_write; auto.
Qed.

Lemma safe_parse_string lines : forall w,
  idle w -> safe_at (parse_string lines) w (fun _ w' => idle w').
Proof.
  induction lines as [|av lines IH]; intros w H; cbn [parse_string].
  - apply safe_ret; auto.
  - destruct av as [|c av']; [auto|].
    destruct (String.eqb c "expect").
    + eapply safe_bind; [apply safe_expect; assumption|].
      cbn beta. intros _ w' H'. auto.
    + apply safe_fatal; auto.
Qed.

Lemma safe_spec spec w :
  idle w -> safe_at (logexp_spec spec) w (fun _ w' => idle w').
Proof.
  intros H. unfold logexp_spec, logexp_delete_tests.
  eapply safe_bind; [apply idle_write; auto|].
  cbn beta. intros _ w' H'. now apply safe_parse_string.
Qed.

(** Done with an argument: the loop goes on, by induction. *)
Ltac go_on IH :=
  cbn beta; intros;
  match goal with
  | |- safe_at (logexpect_args _) _ _ => apply IH; [cbn in *; lia|auto]
  end.

Lemma safe_args n : forall av, (List.length av <= n)%nat -> forall w,
  run_covers w -> safe_at (logexpect_args av) w (fun _ _ => True).
Proof.
  induction n as [|n IH]; intros av Hn w H.
  { destruct av; [|cbn in Hn; lia]. apply safe_ret; auto. }
  destruct av as [|a rest]; [apply safe_ret; auto|].
  cbn [logexpect_args].
  destruct vtc_error; [apply safe_ret; auto|].
  destruct (String.eqb a "-wait").
  { apply safe_get.
    eapply safe_bind with (Q := fun _ w' => run_covers w').
    { destruct (negb (run (w_le w))); [apply safe_fatal|apply safe_ret];
        auto. }
    cbn beta. intros _ w1 H1.
    eapply safe_bind; [apply safe_wait; assumption|]. go_on IH. }
  apply safe_get.
  eapply safe_bind with (Q := fun _ w' => idle w').
  { destruct (run (w_le w)) eqn:R; [now apply safe_wait|].
    assert (idle w).
    { split; [|assumption]. unfold run_covers in H.
      destruct (fly w); [|reflexivity]. specialize (H eq_refl). congruence. }
    apply safe_ret; auto. }
  cbn beta. intros _ w1 H1. apply safe_get.
  eapply safe_bind with (Q := fun _ w' => idle w').
  { apply safe_assert; auto. }
  cbn beta. clear w H H1 w1. intros _ w H.
  destruct (String.eqb a "-v").
  { destruct rest as [|a1 rest']; [apply safe_fatal; auto|].
    eapply safe_bind; [apply idle_write; auto|].
    cbn beta. intros _ w' H'.
    destruct (macro_expand _); [go_on IH|apply safe_ret; auto]. }
  destruct (String.eqb a "-d").
  { destruct rest as [|a1 rest']; [apply safe_fatal; auto|].
    eapply safe_bind; [apply idle_write; auto|]. go_on IH. }
  destruct (String.eqb a "-g").
  { destruct rest as [|a1 rest']; [apply safe_fatal; auto|].
    eapply safe_bind; [apply idle_write; auto|].
    cbn beta. intros _ w' H'.
    destruct (VSLQ_Name2Grouping a1 <? 0); [apply safe_fatal; auto|go_on IH]. }
  destruct (String.eqb a "-q").
  { destruct rest as [|a1 rest']; [apply safe_fatal; auto|].
    eapply safe_bind; [apply idle_write; auto|]. go_on IH. }
  destruct (String.eqb a "-start").
  { eapply safe_bind; [apply safe_start; assumption|]. go_on IH. }
  destruct (String.eqb a "-run").
  { eapply safe_bind; [apply safe_start; assumption|].
    cbn beta. intros _ w1 H1.
    eapply safe_bind; [apply safe_wait; assumption|]. go_on IH. }
  match goal with |- context [if ?b then _ else _] => destruct b end.
  - destruct rest as [|a1 rest']; [apply safe_fatal; auto|].
    apply safe_get. destruct (VSL_Arg _ _ a1) as [r v].
    eapply safe_bind; [apply idle_write; auto|].
    cbn beta. intros _ w' H'.
    destruct (negb (r =? 0)); [go_on IH|apply safe_fatal; auto].
  - eapply safe_bind; [apply safe_spec; assumption|]. go_on IH.
Qed.





(** The whole command is free of races on the engine it names, when that
    engine has [run] set whenever its thread is in flight. *)
Lemma cmd_logexpect_race_free logexps src nm av :
  (forall le, find_logexp nm logexps = Some le ->
              tp le <> None -> run le = true) ->
  race_free
    (match find_logexp nm logexps with
     | Some le => fly {| w_le := le; w_src := src |}
     | None => false
     end)
    (snd (cmd_logexpect logexps src ("logexpect"%string :: nm :: av)))
  = true.
Proof.
  intros H. unfold cmd_logexpect.
  destruct (negb (VTC_CHECK_NAME nm)).
  - cbn. now destruct (find_logexp nm logexps).
  - destruct (find_logexp nm logexps) as [le|] eqn:E.
    + assert (C : run_covers {| w_le := le; w_src := src |}).
      { unfold run_covers, fly. cbn. intros K. apply H; auto.
        destruct (tp le); congruence. }
      destruct (safe_args (List.length av) av (le_n _) _ C) as (S1 & _).
      destruct (logexpect_args av _) as [[o w] evs]. exact S1.
    + assert (C : run_covers {| w_le := logexp_new nm; w_src := src |}).
      { unfold run_covers, fly. cbn. discriminate. }
      destruct (safe_args (List.length av) av (le_n _) _ C) as (S1 & _).
      destruct (logexpect_args av _) as [[o w] evs]. exact S1.
Qed.


End Properties.

(** ** Further properties *)

(** *** Invariants of a run, verdict by verdict *)

Section Trace.
Context {re : VRE} {vsl_api : VSL}.

(** A relation between the engine before, the verdicts given and the
    engine after, that holds of nothing done, of one record, of the last
    line of the log, and of one run after another. *)
Variable P : logexp -> list verdict -> logexp -> Prop.
Hypothesis P_nil : forall le, P le [] le.
Hypothesis P_app : forall le vs1 le1 vs2 le2,
  P le vs1 le1 -> P le1 vs2 le2 -> P le (vs1 ++ vs2) le2.
Hypothesis P_record : forall vsl0 le r f vs,
  logexp_record vsl0 le r = Done (f, vs) -> P le vs (flow_le f).
Hypothesis P_end : forall le, P le [] (vtc_log le L_end).

Lemma trace_records vsl0 rs : forall le f vs,
  logexp_records vsl0 le rs = Done (f, vs) -> P le vs (flow_le f).
Proof.
  induction rs as [|r rs IH]; intros le f vs E; cbn [logexp_records] in E.
  - injection E as <- <-. apply P_nil.
  - destruct (logexp_record vsl0 le r) as [[f1 vs1]| |] eqn:E1;
      try discriminate.
    apply P_record in E1. destruct f1 as [le1|c le1].
    + destruct (logexp_records vsl0 le1 rs) as [[f2 vs2]| |] eqn:E2;
        try discriminate.
      injection E as <- <-. eapply P_app; [exact E1|]. now apply IH.
    + injection E as <- <-. exact E1.
Qed.

Lemma trace_dispatch vsl0 pt : forall le code le' vs,
  logexp_dispatch vsl0 le pt = Done (code, le', vs) -> P le vs le'.
Proof.
  induction pt as [|t pt IH]; intros le code le' vs E;
    cbn [logexp_dispatch] in E.
  - injection E as _ <- <-. apply P_nil.
  - destruct (logexp_records vsl0 le t) as [[f1 vs1]| |] eqn:E1;
      try discriminate.
    apply trace_records in E1. destruct f1 as [le1|c le1].
    + destruct (logexp_dispatch vsl0 le1 pt) as [[[c2 le2] vs2]| |] eqn:E2;
        try discriminate.
      injection E as _ <- <-. eapply P_app; [exact E1|]. eapply IH; eauto.
    + injection E as _ <- <-. exact E1.
Qed.

Lemma trace_VSLQ ds own : forall le code le' vs,
  VSLQ_Dispatch le ds own = Done (code, le', vs) -> P le vs le'.
Proof.
  induction ds as [|pt ds IH]; intros le code le' vs E;
    cbn [VSLQ_Dispatch] in E.
  - injection E as _ <- <-. apply P_nil.
  - destruct (logexp_dispatch (vsl le) le pt) as [[[c1 le1] vs1]| |] eqn:E1;
      try discriminate.
    apply trace_dispatch in E1. destruct (c1 =? 0).
    + destruct (VSLQ_Dispatch le1 ds own) as [[[c2 le2] vs2]| |] eqn:E2;
        try discriminate.
      injection E as _ <- <-. eapply P_app; [exact E1|]. eapply IH; eauto.
    + injection E as _ <- <-. exact E1.
Qed.

Lemma trace_thread_loop calls : forall le e le' vs,
  thread_loop le calls = (e, le', vs) -> P le vs le'.
Proof.
  induction calls as [|c cs IH]; intros le e le' vs E;
    cbn [thread_loop] in E; destruct (test le).
  - injection E as _ <- <-. apply P_nil.
  - injection E as _ <- <-. apply P_end.
  - destruct (VSLQ_Dispatch le (deliveries c) (rc c))
      as [[[i le1] vs1]| |] eqn:E1.
    + apply trace_VSLQ in E1.
      destruct (i =? 2); [injection E as _ <- <-; exact E1|].
      destruct (i <? 0); [injection E as _ <- <-; exact E1|].
      destruct (thread_loop le1 cs) as [[e2 le2] vs2] eqn:E2.
      injection E as _ <- <-. eapply P_app; [exact E1|]. eapply IH; eauto.
    + injection E as _ <- <-. apply P_nil.
    + injection E as _ <- <-. apply P_nil.
  - injection E as _ <- <-. apply P_end.
Qed.

End Trace.

Section Further_properties.
Context {re : VRE} {vsl_api : VSL} {vtc : VTC} {libc : LIBC}.

(** *** What the thread leaves alone *)

Lemma same_setup_refl le : same_setup le le.
Proof. unfold same_setup. auto 12. Qed.

Lemma same_setup_trans le le1 le2 :
  same_setup le le1 -> same_setup le1 le2 -> same_setup le le2.
Proof.
  unfold same_setup.
  intros (A1 & A2 & A3 & A4 & A5 & A6 & A7 & A8 & A9 & A10)
         (B1 & B2 & B3 & B4 & B5 & B6 & B7 & B8 & B9 & B10).
  repeat split; congruence.
Qed.

Lemma same_setup_next le : same_setup le (logexp_next le).
Proof.
  unfold same_setup, logexp_next.
  destruct (test le); cbn;
    match goal with |- context [deref_test ?x] => destruct (deref_test x) end;
    cbn; auto 12.
Qed.

Lemma same_setup_after le t r : same_setup le (after_record le t r).
Proof.
  destruct (fst (record_ok le t r)) eqn:Hok.
  - rewrite after_record_MATCH by assumption.
    eapply same_setup_trans; [|apply same_setup_next].
    unfold same_setup. cbn. auto 12.
  - destruct (record_skip le t false) eqn:Hs.
    + rewrite after_record_SKIP by assumption. unfold same_setup. cbn.
      auto 12.
    + rewrite after_record_FAIL by assumption. unfold same_setup. cbn.
      auto 12.
Qed.

Lemma same_setup_record vsl0 le r f vs :
  logexp_record vsl0 le r = Done (f, vs) -> same_setup le (flow_le f).
Proof.
  intros E.
  destruct (logexp_record_inv _ _ _ _ _ E)
    as [(-> & _) | (i & t & _ & _ & _ & _ & _ & -> & _)].
  - apply same_setup_refl.
  - apply same_setup_after.
Qed.

Lemma logexp_thread_setup le calls :
  same_setup le (snd (fst (logexp_thread le calls))).
Proof.
  unfold logexp_thread.
  destruct (negb (run le) || negb (vslq le)); [apply same_setup_refl|].
  destruct (test le); [apply same_setup_refl|].
  match goal with |- context [thread_loop ?x calls] => set (le0 := x) end.
  assert (S0 : same_setup le le0).
  { eapply same_setup_trans; [|apply same_setup_next].
    unfold same_setup. cbn.
    destruct (query le) eqn:Q; cbn; rewrite ?Q; auto 12. }
  destruct (thread_loop le0 calls) as [[e le'] vs] eqn:E.
  cbn [fst snd]. eapply same_setup_trans; [exact S0|].
  revert E.
  apply (trace_thread_loop (fun a _ b => same_setup a b)).
  - apply same_setup_refl.
  - intros a vs1 b vs2 c. apply same_setup_trans.
  - intros vsl0 a r f vs0. apply same_setup_record.
  - intros a. unfold same_setup. cbn. auto 12.
Qed.

(** X1: whatever the engine and the log, [logexp_thread] leaves the name,
    the flag [run], the list of tests, the arguments [-d], [-g], [-q] and
    [-v], the VSL arguments, the query context and the thread handle as
    they were: it writes [test], [skip_cnt], [vxid_last], [tag_last] and
    the log, nothing else. *)
Theorem X1_thread_keeps_setup le calls :
  same_setup le (snd (fst (logexp_thread le calls))).
Proof. apply logexp_thread_setup. Qed.

(** *** The cursor only moves forward *)

Lemma matches_app vs1 vs2 :
  matches (vs1 ++ vs2) = (matches vs1 + matches vs2)%nat.
Proof. unfold matches. now rewrite filter_app, length_app. Qed.

Lemma indexed_app vs1 : forall i vs2,
  indexed i (vs1 ++ vs2) <->
  indexed i vs1 /\ indexed (i + matches vs1) vs2.
Proof.
  induction vs1 as [|v vs1 IH]; intros i vs2; cbn [app indexed].
  - unfold matches. cbn. rewrite Nat.add_0_r. tauto.
  - rewrite IH. unfold matches. cbn [filter].
    destruct (is_match v); cbn [List.length];
      rewrite ?Nat.add_succ_r, ?Nat.add_succ_l; tauto.
Qed.

Lemma test_after_record le i t r :
  test le = Some i ->
  test (after_record le t r) =
  if fst (record_ok le t r) then VTAILQ_NEXT (tests le) i else test le.
Proof.
  intros Ht. destruct (fst (record_ok le t r)) eqn:Hok.
  - rewrite after_record_MATCH by assumption.
    rewrite test_logexp_next. cbn. now rewrite Ht.
  - destruct (record_skip le t false) eqn:Hs.
    + now rewrite after_record_SKIP.
    + now rewrite after_record_FAIL.
Qed.

Lemma is_match_verdict_of le i t r :
  is_match (verdict_of le i t r) = fst (record_ok le t r).
Proof.
  unfold is_match. rewrite v_class_verdict_of.
  destruct (fst (record_ok le t r)); [reflexivity|].
  destruct (record_skip le t false); reflexivity.
Qed.

Lemma cursor_moves_record vsl0 le r f vs :
  logexp_record vsl0 le r = Done (f, vs) -> cursor_moves le vs (flow_le f).
Proof.
  intros E W.
  destruct (logexp_record_inv _ _ _ _ _ E)
    as [(-> & -> & _) | (i & t & Ht & Hn & _ & _ & -> & -> & _)].
  - cbn. unfold matches. cbn. rewrite Nat.add_0_r. auto.
  - assert (Hi : (i < List.length (tests le))%nat)
      by (apply nth_error_Some; congruence).
    rewrite after_record_tests.
    unfold cur, wf. rewrite after_record_tests, (test_after_record _ _ _ _ Ht).
    unfold matches. cbn [indexed filter v_index verdict_of].
    rewrite is_match_verdict_of, Ht.
    destruct (fst (record_ok le t r)); cbn [List.length].
    + destruct (VTAILQ_NEXT (tests le) i) as [j|] eqn:Ej.
      * apply VTAILQ_NEXT_wf in Ej as [-> Hj]. repeat split; auto; lia.
      * apply VTAILQ_NEXT_none in Ej; [|assumption].
        repeat split; auto; lia.
    + repeat split; auto; lia.
Qed.

Lemma cursor_moves_thread calls le e le' vs :
  thread_loop le calls = (e, le', vs) -> cursor_moves le vs le'.
Proof.
  apply (trace_thread_loop cursor_moves).
  - intros a W. unfold matches. cbn. rewrite Nat.add_0_r. auto.
  - intros a vs1 b vs2 c H1 H2 W.
    destruct (H1 W) as (W1 & T1 & I1 & C1).
    destruct (H2 W1) as (W2 & T2 & I2 & C2).
    rewrite matches_app. repeat split; auto; try congruence; try lia.
    apply indexed_app. split; [assumption|]. now rewrite <- C1.
  - intros vsl0 a r f vs0. apply cursor_moves_record.
  - intros a W. unfold matches, cur, wf. cbn. rewrite Nat.add_0_r. auto.
Qed.

Lemma indexed_split pre : forall i v post,
  indexed i (pre ++ v :: post) -> v_index v = (i + matches pre)%nat.
Proof.
  intros i v post H. apply indexed_app in H as [_ H]. cbn in H. tauto.
Qed.

(** X2: in a thread started by [logexp_start], every verdict is on the
    test whose index is the number of MATCHes given before it: the tests
    are matched one each, in the order of the list, and none is gone back
    to.  The MATCHes are never more than the tests, and the thread returns
    [NULL] exactly when they are as many. *)
Theorem X2_cursor_forward w w' evs calls :
  logexp_start w = (Ok tt, w', evs) ->
  exists e le' vs,
    logexp_thread (w_le w') calls = (e, le', vs) /\
    (forall pre v post, vs = pre ++ v :: post -> v_index v = matches pre) /\
    (matches vs <= List.length (tests (w_le w)))%nat /\
    (e = T_null <-> matches vs = List.length (tests (w_le w))).
Proof.
  intros H.
  destruct (logexp_thread_summary w w' evs calls H)
    as (e & le' & vs & Hrun & S).
  exists e, le', vs. split; [exact Hrun|].
  apply logexp_start_ok in H as (R & Q & T & _ & _ & _ & Ts & _).
  rewrite (logexp_thread_entry _ calls R Q T) in Hrun.
  destruct (thread_entry_frame _ T) as (Te & _ & _ & _ & Tf & We).
  destruct (cursor_moves_thread _ _ _ _ _ Hrun We) as (W' & T' & I & C).
  assert (C0 : cur (thread_entry (w_le w')) = 0%nat).
  { unfold cur. rewrite Tf, Te. now destruct (tests (w_le w')). }
  rewrite C0 in I, C. cbn [Nat.add] in C. rewrite Te, Ts in T'.
  assert (Hnone : test le' = None <->
                  cur le' = List.length (tests (w_le w))).
  { unfold cur, wf in *. rewrite T' in *.
    destruct (test le'); split; try discriminate; auto; lia. }
  split; [|split].
  - intros pre v post ->. apply (indexed_split pre 0 v post I).
  - rewrite <- C. unfold cur, wf in *. rewrite T' in *.
    destruct (test le'); lia.
  - rewrite <- C, <- Hnone.
    destruct S as (_ & _ & _ & _ & _ & X). destruct e.
    + tauto.
    + split; [discriminate|]. intros N.
      destruct X as [X|X]; [now apply ends_open in X|].
      destruct X as [(D & _)|[(D & _)|(_ & N' & _)]];
        [discriminate|discriminate|contradiction].
    + split; [discriminate|]. intros N. now apply ends_open in X.
    + contradiction.
    + split; [discriminate|]. intros N. now apply ends_open in X.
Qed.

(** *** What the log says of a run *)

Lemma rec_lines_app l1 l2 :
  filter is_rec_line (l1 ++ l2) =
  filter is_rec_line l1 ++ filter is_rec_line l2.
Proof. apply filter_app. Qed.

Lemma log_tells_nil le : log_tells le [] le.
Proof. exists []. now rewrite app_nil_r. Qed.

Lemma log_tells_app le vs1 le1 vs2 le2 :
  log_tells le vs1 le1 -> log_tells le1 vs2 le2 ->
  log_tells le (vs1 ++ vs2) le2.
Proof.
  intros (n1 & V1 & F1) (n2 & V2 & F2). exists (n1 ++ n2).
  rewrite V2, V1, app_assoc. split; [reflexivity|].
  now rewrite filter_app, F1, F2, filter_app, map_app.
Qed.

Lemma lines_of_verdict le i t r c :
  v_class (verdict_of le i t r) = c ->
  map verdict_line (filter is_loud [verdict_of le i t r]) =
  match c with
  | SKIP => []
  | MATCH => [L_rec "match" (VSL_ID r) (VSL_TAG r) (record_type r)
                (VSL_LEN r - 1) (VSL_CDATA r)]
  | FAIL => [L_rec "err" (VSL_ID r) (VSL_TAG r) (record_type r)
               (VSL_LEN r - 1) (VSL_CDATA r)]
  end.
Proof.
  intros H. unfold is_loud, verdict_line. cbn [filter]. rewrite H.
  destruct c; cbn [map]; rewrite ?H; reflexivity.
Qed.

Lemma log_tells_record vsl0 le r f vs :
  logexp_record vsl0 le r = Done (f, vs) -> log_tells le vs (flow_le f).
Proof.
  intros E.
  destruct (logexp_record_inv _ _ _ _ _ E)
    as [(-> & -> & _) | (i & t & Ht & Hn & _ & _ & -> & -> & _)].
  - apply log_tells_nil.
  - unfold log_tells.
    rewrite (lines_of_verdict le i t r _ (v_class_verdict_of le i t r)).
    destruct (fst (record_ok le t r)) eqn:Hok; cbn [classify].
    + rewrite after_record_MATCH by assumption.
      match goal with |- context [logexp_next ?x] =>
        destruct (vl_logexp_next x) as [->|[s ->]] end; cbn [vl set_skip_cnt
          set_last vtc_log].
      * eexists. split; [reflexivity|]. reflexivity.
      * rewrite <- app_assoc. eexists. split; [reflexivity|]. reflexivity.
    + destruct (record_skip le t false) eqn:Hs; cbn [classify].
      * rewrite after_record_SKIP by assumption. exists []. cbn.
        now rewrite app_nil_r.
      * rewrite after_record_FAIL by assumption. cbn [vl vtc_log].
        eexists. split; [reflexivity|]. reflexivity.
Qed.

(** X4: whatever the engine and the log served, the lines [logexp_thread]
    adds to the log of the engine hold, among those about records, exactly
    one line for each verdict that is a MATCH or a FAIL, in the order of
    the verdicts and with the record's vxid, tag, side and text: a SKIP
    leaves no line. *)
Theorem X4_log_of_a_run le calls :
  log_tells le (snd (logexp_thread le calls))
    (snd (fst (logexp_thread le calls))).
Proof.
  unfold logexp_thread.
  destruct (negb (run le) || negb (vslq le)); [apply log_tells_nil|].
  destruct (test le); [apply log_tells_nil|].
  match goal with |- context [thread_loop ?x calls] => set (le0 := x) end.
  assert (S0 : log_tells le [] le0).
  { subst le0.
    match goal with |- context [logexp_next ?x] =>
      destruct (vl_logexp_next x) as [E|[s E]];
      unfold log_tells; rewrite E end;
      cbn; destruct (query le); cbn; rewrite <- ?app_assoc;
      eexists; (split; [reflexivity|reflexivity]). }
  destruct (thread_loop le0 calls) as [[e le'] vs] eqn:E.
  cbn [fst snd]. change vs with ([] ++ vs).
  eapply log_tells_app; [exact S0|].
  revert E. apply (trace_thread_loop log_tells).
  - apply log_tells_nil.
  - apply log_tells_app.
  - apply log_tells_record.
  - intros a. exists [L_end]. split; reflexivity.
Qed.

(** *** The skip budget over a run *)

Lemma skips_after_app vs1 : forall k vs2,
  skips_after k (vs1 ++ vs2) = skips_after (skips_after k vs1) vs2.
Proof.
  induction vs1 as [|v vs1 IH]; intros; cbn; [reflexivity|].
  destruct (v_class v); apply IH.
Qed.

Lemma within_budget_app vs1 : forall k vs2,
  within_budget k (vs1 ++ vs2) <->
  within_budget k vs1 /\ within_budget (skips_after k vs1) vs2.
Proof.
  induction vs1 as [|v vs1 IH]; intros k vs2;
    cbn [app within_budget skips_after].
  - tauto.
  - rewrite IH. destruct (v_class v); tauto.
Qed.

Lemma budget_kept_record vsl0 le r f vs :
  logexp_record vsl0 le r = Done (f, vs) -> budget_kept le vs (flow_le f).
Proof.
  intros E.
  destruct (logexp_record_inv _ _ _ _ _ E)
    as [(-> & -> & _) | (i & t & Ht & Hn & _ & _ & -> & -> & _)].
  - split; [reflexivity|exact I].
  - unfold budget_kept. cbn [skips_after within_budget].
    rewrite v_class_verdict_of. cbn [v_test verdict_of].
    destruct (fst (record_ok le t r)) eqn:Hok; cbn [classify].
    + rewrite after_record_MATCH by assumption.
      match goal with |- context [logexp_next ?x] =>
        destruct (logexp_next_frame x) as (_ & -> & _) end.
      cbn. auto.
    + destruct (record_skip le t false) eqn:Hs; cbn [classify].
      * rewrite after_record_SKIP by assumption. cbn.
        apply record_skip_true in Hs. auto.
      * rewrite after_record_FAIL by assumption. cbn.
        split; [reflexivity|]. split; [|exact I].
        assert (N : ~ (skip_max t = LE_ANY \/ skip_cnt le < skip_max t)).
        { intros K. apply record_skip_true in K. congruence. }
        split; [tauto|lia].
Qed.

(** X12: whatever the engine and the log served, over a whole run of
    [logexp_thread] the counter [skip_cnt] is the number of SKIPs since
    the last MATCH (from the value it had), every SKIP is on a test whose
    [skip_max] is ANY or above the counter at that moment, and every FAIL
    is on a test whose [skip_max] is not ANY and not above it. *)
Theorem X12_budget_over_a_run le calls :
  budget_kept le (snd (logexp_thread le calls))
    (snd (fst (logexp_thread le calls))).
Proof.
  unfold logexp_thread.
  destruct (negb (run le) || negb (vslq le)); [split; [reflexivity|exact I]|].
  destruct (test le); [split; [reflexivity|exact I]|].
  match goal with |- context [thread_loop ?x calls] => set (le0 := x) end.
  assert (S0 : skip_cnt le0 = skip_cnt le).
  { subst le0.
    match goal with |- context [logexp_next ?x] =>
      destruct (logexp_next_frame x) as (_ & -> & _) end.
    cbn. destruct (query le); reflexivity. }
  destruct (thread_loop le0 calls) as [[e le'] vs] eqn:E.
  cbn [fst snd]. unfold budget_kept. rewrite <- S0.
  revert E. apply (trace_thread_loop budget_kept).
  - intros a. split; [reflexivity|exact I].
  - intros a vs1 b vs2 c [A1 A2] [B1 B2]. split.
    + now rewrite skips_after_app, <- A1.
    + apply within_budget_app. rewrite <- A1. auto.
  - apply budget_kept_record.
  - intros a. split; [reflexivity|exact I].
Qed.

(** *** A FAIL ends the thread *)

(** The exit and the verdicts of a thread: no FAIL, or one FAIL as the
    last verdict. *)
Lemma no_fail_open n vs : Forall (open_verdict n) vs -> no_fail vs.
Proof.
  apply Forall_impl. intros v [H | [H _]]; rewrite H; discriminate.
Qed.

Lemma ends_fail n k le' vs : ends n k le' vs ->
  (k <> 2 /\ no_fail vs) \/
  (k = 2 /\ exists vs0 v, vs = vs0 ++ [v] /\ no_fail vs0 /\ v_class v = FAIL).
Proof.
  intros [(C & _ & H) | [(C & _ & vs0 & v & -> & H & K & _)
                        | (C & _ & vs0 & v & -> & H & K)]].
  - left. split; [lia|]. eapply no_fail_open; eauto.
  - left. split; [lia|]. apply Forall_app. split.
    + eapply no_fail_open; eauto.
    + constructor; [rewrite K; discriminate|constructor].
  - right. split; [assumption|]. exists vs0, v.
    split; [reflexivity|]. split; [eapply no_fail_open; eauto|assumption].
Qed.

Lemma fail_is_last_none e vs :
  no_fail vs ->
  (forall i, e = T_fatal (Bad_dispatch_failed i) -> i < 0) ->
  (forall m, e = T_fatal m ->
     m = Bad_expectation_failed \/ exists i, m = Bad_dispatch_failed i) ->
  fail_is_last e vs.
Proof.
  intros N D M. split; [|split].
  - intros pre v post -> F. apply Forall_app in N as [_ N].
    inversion N; subst. contradiction.
  - intros i E. split; [now apply D|assumption].
  - assumption.
Qed.

Lemma fail_is_last_one vs0 v :
  no_fail vs0 -> v_class v = FAIL ->
  fail_is_last (T_fatal Bad_expectation_failed) (vs0 ++ [v]).
Proof.
  intros N F. split; [|split].
  - intros pre v' post E F'. split; [|reflexivity].
    destruct post as [|x post] using rev_ind; [reflexivity|].
    exfalso. clear IHpost.
    change (pre ++ v' :: post ++ [x]) with (pre ++ (v' :: post) ++ [x]) in E.
    rewrite app_assoc in E. apply app_inj_tail in E as [-> _].
    apply Forall_app in N as [_ N]. inversion N; subst. contradiction.
  - intros i E. discriminate.
  - intros m E. injection E as <-. now left.
Qed.

Lemma fail_is_last_after vs1 e vs2 :
  no_fail vs1 -> fail_is_last e vs2 -> fail_is_last e (vs1 ++ vs2).
Proof.
  intros N (A & B & C). split; [|split].
  - intros pre v post E F.
    assert (H : exists pre', pre = vs1 ++ pre' /\ vs2 = pre' ++ v :: post).
    { clear A B C. revert pre E. induction N as [|x vs1 Hx N IH];
        intros pre E.
      - exists pre. auto.
      - destruct pre as [|y pre]; cbn in E.
        + injection E as <- _. contradiction.
        + injection E as <- E. destruct (IH _ E) as (pre' & -> & ->).
          exists pre'. auto. }
    destruct H as (pre' & _ & E2). exact (A _ _ _ E2 F).
  - intros i E. destruct (B i E). split; [assumption|].
    apply Forall_app. auto.
  - assumption.
Qed.

Lemma thread_loop_fail calls : forall le e le' vs,
  wf le -> thread_loop le calls = (e, le', vs) -> fail_is_last e vs.
Proof.
  assert (Quiet : forall e, (e = T_null \/ e = T_running \/ e = T_undefined)
                            -> fail_is_last e []).
  { intros e He. apply fail_is_last_none; [constructor| |];
      intros x K; destruct He as [-> | [-> | ->]]; discriminate. }
  induction calls as [|c cs IH]; intros le e le' vs W E;
    cbn [thread_loop] in E; destruct (test le) as [i0|] eqn:Ht;
    try (injection E as <- _ <-; apply Quiet; tauto).
  assert (N : test le <> None) by congruence.
  pose proof (VSLQ_Dispatch_summary (deliveries c) (rc c) le W N) as S.
  destruct (VSLQ_Dispatch le (deliveries c) (rc c))
    as [[[i le1] vs1]| |]; [|contradiction|].
  - assert (K : wf le1 /\
                ((i <> 2 /\ no_fail vs1) \/
                 (i = 2 /\ exists vs0 v, vs1 = vs0 ++ [v] /\ no_fail vs0 /\
                                         v_class v = FAIL) \/
                 no_fail vs1)).
    { destruct S as [(_ & S) | (_ & S)];
        destruct S as (_ & _ & W1 & En & _); (split; [exact W1|]).
      - apply ends_fail in En as [(_ & En) | (C & _)]; [auto|discriminate].
      - apply ends_fail in En as [En | En]; auto. }
    destruct K as (W1 & K).
    destruct (Z.eqb_spec i 2) as [-> | Hi].
    + injection E as <- _ <-.
      destruct K as [(C & _) | [(_ & vs0 & v & -> & Nf & F) | Nf]];
        [contradiction| |].
      * now apply fail_is_last_one.
      * apply fail_is_last_none; [assumption| |].
        -- intros j Ej. discriminate.
        -- intros m Em. injection Em as <-. now left.
    + assert (Nf : no_fail vs1).
      { destruct K as [(_ & Nf) | [(C & _) | Nf]];
          [assumption|contradiction|assumption]. }
      destruct (Z.ltb_spec i 0) as [Hneg | Hpos].
      * injection E as <- _ <-. apply fail_is_last_none; [assumption| |].
        -- intros j Ej. injection Ej as <-. assumption.
        -- intros m Em. injection Em as <-. right. now exists i.
      * destruct (thread_loop le1 cs) as [[e2 le2] vs2] eqn:E2.
        injection E as <- _ <-. apply fail_is_last_after; [assumption|].
        eapply IH; eauto.
  - injection E as <- _ <-. apply Quiet. tauto.
Qed.

(** X3: whatever the engine and the log served, in a run of
    [logexp_thread] a FAIL is the last verdict, and the thread then ends
    in [vtc_fatal] with the failed expectation: no record is looked at
    after a FAIL.  When the thread ends on a failed dispatch the code is
    negative and no verdict is a FAIL, and the thread ends in
    [vtc_fatal] with no other message than these two. *)
Theorem X3_fail_is_last le calls :
  fail_is_last (fst (fst (logexp_thread le calls)))
    (snd (logexp_thread le calls)).
Proof.
  assert (A : fail_is_last T_assert []).
  { apply fail_is_last_none; [constructor| |]; intros x K; discriminate. }
  unfold logexp_thread.
  destruct (negb (run le) || negb (vslq le)); [exact A|].
  destruct (test le); [exact A|].
  match goal with |- context [thread_loop ?x calls] =>
    destruct (thread_loop x calls) as [[e le'] vs] eqn:E end.
  cbn [fst snd]. eapply thread_loop_fail; [|exact E]. apply wf_logexp_next.
Qed.

(** *** Transactions and unclassified records *)

Lemma logexp_records_app vsl0 rs1 : forall le rs2,
  logexp_records vsl0 le (rs1 ++ rs2) =
  match logexp_records vsl0 le rs1 with
  | Done (Next le', vs) =>
      match logexp_records vsl0 le' rs2 with
      | Done (f, vs') => Done (f, vs ++ vs')
      | Assert_failed => Assert_failed
      | Undefined => Undefined
      end
  | x => x
  end.
Proof.
  induction rs1 as [|r rs1 IH]; intros le rs2; cbn [app logexp_records].
  - destruct (logexp_records vsl0 le rs2) as [[f vs]| |]; reflexivity.
  - destruct (logexp_record vsl0 le r) as [[[le1|c le1] vs1]| |];
      try reflexivity.
    rewrite IH.
    destruct (logexp_records vsl0 le1 rs1) as [[[le2|c le2] vs2]| |];
      try reflexivity.
    destruct (logexp_records vsl0 le2 rs2) as [[f vs3]| |];
      try reflexivity.
    now rewrite app_assoc.
Qed.

Lemma logexp_dispatch_flat vsl0 pt : forall le,
  logexp_dispatch vsl0 le pt =
  match logexp_records vsl0 le (List.concat pt) with
  | Done (f, vs) => Done (flow_code f, flow_le f, vs)
  | Assert_failed => Assert_failed
  | Undefined => Undefined
  end.
Proof.
  induction pt as [|t pt IH]; intros le;
    cbn [logexp_dispatch List.concat logexp_records].
  - reflexivity.
  - rewrite logexp_records_app.
    destruct (logexp_records vsl0 le t) as [[[le1|c le1] vs1]| |];
      try reflexivity.
    rewrite IH.
    destruct (logexp_records vsl0 le1 (List.concat pt)) as [[f vs2]| |];
      reflexivity.
Qed.

Lemma logexp_records_classified vsl0 rs : forall le,
  wf le -> test le <> None ->
  logexp_records vsl0 le (filter (classified vsl0) rs) =
  logexp_records vsl0 le rs.
Proof.
  induction rs as [|r rs IH]; intros le W N; [reflexivity|].
  cbn [filter]. destruct (classified vsl0 r) eqn:Hc.
  - cbn [logexp_records].
    pose proof (logexp_record_summary vsl0 le r W N) as S.
    destruct (logexp_record vsl0 le r) as [[[le1|c le1] vs1]| |];
      try reflexivity.
    destruct S as ((_ & _ & W1 & En & _) & _). cbn [flow_code flow_le] in *.
    apply ends_open in En as [N1 _]. now rewrite IH.
  - cbn [logexp_records]. rewrite logexp_record_ignored; [|assumption|].
    + rewrite IH by assumption.
      destruct (logexp_records vsl0 le rs) as [[f vs]| |]; reflexivity.
    + destruct (wf_active le W N) as (i & t & Ht & Hn).
      unfold deref_test. rewrite Ht, Hn. discriminate.
Qed.

(** X5: with a current test, the result of [logexp_dispatch] (code,
    engine and verdicts) depends on the array of transactions only through
    the records that pass [VSL_Match] and are no batch record, taken in
    order: how the records are grouped in transactions changes nothing,
    and a record that is filtered out changes nothing. *)
Theorem X5_dispatch_flat vsl0 le pt :
  wf le -> test le <> None ->
  logexp_dispatch vsl0 le pt =
  logexp_dispatch vsl0 le [filter (classified vsl0) (List.concat pt)].
Proof.
  intros W N. rewrite (logexp_dispatch_flat vsl0 pt le).
  rewrite (logexp_dispatch_flat vsl0 [_] le).
  cbn [List.concat]. rewrite app_nil_r.
  now rewrite logexp_records_classified.
Qed.

(** *** The specification of the tests *)

Lemma parse_string_compiled lines : forall w,
  fst (parse_string lines w) =
  (match snd (compiled lines) with
   | None => Ok tt
   | Some m => Fatal m
   end,
   {| w_le := set_tests (tests (w_le w) ++ fst (compiled lines)) (w_le w);
      w_src := w_src w |}).
Proof.
  induction lines as [|av lines IH]; intros w.
  - cbn. rewrite app_nil_r. now destruct w as [[] ?].
  - destruct av as [|c av]; [apply IH|].
    cbn [parse_string compiled]. destruct (String.eqb c "expect").
    + unfold cmd_logexp_expect.
      destruct (compile (c :: av)) as [m|t].
      * cbn. rewrite app_nil_r. now destruct w as [[] ?].
      * unfold bind, write. cbn [fst snd].
        match goal with |- context [parse_string lines ?x] =>
          specialize (IH x);
          destruct (parse_string lines x) as [[o w1] e1] end.
        cbn [fst snd] in IH. injection IH as -> ->.
        destruct (compiled lines) as [ts m]. cbn [fst snd w_le w_src].
        cbn [tests set_tests]. rewrite <- app_assoc. reflexivity.
    + cbn. rewrite app_nil_r. now destruct w as [[] ?].
Qed.

Lemma logexp_spec_compiled spec w :
  fst (logexp_spec spec w) =
  (match snd (compiled (tokens spec)) with
   | None => Ok tt
   | Some m => Fatal m
   end,
   {| w_le := set_tests (fst (compiled (tokens spec))) (w_le w);
      w_src := w_src w |}).
Proof.
  unfold logexp_spec, logexp_delete_tests, bind, write. cbn [fst snd].
  match goal with |- context [parse_string _ ?x] =>
    pose proof (parse_string_compiled (tokens spec) x) as H;
    destruct (parse_string (tokens spec) x) as [[o w1] e1] end.
  cbn [fst snd] in *. rewrite H. reflexivity.
Qed.

Lemma compiled_from_lines lines :
  Forall (fun t => exists av, In av lines /\ compile av = inr t)
    (fst (compiled lines)).
Proof.
  induction lines as [|av lines IH]; cbn [compiled]; [constructor|].
  assert (IH' : Forall (fun t => exists av0,
                          In av0 (av :: lines) /\ compile av0 = inr t)
                  (fst (compiled lines))).
  { eapply Forall_impl; [|exact IH].
    intros t (av0 & I & E). exists av0. split; [now right|exact E]. }
  destruct av as [|c av]; [exact IH'|].
  destruct (String.eqb c "expect"); [|constructor].
  destruct (compile (c :: av)) as [m|t] eqn:E; [constructor|].
  destruct (compiled lines) as [ts m]. cbn [fst] in *.
  constructor; [|exact IH'].
  exists (c :: av). split; [now left|exact E].
Qed.

(** X6: every test [logexp_spec] leaves in the engine, also when it ends
    in [vtc_fatal], is one that [cmd_logexp_expect] has built from a
    command line of this specification: the tests come from nowhere else,
    and none of an earlier specification is kept. *)
Theorem X6_spec_tests_from_lines spec w :
  Forall (fun t => exists av, In av (tokens spec) /\ compile av = inr t)
    (tests (w_le (snd (fst (logexp_spec spec w))))).
Proof.
  rewrite (surjective_pairing (fst (logexp_spec spec w))).
  rewrite logexp_spec_compiled. cbn [snd w_le tests set_tests].
  apply compiled_from_lines.
Qed.

(** X7: of two specifications given one after the other, the later one
    replaces the earlier: when the first is accepted, the outcome and the
    engine are those of the second alone. *)
Theorem X7_later_spec_wins a b w :
  fst (fst (logexp_spec a w)) = Ok tt ->
  fst (bind (logexp_spec a) (fun _ => logexp_spec b) w) =
  fst (logexp_spec b w).
Proof.
  intros Ha. unfold bind.
  pose proof (logexp_spec_compiled a w) as Hw.
  destruct (logexp_spec a w) as [[o w1] e1]. cbn [fst snd] in *.
  subst o. injection Hw as _ ->.
  pose proof (logexp_spec_compiled b w) as H2.
  match goal with |- context [logexp_spec b ?x] =>
    pose proof (logexp_spec_compiled b x) as H1;
    destruct (logexp_spec b x) as [[o1 w1] e2] end.
  cbn [fst snd] in *. rewrite H1, H2. reflexivity.
Qed.

(** *** No assertion trips *)

Lemma consistent_in_flight w :
  consistent w -> run (w_le w) = true -> in_flight w.
Proof.
  unfold consistent, in_flight. destruct (tp (w_le w)).
  - intros (R & Q & T) _. repeat split; auto. discriminate.
  - intros (R & _) R'. congruence.
Qed.

Lemma consistent_at_rest w :
  consistent w -> run (w_le w) = false -> at_rest w.
Proof.
  unfold consistent, at_rest. destruct (tp (w_le w)).
  - intros (R & _) R'. congruence.
  - intros (R & Q) _. auto.
Qed.

Lemma in_flight_consistent w : in_flight w -> consistent w.
Proof.
  unfold consistent, in_flight. intros (T & H).
  destruct (tp (w_le w)); [exact H|contradiction].
Qed.

Lemma at_rest_consistent w : at_rest w -> consistent w.
Proof. unfold consistent, at_rest. intros (-> & H). exact H. Qed.

Lemma sound_bind {A B} (m : M A) (f : A -> M B) w Q R :
  sound_at m w Q ->
  (forall a w', Q a w' -> sound_at (f a) w' R) ->
  sound_at (bind m f) w R.
Proof.
  unfold sound_at, bind. intros (H1 & H2) Hf.
  destruct (m w) as [[o w1] e1]. cbn [fst snd] in *.
  destruct o as [a| | | |]; cbn [fst snd];
    try (split; [congruence|intros; discriminate]).
  specialize (Hf a w1 (H2 a eq_refl)).
  destruct (f a w1) as [[o2 w2] e2]. exact Hf.
Qed.

Lemma sound_ret {A} (a : A) w (Q : A -> world -> Prop) :
  Q a w -> sound_at (ret a) w Q.
Proof.
  unfold sound_at, ret. cbn. intros H. split; [discriminate|].
  intros a' E. injection E as <-. exact H.
Qed.

Lemma sound_fatal {A} m w (Q : A -> world -> Prop) :
  sound_at (vtc_fatal m) w Q.
Proof. unfold sound_at, vtc_fatal. cbn. split; intros; discriminate. Qed.

Lemma sound_assert b w (Q : unit -> world -> Prop) :
  b = true -> Q tt w -> sound_at (assert_that b) w Q.
Proof.
  intros -> H. unfold sound_at, assert_that. cbn. split; [discriminate|].
  intros [] _. exact H.
Qed.

Lemma sound_get {A} (f : logexp -> M A) w Q :
  sound_at (f (w_le w)) w Q -> sound_at (bind get f) w Q.
Proof. unfold sound_at. now rewrite bind_get. Qed.

Lemma sound_write f g w (Q : unit -> world -> Prop) :
  Q tt {| w_le := g (w_le w); w_src := w_src w |} ->
  sound_at (write f g) w Q.
Proof.
  unfold sound_at, write. cbn. intros H. split; [discriminate|].
  intros [] _. exact H.
Qed.

Lemma sound_log l w (Q : unit -> world -> Prop) :
  Q tt {| w_le := vtc_log (w_le w) l; w_src := w_src w |} ->
  sound_at (log l) w Q.
Proof.
  unfold sound_at, log. cbn. intros H. split; [discriminate|].
  intros [] _. exact H.
Qed.

(** The thread trips none of its assertions when it is started as
    [logexp_start] starts it. *)
Lemma logexp_thread_no_assert le calls :
  run le = true -> vslq le = true -> test le = None ->
  fst (fst (logexp_thread le calls)) <> T_assert.
Proof.
  intros R Q T. rewrite (logexp_thread_entry le calls R Q T).
  destruct (thread_entry_frame le T) as (_ & _ & _ & _ & _ & W).
  destruct (thread_loop_summary calls _ W) as (e & le' & vs & -> & S).
  cbn. intros ->. destruct S as (_ & _ & _ & _ & _ & F). exact F.
Qed.

Lemma sound_join w :
  in_flight w ->
  sound_at pthread_join w
    (fun _ w' => tp (w_le w') = None /\ run (w_le w') = true /\
                 vslq (w_le w') = true).
Proof.
  unfold in_flight, sound_at, pthread_join. intros (P & R & Q & T).
  destruct (tp (w_le w)) as [calls|]; [|contradiction].
  pose proof (logexp_thread_no_assert (w_le w) calls R Q T) as N.
  pose proof (logexp_thread_setup (w_le w) calls)
    as (_ & R' & _ & _ & _ & _ & _ & _ & Q' & _).
  destruct (logexp_thread (w_le w) calls) as [[e le'] vs].
  cbn [fst snd] in *.
  destruct e; cbn [fst snd]; (split; [try discriminate|]);
    try (intros a Ha; discriminate); try contradiction;
    intros a _; cbn; repeat split; congruence.
Qed.

Lemma sound_wait w :
  in_flight w -> sound_at logexp_wait w (fun _ w' => at_rest w').
Proof.
  intros H. unfold logexp_wait.
  eapply sound_bind with (Q := fun _ w' => in_flight w').
  { apply sound_log. exact H. }
  cbn beta. intros _ w1 H1.
  eapply sound_bind; [apply sound_join; assumption|].
  cbn beta. intros res w2 (P2 & R2 & Q2).
  eapply sound_bind with
    (Q := fun _ w' => tp (w_le w') = None /\ vslq (w_le w') = false).
  { unfold logexp_close. apply sound_get. rewrite Q2.
    apply sound_write. cbn. auto. }
  cbn beta. intros _ w3 (P3 & Q3).
  eapply sound_bind with
    (Q := fun _ w' => tp (w_le w') = None /\ vslq (w_le w') = false).
  { destruct (res && negb vtc_stop); [apply sound_fatal|apply sound_ret].
    auto. }
  cbn beta. intros _ w4 (P4 & Q4). apply sound_write.
  unfold at_rest. cbn. auto.
Qed.

Lemma sound_start w :
  at_rest w -> sound_at logexp_start w (fun _ w' => in_flight w').
Proof.
  intros (P & R & Q). unfold logexp_start. apply sound_get.
  eapply sound_bind with (Q := fun _ w' => w' = w).
  { apply sound_assert; [now rewrite Q|reflexivity]. }
  intros _ w' ->.
  destruct (n_arg (w_le w)) as [n|]; [|apply sound_fatal].
  destruct (VSM_n_Arg n <=? 0); [apply sound_fatal|].
  destruct (negb (VSM_Open n =? 0)); [apply sound_fatal|].
  destruct (negb (VSL_CursorVSM _ _ _)); [apply sound_fatal|].
  destruct (negb (VSLQ_New _ _ _)); [apply sound_fatal|].
  unfold sound_at, in_flight, bind, write, pthread_create. cbn.
  split; [discriminate|]. intros _ _. repeat split. discriminate.
Qed.

Lemma sound_spec spec w :
  at_rest w -> sound_at (logexp_spec spec) w (fun _ w' => at_rest w').
Proof.
  intros H. unfold sound_at.
  pose proof (logexp_spec_compiled spec w) as E.
  destruct (logexp_spec spec w) as [[o w1] e1]. cbn [fst snd] in *.
  injection E as -> ->. split.
  - destruct (snd (compiled (tokens spec))); discriminate.
  - intros _ _. exact H.
Qed.

Lemma at_rest_write f g w :
  (forall le, tp (g le) = tp le) -> (forall le, run (g le) = run le) ->
  (forall le, vslq (g le) = vslq le) ->
  at_rest w -> sound_at (write f g) w (fun _ w' => at_rest w').
Proof.
  intros Hp Hr Hq (P & R & Q). apply sound_write.
  unfold at_rest. cbn. now rewrite Hp, Hr, Hq.
Qed.

Ltac and_on IH :=
  cbn beta; intros;
  match goal with
  | |- sound_at (logexpect_args _) _ _ =>
      apply IH; [cbn in *; lia|
                 auto using in_flight_consistent, at_rest_consistent]
  end.

Lemma sound_args n : forall av, (List.length av <= n)%nat -> forall w,
  consistent w ->
  sound_at (logexpect_args av) w (fun _ w' => consistent w').
Proof.
  induction n as [|n IH]; intros av Hn w H.
  { destruct av; [|cbn in Hn; lia]. now apply sound_ret. }
  destruct av as [|a rest]; [now apply sound_ret|].
  cbn [logexpect_args].
  destruct vtc_error; [now apply sound_ret|].
  destruct (String.eqb a "-wait").
  { apply sound_get.
    eapply sound_bind with (Q := fun _ w' => in_flight w').
    { destruct (run (w_le w)) eqn:R; cbn [negb];
        [apply sound_ret; now apply consistent_in_flight
        |apply sound_fatal]. }
    cbn beta. intros _ w1 H1.
    eapply sound_bind; [apply sound_wait; assumption|]. and_on IH. }
  apply sound_get.
  eapply sound_bind with (Q := fun _ w' => at_rest w').
  { destruct (run (w_le w)) eqn:R.
    - apply sound_wait. now apply consistent_in_flight.
    - apply sound_ret. now apply consistent_at_rest. }
  cbn beta. intros _ w1 H1. apply sound_get.
  eapply sound_bind with (Q := fun _ w' => at_rest w').
  { apply sound_assert; [|assumption].
    destruct H1 as (_ & -> & _). reflexivity. }
  cbn beta. clear w H H1 w1. intros _ w H.
  destruct (String.eqb a "-v").
  { destruct rest as [|a1 rest']; [apply sound_fatal|].
    eapply sound_bind; [apply at_rest_write; auto|].
    cbn beta. intros _ w' H'.
    destruct (macro_expand _);
      [and_on IH|apply sound_ret; now apply at_rest_consistent]. }
  destruct (String.eqb a "-d").
  { destruct rest as [|a1 rest']; [apply sound_fatal|].
    eapply sound_bind; [apply at_rest_write; auto|]. and_on IH. }
  destruct (String.eqb a "-g").
  { destruct rest as [|a1 rest']; [apply sound_fatal|].
    eapply sound_bind; [apply at_rest_write; auto|].
    cbn beta. intros _ w' H'.
    destruct (VSLQ_Name2Grouping a1 <? 0); [apply sound_fatal|and_on IH]. }
  destruct (String.eqb a "-q").
  { destruct rest as [|a1 rest']; [apply sound_fatal|].
    eapply sound_bind; [apply at_rest_write; auto|]. and_on IH. }
  destruct (String.eqb a "-start").
  { eapply sound_bind; [apply sound_start; assumption|]. and_on IH. }
  destruct (String.eqb a "-run").
  { eapply sound_bind; [apply sound_start; assumption|].
    cbn beta. intros _ w1 H1.
    eapply sound_bind; [apply sound_wait; assumption|]. and_on IH. }
  match goal with |- context [if ?b then _ else _] => destruct b end.
  - destruct rest as [|a1 rest']; [apply sound_fatal|].
    apply sound_get. destruct (VSL_Arg _ _ a1) as [r v].
    eapply sound_bind; [apply at_rest_write; auto|].
    cbn beta. intros _ w' H'.
    destruct (negb (r =? 0)); [and_on IH|apply sound_fatal].
  - eapply sound_bind; [apply sound_spec; assumption|]. and_on IH.
Qed.

(** *** The registry *)

Lemma find_store le : forall l,
  find_logexp (name le) (store_logexp le l) = Some le.
Proof.
  induction l as [|x l IH]; cbn.
  - now rewrite String.eqb_refl.
  - destruct (String.eqb (name x) (name le)) eqn:E; cbn.
    + now rewrite String.eqb_refl.
    + now rewrite E.
Qed.

Lemma find_store_other le nm : forall l,
  nm <> name le ->
  find_logexp nm (store_logexp le l) = find_logexp nm l.
Proof.
  intros l N. induction l as [|x l IH]; cbn.
  - destruct (String.eqb_spec (name le) nm); [congruence|reflexivity].
  - destruct (String.eqb_spec (name x) (name le)) as [E|E]; cbn.
    + rewrite E.
      destruct (String.eqb_spec (name le) nm); [congruence|reflexivity].
    + now rewrite IH.
Qed.

Lemma names_store le : forall l,
  map name (store_logexp le l) =
  match find_logexp (name le) l with
  | Some _ => map name l
  | None => map name l ++ [name le]
  end.
Proof.
  induction l as [|x l IH]; cbn; [reflexivity|].
  destruct (String.eqb_spec (name x) (name le)) as [E|E]; cbn.
  - now rewrite E.
  - rewrite IH. now destruct (find_logexp (name le) l).
Qed.

Lemma find_name nm : forall l le,
  find_logexp nm l = Some le -> name le = nm.
Proof.
  induction l as [|x l IH]; cbn; intros le E; [discriminate|].
  destruct (String.eqb_spec (name x) nm).
  - injection E as <-. assumption.
  - now apply IH.
Qed.

Lemma keeps_bind {A B} (m : M A) (f : A -> M B) :
  keeps_name m -> (forall a, keeps_name (f a)) -> keeps_name (bind m f).
Proof.
  unfold keeps_name, bind. intros Hm Hf w. specialize (Hm w).
  destruct (m w) as [[o w1] e1]. cbn [fst snd] in *.
  destruct o as [a| | | |]; cbn [fst snd]; try assumption.
  specialize (Hf a w1). destruct (f a w1) as [[o2 w2] e2].
  cbn [fst snd] in *. congruence.
Qed.

Lemma keeps_ret {A} (a : A) : keeps_name (ret a).
Proof. intros w. reflexivity. Qed.

Lemma keeps_fatal {A} m : keeps_name (@vtc_fatal _ A m).
Proof. intros w. reflexivity. Qed.

Lemma keeps_assert b : keeps_name (assert_that b).
Proof. intros w. unfold assert_that. now destruct b. Qed.

Lemma keeps_get : keeps_name get.
Proof. intros w. reflexivity. Qed.

Lemma keeps_write f g :
  (forall le, name (g le) = name le) -> keeps_name (write f g).
Proof. intros H w. cbn. apply H. Qed.

Lemma keeps_log l : keeps_name (log l).
Proof. intros w. reflexivity. Qed.

Lemma keeps_create : keeps_name pthread_create.
Proof. intros w. reflexivity. Qed.

Lemma keeps_join : keeps_name pthread_join.
Proof.
  intros w. unfold pthread_join.
  destruct (tp (w_le w)) as [calls|]; [|reflexivity].
  pose proof (logexp_thread_setup (w_le w) calls) as (N & _).
  destruct (logexp_thread (w_le w) calls) as [[e le'] vs].
  cbn [fst snd] in *. destruct e; cbn; auto.
Qed.

Ltac keep :=
  repeat first
    [ apply keeps_ret | apply keeps_fatal | apply keeps_assert
    | apply keeps_get | apply keeps_log | apply keeps_create
    | apply keeps_join
    | apply keeps_write; reflexivity
    | apply keeps_bind; [|intros ?]
    | match goal with
      | |- keeps_name (if ?b then _ else _) => destruct b
      | |- keeps_name (match ?x with _ => _ end) => destruct x
      end ].

Lemma keeps_wait : keeps_name logexp_wait.
Proof. unfold logexp_wait, logexp_close. keep. Qed.

Lemma keeps_start : keeps_name logexp_start.
Proof. unfold logexp_start. keep. Qed.

Lemma keeps_spec spec : keeps_name (logexp_spec spec).
Proof.
  intros w. pose proof (logexp_spec_compiled spec w) as E.
  destruct (logexp_spec spec w) as [[o w1] e1]. cbn [fst snd] in *.
  injection E as _ ->. reflexivity.
Qed.

Lemma keeps_args n : forall av, (List.length av <= n)%nat ->
  keeps_name (logexpect_args av).
Proof.
  induction n as [|n IH]; intros av Hn.
  { destruct av; [|cbn in Hn; lia]. apply keeps_ret. }
  destruct av as [|a rest]; [apply keeps_ret|].
  assert (IH1 : keeps_name (logexpect_args rest))
    by (apply IH; cbn in Hn; lia).
  assert (IH2 : keeps_name (logexpect_args (tl rest))).
  { apply IH. destruct rest; cbn in *; lia. }
  cbn [logexpect_args].
  destruct vtc_error; [apply keeps_ret|].
  destruct (String.eqb a "-wait").
  { apply keeps_bind; [apply keeps_get|intros le].
    apply keeps_bind; [keep|intros _].
    apply keeps_bind; [apply keeps_wait|intros _]. exact IH1. }
  apply keeps_bind; [apply keeps_get|intros le].
  apply keeps_bind;
    [destruct (run le); [apply keeps_wait|apply keeps_ret]|intros _].
  apply keeps_bind; [apply keeps_get|intros le1].
  apply keeps_bind; [apply keeps_assert|intros _].
  destruct (String.eqb a "-v").
  { destruct rest as [|a1 rest']; [apply keeps_fatal|].
    apply keeps_bind; [keep|intros _].
    destruct (macro_expand _); [exact IH2|apply keeps_ret]. }
  destruct (String.eqb a "-d").
  { destruct rest as [|a1 rest']; [apply keeps_fatal|].
    apply keeps_bind; [keep|intros _]. exact IH2. }
  destruct (String.eqb a "-g").
  { destruct rest as [|a1 rest']; [apply keeps_fatal|].
    apply keeps_bind; [keep|intros _].
    destruct (VSLQ_Name2Grouping a1 <? 0); [apply keeps_fatal|exact IH2]. }
  destruct (String.eqb a "-q").
  { destruct rest as [|a1 rest']; [apply keeps_fatal|].
    apply keeps_bind; [keep|intros _]. exact IH2. }
  destruct (String.eqb a "-start").
  { apply keeps_bind; [apply keeps_start|intros _]. exact IH1. }
  destruct (String.eqb a "-run").
  { apply keeps_bind; [apply keeps_start|intros _].
    apply keeps_bind; [apply keeps_wait|intros _]. exact IH1. }
  match goal with |- context [if ?b then _ else _] => destruct b end.
  - destruct rest as [|a1 rest']; [apply keeps_fatal|].
    apply keeps_bind; [apply keeps_get|intros le2].
    destruct (VSL_Arg _ _ a1) as [r v].
    apply keeps_bind; [keep|intros _].
    destruct (negb (r =? 0)); [exact IH2|apply keeps_fatal].
  - apply keeps_bind; [apply keeps_spec|intros _]. exact IH1.
Qed.

(** The engine a command works on bears the name given. *)
Lemma named_engine nm logexps :
  name (match find_logexp nm logexps with
        | Some le => le
        | None => logexp_new nm
        end) = nm.
Proof.
  destruct (find_logexp nm logexps) as [le|] eqn:E; [|reflexivity].
  eapply find_name; eauto.
Qed.

(** X8: on an engine that is consistent (a thread in flight has the flag
    [run], the query context and no test yet; with no thread, [run] is
    down and there is no query context), as a new engine is, no argument
    list of [logexpect] trips an assertion: not [AZ(le->run)] after the
    implicit wait, not [AZ(le->vslq)] of [logexp_start], not those of the
    thread, not the join of a thread never created.  When the command
    comes to its end the engine is consistent again. *)
Theorem X8_no_assertion logexps src nm av o l' src' evs :
  (forall le, find_logexp nm logexps = Some le ->
              consistent {| w_le := le; w_src := src |}) ->
  cmd_logexpect logexps src ("logexpect"%string :: nm :: av)
    = (o, l', src', evs) ->
  o <> Asserted /\
  (o = Ok tt ->
   exists le, find_logexp nm l' = Some le /\
              consistent {| w_le := le; w_src := src' |}).
Proof.
  intros H E. unfold cmd_logexpect in E.
  destruct (negb (VTC_CHECK_NAME nm)).
  { injection E as <- _ _ _. split; discriminate. }
  pose proof (named_engine nm logexps) as Hn.
  set (le0 := match find_logexp nm logexps with
              | Some le => le
              | None => logexp_new nm
              end) in *.
  assert (C : consistent {| w_le := le0; w_src := src |}).
  { subst le0. destruct (find_logexp nm logexps) as [le|] eqn:F.
    - now apply H.
    - unfold consistent. cbn. auto. }
  destruct (sound_args (List.length av) av (le_n _) _ C) as (S1 & S2).
  pose proof (keeps_args (List.length av) av (le_n _)
                {| w_le := le0; w_src := src |}) as K.
  destruct (logexpect_args av _) as [[o1 w] e1]. cbn [fst snd w_le] in *.
  injection E as <- <- <- _. split; [exact S1|].
  intros ->. exists (w_le w). split.
  - rewrite <- Hn, <- K. apply find_store.
  - specialize (S2 tt eq_refl). unfold consistent in *. exact S2.
Qed.

(** X9: a [logexpect] command with a name the harness accepts leaves in
    the registry, under that name, the engine as its arguments left it,
    whatever the outcome; the engines of the other names are untouched,
    and the names of the registry are those there were, in the same order,
    with the name given added at the end when it was new. *)
Theorem X9_registry logexps src nm av :
  VTC_CHECK_NAME nm = true ->
  let le0 := match find_logexp nm logexps with
             | Some le => le
             | None => logexp_new nm
             end in
  let l' := snd (fst (fst
    (cmd_logexpect logexps src ("logexpect"%string :: nm :: av)))) in
  find_logexp nm l' =
    Some (w_le (snd (fst
      (logexpect_args av {| w_le := le0; w_src := src |})))) /\
  (forall nm', nm' <> nm -> find_logexp nm' l' = find_logexp nm' logexps) /\
  map name l' =
    match find_logexp nm logexps with
    | Some _ => map name logexps
    | None => map name logexps ++ [nm]
    end.
Proof.
  intros V le0 l'. subst l'. unfold cmd_logexpect. rewrite V. cbn [negb].
  pose proof (named_engine nm logexps) as Hn. fold le0 in Hn |- *.
  pose proof (keeps_args (List.length av) av (le_n _)
                {| w_le := le0; w_src := src |}) as K.
  destruct (logexpect_args av _) as [[o1 w] e1]. cbn [fst snd w_le] in *.
  assert (N : name (w_le w) = nm) by congruence.
  split; [|split].
  - rewrite <- N at 1. apply find_store.
  - intros nm' D. apply find_store_other. congruence.
  - rewrite names_store, N. reflexivity.
Qed.

(** *** The thread and the log it is served *)

Lemma thread_loop_records calls : forall le e le' vs,
  wf le -> thread_loop le calls = (e, le', vs) ->
  exists rest,
    filter (classified (vsl le)) (records_of_calls calls)
    = map v_rec vs ++ rest /\
    (e = T_running -> rest = []).
Proof.
  induction calls as [|c cs IH]; intros le e le' vs W E.
  { exists []. cbn [thread_loop] in E.
    destruct (test le); injection E as _ _ <-; auto. }
  unfold records_of_calls. cbn [map List.concat].
  fold (records_of_calls cs). rewrite filter_app.
  cbn [thread_loop] in E. destruct (test le) as [i0|] eqn:Ht.
  2:{ injection E as <- _ <-. eexists. split; [reflexivity|discriminate]. }
  assert (N : test le <> None) by congruence.
  pose proof (VSLQ_Dispatch_summary (deliveries c) (rc c) le W N) as S.
  destruct (VSLQ_Dispatch le (deliveries c) (rc c))
    as [[[i le1] vs1]| |]; [|contradiction|].
  2:{ injection E as <- _ <-. eexists. split; [reflexivity|discriminate]. }
  destruct S as [(_ & S) | (Ci & S)];
    destruct S as (_ & V1 & W1 & En & _ & (rest1 & F1 & R1) & _);
    rewrite F1.
  - (* every callback of the call returned 0 *)
    rewrite (R1 eq_refl), app_nil_r.
    destruct (i =? 2);
      [injection E as <- _ <-; eexists; split; [reflexivity|discriminate]|].
    destruct (i <? 0);
      [injection E as <- _ <-; eexists; split; [reflexivity|discriminate]|].
    destruct (thread_loop le1 cs) as [[e2 le2] vs2] eqn:E2.
    injection E as <- _ <-.
    destruct (IH le1 e2 le2 vs2 W1 E2) as (rest2 & F2 & R2).
    rewrite V1 in F2. rewrite F2. exists rest2.
    rewrite map_app, <- app_assoc. auto.
  - (* a callback returned 1 or 2 *)
    destruct En as [(C & _) | [(C & T1 & _) | (C & _)]];
      [contradiction| |]; subst i; cbn [Z.eqb Z.ltb Z.compare Pos.eqb] in E.
    + rewrite (thread_loop_none le1 cs T1) in E. injection E as <- _ <-.
      rewrite app_nil_r, <- app_assoc.
      eexists. split; [reflexivity|discriminate].
    + injection E as <- _ <-. rewrite <- app_assoc.
      eexists. split; [reflexivity|discriminate].
Qed.

(** X11: a thread started by [logexp_start] gives one verdict to each
    record the log serves that passes [VSL_Match] and is no batch record,
    in the order served, up to the record on which it ends: no such record
    is passed over and none is looked at twice.  A thread that is still
    waiting for records has given a verdict to every one of them. *)
Theorem X11_one_verdict_per_record w w' evs calls :
  logexp_start w = (Ok tt, w', evs) ->
  exists rest,
    filter (classified (vsl (w_le w))) (records_of_calls calls)
    = map v_rec (snd (logexp_thread (w_le w') calls)) ++ rest /\
    (fst (fst (logexp_thread (w_le w') calls)) = T_running -> rest = []).
Proof.
  intros H.
  apply logexp_start_ok in H as (R & Q & T & _ & _ & _ & _ & V & _).
  rewrite (logexp_thread_entry _ calls R Q T).
  destruct (thread_entry_frame _ T) as (_ & Ve & _ & _ & _ & We).
  destruct (thread_loop (thread_entry (w_le w')) calls)
    as [[e le'] vs] eqn:E.
  cbn [fst snd]. rewrite <- V, <- Ve.
  eapply thread_loop_records; eauto.
Qed.

(** X10: the loop of the thread takes the calls of the log one after the
    other: on a log that goes on, a thread that was still waiting for
    records resumes with the engine as it stood and adds its verdicts to
    those given; a thread that has ended (on the last test, on a failed
    expectation or dispatch) looks at nothing the log serves later. *)
Theorem X10_thread_resumes calls1 : forall le calls2,
  thread_loop le (calls1 ++ calls2) =
  let '(e, le1, vs1) := thread_loop le calls1 in
  match e with
  | T_running =>
      let '(e2, le2, vs2) := thread_loop le1 calls2 in (e2, le2, vs1 ++ vs2)
  | _ => (e, le1, vs1)
  end.
Proof.
  induction calls1 as [|c cs IH]; intros le calls2.
  - cbn [app]. destruct (test le) as [i|] eqn:Ht.
    + cbn [thread_loop]. rewrite Ht.
      destruct (thread_loop le calls2) as [[e2 le2] vs2]. reflexivity.
    + now rewrite !(thread_loop_none le _ Ht).
  - cbn [app thread_loop]. destruct (test le); [|reflexivity].
    destruct (VSLQ_Dispatch le (deliveries c) (rc c))
      as [[[i le1] vs1]| |]; try reflexivity.
    destruct (i =? 2); [reflexivity|].
    destruct (i <? 0); [reflexivity|].
    rewrite IH.
    destruct (thread_loop le1 cs) as [[e1 le1'] vs1'].
    destruct e1; try reflexivity.
    destruct (thread_loop le1' calls2) as [[e2 le2] vs2].
    now rewrite app_assoc.
Qed.

(** *** The range of the values of a test *)

Lemma parse_uint_range s v : parse_uint s = inr v -> 0 <= v <= INT_MAX.
Proof.
  unfold parse_uint. destruct (strtol s) as [x e].
  destruct (negb (String.eqb e "")); cbn [orb]; [discriminate|].
  destruct (Z.ltb_spec (int_of_long x) 0); [discriminate|].
  intros E. injection E as <-. split; [assumption|].
  unfold int_of_long, INT_MAX in *.
  pose proof (Z.mod_pos_bound (x + 2 ^ 31) (2 ^ 32) ltac:(lia)). lia.
Qed.

Lemma compile_ranged av t : compile av = inr t -> ranged t.
Proof.
  unfold compile.
  destruct (nth_error av 1) as [a1|]; [|discriminate].
  destruct (nth_error av 2) as [a2|]; [|discriminate].
  destruct (nth_error av 3) as [a3|]; [|discriminate].
  assert (H : forall a4,
    match
      (if String.eqb a1 "*" then inr LE_ANY else parse_uint a1)
    with
    | inl m => inl m
    | inr skip_max_ =>
        match
          (if String.eqb a2 "*" then inr LE_ANY
           else if String.eqb a2 "=" then inr LE_LAST
           else parse_uint a2)
        with
        | inl m => inl m
        | inr vxid_ =>
            match
              (if String.eqb a3 "*" then inr LE_ANY
               else if String.eqb a3 "=" then inr LE_LAST
               else
                 let t := VSL_Name2Tag a3 in
                 if t <? 0 then inl (Unknown_tag_name a3) else inr t)
            with
            | inl m => inl m
            | inr tag_ =>
                match
                  (match a4 with
                   | Some e =>
                       match VRE_compile e with
                       | inl v => inr (Some v)
                       | inr (err, pos) => inl (Regex_error err e pos)
                       end
                   | None => inr None
                   end)
                with
                | inl m => inl m
                | inr vre_ =>
                    inr {| str := test_str (nth 0 av ""%string)
                                    a1 a2 a3 a4;
                           vxid := vxid_; tag := tag_; vre := vre_;
                           skip_max := skip_max_ |}
                end
            end
        end
    end = inr t -> ranged t).
  { intros a4.
    assert (S : forall x, (if String.eqb a1 "*" then inr LE_ANY
                           else parse_uint a1) = inr x ->
                          x = LE_ANY \/ 0 <= x <= INT_MAX).
    { intros x. destruct (String.eqb a1 "*").
      - intros E. injection E as <-. now left.
      - intros E. right. eapply parse_uint_range; eauto. }
    assert (V : forall x, (if String.eqb a2 "*" then inr LE_ANY
                           else if String.eqb a2 "=" then inr LE_LAST
                           else parse_uint a2) = inr x ->
                          x = LE_ANY \/ x = LE_LAST \/ 0 <= x <= INT_MAX).
    { intros x. destruct (String.eqb a2 "*");
        [intros E; injection E as <-; auto|].
      destruct (String.eqb a2 "=");
        [intros E; injection E as <-; auto|].
      intros E. right; right. eapply parse_uint_range; eauto. }
    assert (T : forall x, (if String.eqb a3 "*" then inr LE_ANY
                           else if String.eqb a3 "=" then inr LE_LAST
                           else
                             let t := VSL_Name2Tag a3 in
                             if t <? 0 then inl (Unknown_tag_name a3)
                             else inr t) = inr x ->
                          x = LE_ANY \/ x = LE_LAST \/ 0 <= x).
    { intros x. destruct (String.eqb a3 "*");
        [intros E; injection E as <-; auto|].
      destruct (String.eqb a3 "=");
        [intros E; injection E as <-; auto|].
      cbn zeta. destruct (Z.ltb_spec (VSL_Name2Tag a3) 0); [discriminate|].
      intros E. injection E as <-. auto. }
    destruct (if String.eqb a1 "*" then _ else _) as [m|x1];
      [discriminate|].
    destruct (if String.eqb a2 "*" then _ else _) as [m|x2];
      [discriminate|].
    destruct (if String.eqb a3 "*" then _ else _) as [m|x3];
      [discriminate|].
    destruct (match a4 with Some _ => _ | None => _ end) as [m|x4];
      [discriminate|].
    intros E. injection E as <-. unfold ranged. cbn. auto. }
  destruct (nth_error av 4) as [a4|].
  - destruct (nth_error av 5); [discriminate|]. apply (H (Some a4)).
  - apply (H None).
Qed.

Lemma compiled_ranged lines : Forall ranged (fst (compiled lines)).
Proof.
  induction lines as [|av lines IH]; cbn [compiled]; [constructor|].
  destruct av as [|c av]; [exact IH|].
  destruct (String.eqb c "expect"); [|constructor].
  destruct (compile (c :: av)) as [m|t] eqn:E; [constructor|].
  destruct (compiled lines) as [ts m]. cbn [fst] in *.
  constructor; [|assumption]. eapply compile_ranged; eauto.
Qed.

(** X13: every test [logexp_spec] leaves in the engine, also when it ends
    in [vtc_fatal] on a later line, has its values in range: [skip_max] is
    ANY or between 0 and [INT_MAX], [vxid] is ANY, LAST or between 0 and
    [INT_MAX], [tag] is ANY, LAST or not negative.  So a number in the
    specification is never taken for ANY or LAST, also when the cast of
    the [long] to [int] has wrapped it. *)
Theorem X13_tests_in_range spec w :
  Forall ranged (tests (w_le (snd (fst (logexp_spec spec w))))).
Proof.
  rewrite (surjective_pairing (fst (logexp_spec spec w))).
  rewrite logexp_spec_compiled. cbn. apply compiled_ranged.
Qed.

End Further_properties.

(** ** The numbers of an expectation, with the [strtol] of C *)

Section Numerals.
Context {re : VRE} {vsl_api : VSL} {vtc : VTC}.
#[local] Existing Instance Sample.libc.

Lemma digit_range c d :
  digit c = Some d ->
  0 <= d <= 9 /\ 48 <= Z.of_nat (nat_of_ascii c) <= 57.
Proof.
  unfold digit.
  destruct (Z.leb_spec 48 (Z.of_nat (nat_of_ascii c)));
    destruct (Z.leb_spec (Z.of_nat (nat_of_ascii c)) 57);
    cbn [andb]; try discriminate.
  intros E. injection E as <-. lia.
Qed.

Lemma digit_no_space c d : digit c = Some d -> isspace c = false.
Proof.
  intros H. apply digit_range in H as [_ H]. unfold isspace.
  destruct (Z.eqb_spec (Z.of_nat (nat_of_ascii c)) 32); [lia|].
  destruct (Z.leb_spec (Z.of_nat (nat_of_ascii c)) 13); [lia|].
  now rewrite andb_false_r.
Qed.

Lemma digit_no_sign c d :
  digit c = Some d -> Ascii.eqb c "-" || Ascii.eqb c "+" = false.
Proof.
  intros H.
  destruct (Ascii.eqb_spec c "-") as [->|_]; [discriminate H|].
  destruct (Ascii.eqb_spec c "+") as [->|_]; [discriminate H|].
  reflexivity.
Qed.

Lemma digits_nonneg s : forall acc, 0 <= acc -> 0 <= fst (digits acc s).
Proof.
  induction s as [|c s IH]; intros acc H; cbn [digits]; [exact H|].
  destruct (digit c) as [d|] eqn:D; [|exact H].
  apply IH. apply digit_range in D. lia.
Qed.

(** A numeral is read by [strtol] to its end, with its value. *)
Lemma c_strtol_numeral s v :
  spec_uint s = Some v -> 0 <= v /\ c_strtol s = (long_of v, ""%string).
Proof.
  unfold spec_uint. destruct s as [|c s]; [discriminate|].
  destruct (digits 0 (String c s)) as [v0 e] eqn:E.
  destruct (String.eqb_spec e ""); [|discriminate].
  intros H. injection H as <-. subst e.
  assert (D : exists d, digit c = Some d).
  { cbn [digits] in E. destruct (digit c) as [d|]; [eauto|discriminate]. }
  destruct D as [d D]. split.
  - pose proof (digits_nonneg (String c s) 0 ltac:(lia)) as N.
    rewrite E in N. exact N.
  - unfold c_strtol. cbn [skip_space].
    rewrite (digit_no_space _ _ D), (digit_no_sign _ _ D), D, E.
    destruct (Ascii.eqb_spec c "-") as [->|_]; [discriminate D|].
    reflexivity.
Qed.

Lemma parse_uint_numeral s v :
  spec_uint s = Some v -> v <= INT_MAX -> parse_uint s = inr v.
Proof.
  intros H M. apply c_strtol_numeral in H as [N H].
  unfold parse_uint. cbn [strtol Sample.libc]. rewrite H. cbn [String.eqb negb orb].
  assert (L : long_of v = v).
  { unfold long_of, LONG_MAX, LONG_MIN, INT_MAX in *. lia. }
  assert (I : int_of_long v = v).
  { unfold int_of_long, INT_MAX in *. rewrite Z.mod_small; lia. }
  rewrite L, I. destruct (Z.ltb_spec v 0); [lia|reflexivity].
Qed.

Lemma skip_accepted a s :
  spec_skip a = Some s -> s <= INT_MAX ->
  (if String.eqb a "*" then inr LE_ANY else parse_uint a) = inr s.
Proof.
  unfold spec_skip. destruct (String.eqb a "*").
  - intros E _. now injection E as <-.
  - apply parse_uint_numeral.
Qed.

Lemma vxid_accepted a v :
  spec_vxid a = Some v -> v <= INT_MAX ->
  (if String.eqb a "*" then inr LE_ANY
   else if String.eqb a "=" then inr LE_LAST
   else parse_uint a) = inr v.
Proof.
  unfold spec_vxid. destruct (String.eqb a "*").
  - intros E _. now injection E as <-.
  - destruct (String.eqb a "=").
    + intros E _. now injection E as <-.
    + apply parse_uint_numeral.
Qed.

Lemma tag_accepted a :
  (if String.eqb a "*" then inr LE_ANY
   else if String.eqb a "=" then inr LE_LAST
   else if VSL_Name2Tag a <? 0 then inl (Unknown_tag_name a)
        else inr (VSL_Name2Tag a)) =
  match spec_tag a with
  | Some t => inr t
  | None => inl (Unknown_tag_name a)
  end.
Proof.
  unfold spec_tag. destruct (String.eqb a "*"); [reflexivity|].
  destruct (String.eqb a "="); [reflexivity|].
  destruct (Z.ltb_spec (VSL_Name2Tag a) 0), (Z.leb_spec 0 (VSL_Name2Tag a));
    try reflexivity; lia.
Qed.

(** What [compile] makes of a line whose skip and vxid the specification
    accepts. *)
Lemma compile_fields a0 a1 a2 a3 oe s v :
  spec_skip a1 = Some s -> s <= INT_MAX ->
  spec_vxid a2 = Some v -> v <= INT_MAX ->
  compile (a0 :: a1 :: a2 :: a3 ::
           match oe with Some e => [e] | None => [] end) =
  match spec_tag a3 with
  | None => inl (Unknown_tag_name a3)
  | Some t =>
      match oe with
      | Some e =>
          match VRE_compile e with
          | inl d => inr {| str := test_str a0 a1 a2 a3 oe; vxid := v;
                            tag := t; vre := Some d; skip_max := s |}
          | inr (err, pos) => inl (Regex_error err e pos)
          end
      | None => inr {| str := test_str a0 a1 a2 a3 oe; vxid := v;
                       tag := t; vre := None; skip_max := s |}
      end
  end.
Proof.
  intros S Sm V Vm. unfold compile.
  pose proof (skip_accepted _ _ S Sm) as HS.
  pose proof (vxid_accepted _ _ V Vm) as HV.
  pose proof (tag_accepted a3) as HT.
  destruct oe as [e|]; cbn [nth_error nth] in *; cbn zeta;
    rewrite HS, HV, HT; destruct (spec_tag a3); try reflexivity;
    destruct (VRE_compile e) as [d|[err pos]]; reflexivity.
Qed.

(** C7: the compiler does not refuse every token that is no number.
    With the [strtol] of C, an empty skip token is read as 0, since with
    no digit [end] stays on the token's terminator, and the test is
    appended; and the long [-4294967295] is cast to the [int] 1 before
    the sign is tested, so the token is taken for 1.  The reading of the
    specification refuses both. *)
Theorem C7_accepts_no_integer w :
  spec_compile [""; "*"; "*"]%string = None /\
  cmd_logexp_expect ["expect"; ""; "*"; "*"]%string w =
    (Ok tt,
     with_test w {| str := test_str "expect" "" "*" "*" None;
                    vxid := LE_ANY; tag := LE_ANY; vre := None;
                    skip_max := 0 |},
     [Ev_write F_tests]) /\
  spec_compile ["-4294967295"; "*"; "*"]%string = None /\
  cmd_logexp_expect ["expect"; "-4294967295"; "*"; "*"]%string w =
    (Ok tt,
     with_test w {| str := test_str "expect" "-4294967295" "*" "*" None;
                    vxid := LE_ANY; tag := LE_ANY; vre := None;
                    skip_max := 1 |},
     [Ev_write F_tests]).
Proof.
  assert (E1 : compile ["expect"; ""; "*"; "*"]%string =
               inr {| str := test_str "expect" "" "*" "*" None;
                      vxid := LE_ANY; tag := LE_ANY; vre := None;
                      skip_max := 0 |}) by reflexivity.
  assert (E2 : compile ["expect"; "-4294967295"; "*"; "*"]%string =
               inr {| str := test_str "expect" "-4294967295" "*" "*" None;
                      vxid := LE_ANY; tag := LE_ANY; vre := None;
                      skip_max := 1 |}) by reflexivity.
  unfold cmd_logexp_expect. rewrite E1, E2.
  repeat split.
Qed.

(** X14: with the [strtol] of C, every line the specification accepts,
    its numbers no more than [INT_MAX], is accepted by
    [cmd_logexp_expect], which appends one test with the values of the
    specification: ["*"] is ANY, ["="] is LAST, a numeral is its value, a
    tag name is its number.  A line of another length than three or four
    tokens ends in the syntax error; after accepted numbers an unknown tag
    name ends in its error, and an expression [VRE_compile] refuses in the
    error with its message and offset.  Whenever the command ends in
    [vtc_fatal] the engine is as it was. *)
Theorem X14_compile_accepts av w :
  (forall s v t e,
     spec_compile (tl av) = Some (s, v, t, e) ->
     s <= INT_MAX -> v <= INT_MAX ->
     exists x,
       cmd_logexp_expect av w = (Ok tt, with_test w x, [Ev_write F_tests]) /\
       skip_max x = s /\ vxid x = v /\ tag x = t /\ vre x = e) /\
  (List.length (tl av) <> 3%nat /\ List.length (tl av) <> 4%nat ->
   cmd_logexp_expect av w = (Fatal Syntax_error, w, [])) /\
  (forall a1 a2 a3 rest s v,
     tl av = a1 :: a2 :: a3 :: rest -> (List.length rest <= 1)%nat ->
     spec_skip a1 = Some s -> s <= INT_MAX ->
     spec_vxid a2 = Some v -> v <= INT_MAX ->
     spec_tag a3 = None ->
     cmd_logexp_expect av w = (Fatal (Unknown_tag_name a3), w, [])) /\
  (forall a1 a2 a3 e s v t err pos,
     tl av = [a1; a2; a3; e] ->
     spec_skip a1 = Some s -> s <= INT_MAX ->
     spec_vxid a2 = Some v -> v <= INT_MAX ->
     spec_tag a3 = Some t ->
     VRE_compile e = inr (err, pos) ->
     cmd_logexp_expect av w = (Fatal (Regex_error err e pos), w, [])) /\
  (forall m w' evs,
     cmd_logexp_expect av w = (Fatal m, w', evs) -> w' = w /\ evs = []).
Proof.
  split; [|split; [|split; [|split]]].
  - intros s v t e H Sm Vm. unfold cmd_logexp_expect.
    destruct av as [|a0 [|a1 [|a2 [|a3 [|a4 [|x rest]]]]]];
      try discriminate H; cbn [tl spec_compile] in H.
    + destruct (spec_skip a1) as [s'|] eqn:S; [|discriminate].
      destruct (spec_vxid a2) as [v'|] eqn:V; [|discriminate].
      destruct (spec_tag a3) as [t'|] eqn:T; [|discriminate].
      cbn [spec_regex] in H. injection H as -> -> -> <-.
      rewrite (compile_fields a0 a1 a2 a3 None s v S Sm V Vm), T.
      eexists. split; [reflexivity|]. cbn. auto.
    + destruct (spec_skip a1) as [s'|] eqn:S; [|discriminate].
      destruct (spec_vxid a2) as [v'|] eqn:V; [|discriminate].
      destruct (spec_tag a3) as [t'|] eqn:T; [|discriminate].
      unfold spec_regex in H.
      destruct (VRE_compile a4) as [d|[err pos]] eqn:R; [|discriminate].
      injection H as -> -> -> <-.
      rewrite (compile_fields a0 a1 a2 a3 (Some a4) s v S Sm V Vm), T, R.
      eexists. split; [reflexivity|]. cbn. auto.
  - intros [L3 L4]. unfold cmd_logexp_expect.
    destruct av as [|a0 [|a1 [|a2 [|a3 [|a4 [|x rest]]]]]];
      cbn in L3, L4; try lia; reflexivity.
  - intros a1 a2 a3 rest s v E L S Sm V Vm T. unfold cmd_logexp_expect.
    destruct av as [|a0 av']; [discriminate|]. cbn [tl] in E. subst av'.
    destruct rest as [|e [|x rest]]; [| |cbn in L; lia].
    + now rewrite (compile_fields a0 a1 a2 a3 None s v S Sm V Vm), T.
    + now rewrite (compile_fields a0 a1 a2 a3 (Some e) s v S Sm V Vm), T.
  - intros a1 a2 a3 e s v t err pos E S Sm V Vm T R.
    unfold cmd_logexp_expect.
    destruct av as [|a0 av']; [discriminate|]. cbn [tl] in E. subst av'.
    now rewrite (compile_fields a0 a1 a2 a3 (Some e) s v S Sm V Vm), T, R.
  - intros m w' evs. unfold cmd_logexp_expect, vtc_fatal, write.
    destruct (compile av); intros E; [|discriminate].
    injection E as _ <- <-. auto.
Qed.

End Numerals.

(** ** The scenarios of the specification, and the theorems at work *)

Import Sample.

Example scenario_A :
  classes (logexp_thread (started tests_AB) log_A) = (T_null, [MATCH; MATCH]).
Proof. reflexivity. Qed.

Example scenario_B :
  classes (logexp_thread (started tests_AB) log_B)
  = (T_fatal Bad_expectation_failed, [MATCH; FAIL]).
Proof. reflexivity. Qed.

Example scenario_C :
  classes (logexp_thread (started tests_C) log_CD)
  = (T_null, [SKIP; SKIP; MATCH]).
Proof. reflexivity. Qed.

Example scenario_D :
  classes (logexp_thread (started tests_D) log_CD)
  = (T_fatal Bad_expectation_failed, [SKIP; FAIL]).
Proof. reflexivity. Qed.

Example scenario_E :
  classes (logexp_thread (started tests_E) [serve [rec_ 5 5 "/api/v1"]])
  = (T_null, [MATCH]) /\
  classes (logexp_thread (started tests_E) [serve [rec_ 5 5 "/static/x"]])
  = (T_fatal Bad_expectation_failed, [FAIL]).
Proof. split; reflexivity. Qed.

(** A whole command: the specification is compiled, the thread started
    and waited for, with the join before the last write. *)
Example command_run :
  let '(o, w, evs) :=
    logexpect_args ["-v"; "v1"; "Hit"; "-start"; "-wait"]%string
      {| w_le := logexp_new "l1"; w_src := [[serve [rec_ 5 3 "h"]]] |} in
  o = Ok tt /\ run (w_le w) = false /\
  map skip_max (tests (w_le w)) = [0] /\
  evs = [Ev_write F_n_arg; Ev_write F_tests; Ev_write F_tests;
         Ev_write F_vslq; Ev_write F_test; Ev_write F_skip_cnt;
         Ev_write F_tag_last; Ev_write F_vxid_last; Ev_write F_run;
         Ev_create; Ev_join; Ev_write F_vslq; Ev_write F_run].
Proof. vm_compute. repeat split. Qed.

(** The lines of scenario E and of scenario A compile to their tests; a
    negative skip, an unknown tag and a fifth token are refused. *)
Example compile_scenarios :
  compile ["expect"; "0"; "*"; "ReqURL"; "/api/"]%string
  = inr {| str := "expect 0 * ReqURL /api/"; vxid := LE_ANY; tag := 5;
           vre := Some "/api/"%string; skip_max := 0 |} /\
  compile ["expect"; "0"; "="; "ReqEnd"]%string
  = inr {| str := "expect 0 = ReqEnd "; vxid := LE_LAST; tag := 2;
           vre := None; skip_max := 0 |} /\
  compile ["expect"; "-1"; "*"; "Hit"]%string
  = inl (Not_a_positive_integer "-1") /\
  compile ["expect"; "*"; "*"; "Nope"]%string
  = inl (Unknown_tag_name "Nope") /\
  compile ["expect"; "0"; "*"; "Hit"; "x"; "y"]%string = inl Syntax_error.
Proof. repeat split. Qed.

(** With [skip_max] ANY and the counter at [INT_MAX], one more record to
    skip leaves defined behaviour. *)
Example skip_cnt_overflow :
  logexp_record [] (set_skip_cnt (active [pat LE_ANY LE_ANY 3 None]) INT_MAX)
    (rec_ 7 4 "m")
  = Undefined.
Proof. reflexivity. Qed.

(** The theorems of the claims, each at an input of the scenarios. *)

Lemma C1_witness :
  exists w' evs,
    logexp_start (ready tests_AB []) = (Ok tt, w', evs) /\
    Z.of_nat (List.length (records_of_calls log_A)) <= INT_MAX /\
    exists e le' vs,
      logexp_thread (w_le w') log_A = (e, le', vs) /\
      e <> T_assert /\ e <> T_undefined /\
      (e = T_null <-> test le' = None) /\
      (e = T_null <->
       (tests (w_le (ready tests_AB [])) = [] /\ vs = []) \/
       (Forall (fun u => v_class u = MATCH \/ v_class u = SKIP) vs /\
        exists vs0 v,
          vs = vs0 ++ [v] /\ v_class v = MATCH /\
          S (v_index v) = List.length (tests (w_le (ready tests_AB []))))).
Proof.
  eexists _, _. split; [reflexivity|].
  assert (H : Z.of_nat (List.length (records_of_calls log_A)) <= INT_MAX)
    by (cbv; discriminate).
  split; [exact H|].
  eapply (C1_run_succeeds_iff (ready tests_AB [])); [reflexivity|exact H].
Defined.

Lemma C2_witness :
  test (active tests_D) = Some 0%nat /\
  nth_error (tests (active tests_D)) 0 = Some (pat 1 LE_ANY 3 None) /\
  skip_max (pat 1 LE_ANY 3 None) <= INT_MAX /\
  exists f vs,
    logexp_records [] (active tests_D) [rec_ 7 4 "m"; rec_ 8 4 "m"]
    = Done (f, vs) /\
    map v_class vs = [SKIP; FAIL].
Proof.
  assert (Ht : test (active tests_D) = Some 0%nat) by reflexivity.
  assert (Hn : nth_error (tests (active tests_D)) 0
               = Some (pat 1 LE_ANY 3 None)) by reflexivity.
  assert (Hm : skip_max (pat 1 LE_ANY 3 None) <= INT_MAX)
    by (cbv; discriminate).
  split; [exact Ht|]. split; [exact Hn|]. split; [exact Hm|].
  destruct (C2_skip_budget [] (active tests_D) 0 (pat 1 LE_ANY 3 None)
              Ht Hn Hm) as [_ H].
  destruct (H [rec_ 7 4 "m"; rec_ 8 4 "m"]) as (f & vs & E & K).
  - cbv. split; discriminate.
  - repeat constructor.
  - exists f, vs. split; [exact E|exact K].
Defined.

Lemma C3_witness :
  exists w' evs,
    logexp_start (ready tests_AB []) = (Ok tt, w', evs) /\
    Forall (fun r => 0 <= VSL_ID r /\ 0 <= VSL_TAG r)
      (records_of_calls log_A) /\
    exists e le' vs,
      logexp_thread (w_le w') log_A = (e, le', vs) /\
      forall pre v post,
        vs = pre ++ v :: post -> v_class v = MATCH ->
        vxid (v_test v) = LE_LAST \/ tag (v_test v) = LE_LAST ->
        exists pre1 u pre2,
          pre = pre1 ++ u :: pre2 /\ v_class u = MATCH /\
          Forall (fun x => v_class x <> MATCH) pre2 /\
          (vxid (v_test v) = LE_LAST ->
           VSL_ID (v_rec v) = VSL_ID (v_rec u)) /\
          (tag (v_test v) = LE_LAST ->
           VSL_TAG (v_rec v) = VSL_TAG (v_rec u)).
Proof.
  eexists _, _. split; [reflexivity|].
  assert (H : Forall (fun r => 0 <= VSL_ID r /\ 0 <= VSL_TAG r)
                (records_of_calls log_A)).
  { repeat constructor; cbv; discriminate. }
  split; [exact H|].
  eapply (C3_backref_needs_prior_match (ready tests_AB []));
    [reflexivity|exact H].
Defined.

Lemma C4_witness :
  test (active tests_E) = Some 0%nat /\
  nth_error (tests (active tests_E)) 0
  = Some (pat 0 LE_ANY 5 (Some "/api/"%string)) /\
  classified [] (rec_ 5 5 "/static/x") = true /\
  skip_cnt (active tests_E) < INT_MAX /\
  exists f v,
    logexp_record [] (active tests_E) (rec_ 5 5 "/static/x")
    = Done (f, [v]) /\
    v_calls v <> [] /\ v_class v <> MATCH.
Proof.
  assert (Ht : test (active tests_E) = Some 0%nat) by reflexivity.
  assert (Hn : nth_error (tests (active tests_E)) 0
               = Some (pat 0 LE_ANY 5 (Some "/api/"%string)))
    by reflexivity.
  assert (Hc : classified [] (rec_ 5 5 "/static/x") = true) by reflexivity.
  assert (Hr : skip_cnt (active tests_E) < INT_MAX) by reflexivity.
  split; [exact Ht|]. split; [exact Hn|]. split; [exact Hc|].
  split; [exact Hr|].
  destruct (C4_regex_scope [] (active tests_E) (rec_ 5 5 "/static/x") 0
              (pat 0 LE_ANY 5 (Some "/api/"%string)) Ht Hn Hc Hr)
    as (f & v & E & H1 & H2 & _).
  exists f, v. split; [exact E|].
  assert (Hv : v = verdict_of (active tests_E) 0
                     (pat 0 LE_ANY 5 (Some "/api/"%string))
                     (rec_ 5 5 "/static/x")).
  { cbv in E. injection E as _ E. symmetry. exact E. }
  split.
  - apply H1. split; [eexists; reflexivity|]. cbv. split; [discriminate|].
    reflexivity.
  - apply (H2 "/api/"%string "/static/x"%string 9); [|reflexivity].
    rewrite Hv. left. reflexivity.
Defined.

Lemma C5_witness :
  wf (active tests_D) /\ test (active tests_D) <> None /\
  room (active tests_D)
    (List.concat [[rec_ 7 4 "m"; rec_ 8 4 "m"; rec_ 9 3 "h"]]) /\
  exists le' vs,
    logexp_dispatch [] (active tests_D)
      [[rec_ 7 4 "m"; rec_ 8 4 "m"; rec_ 9 3 "h"]]
    = Done (2, le', vs) /\
    map v_class vs = [SKIP; FAIL].
Proof.
  assert (W : wf (active tests_D)) by (cbv; lia).
  assert (N : test (active tests_D) <> None) by discriminate.
  assert (R : room (active tests_D)
            (List.concat [[rec_ 7 4 "m"; rec_ 8 4 "m"; rec_ 9 3 "h"]]))
    by (cbv; split; discriminate).
  split; [exact W|]. split; [exact N|]. split; [exact R|].
  destruct (C5_dispatch_codes [] (active tests_D)
              [[rec_ 7 4 "m"; rec_ 8 4 "m"; rec_ 9 3 "h"]] W N R)
    as (code & le' & vs & E & _).
  cbv in E. injection E as <- <- <-.
  eexists _, _. split; reflexivity.
Defined.

Lemma C6_witness :
  wf (active tests_AB) /\ test (active tests_AB) <> None /\
  skip_cnt (active tests_AB) < INT_MAX /\
  exists f vs,
    logexp_record [] (active tests_AB) (rec_ 5 1 "a") = Done (f, vs) /\
    map v_class vs = [MATCH] /\
    vxid_last (flow_le f) = 5 /\ tag_last (flow_le f) = 1 /\
    skip_cnt (flow_le f) = 0 /\ test (flow_le f) = Some 1%nat.
Proof.
  assert (W : wf (active tests_AB)) by (cbv; lia).
  assert (N : test (active tests_AB) <> None) by discriminate.
  assert (R : skip_cnt (active tests_AB) < INT_MAX) by reflexivity.
  split; [exact W|]. split; [exact N|]. split; [exact R|].
  destruct (C6_last_fields_and_skip_cnt [] (active tests_AB)
              (rec_ 5 1 "a") W N R) as (f & vs & E & _).
  exists f, vs. split; [exact E|].
  vm_compute in E. injection E as <- <-. vm_compute. repeat split.
Defined.


Lemma C9_witness :
  exists w' evs,
    logexp_start (ready [] []) = (Ok tt, w', evs) /\
    tests (w_le (ready [] [])) = [] /\
    exists le',
      logexp_thread (w_le w') log_A = (T_null, le', []) /\
      logexp_thread (w_le w') [] = (T_null, le', []) /\
      test le' = None /\
      vl le' = [L_begin; L_end].
Proof.
  eexists _, _. split; [reflexivity|]. split; [reflexivity|].
  eapply (C9_empty_list_succeeds (ready [] [])); reflexivity.
Defined.

Lemma C10_witness :
  wf (active tests_E) /\ test (active tests_E) <> None /\
  skip_cnt (active tests_E) < INT_MAX /\
  exists f vs,
    logexp_record [] (active tests_E) (rec_ 5 5 "/api/v1") = Done (f, vs) /\
    map v_calls vs = [[("/api/"%string, "/api/v1"%string, 7)]] /\
    VSL_LEN (rec_ 5 5 "/api/v1") = 8.
Proof.
  assert (W : wf (active tests_E)) by (cbv; lia).
  assert (N : test (active tests_E) <> None) by discriminate.
  assert (R : skip_cnt (active tests_E) < INT_MAX) by reflexivity.
  split; [exact W|]. split; [exact N|]. split; [exact R|].
  destruct (C10_declared_length_minus_one [] (active tests_E)
              (rec_ 5 5 "/api/v1") W N R) as (f & vs & E & _).
  exists f, vs. split; [exact E|].
  vm_compute in E. injection E as <- <-. vm_compute. repeat split.
Defined.

(** The further properties that have a precondition, each at an input of
    the scenarios. *)

Lemma X2_witness :
  exists w' evs,
    logexp_start (ready tests_AB []) = (Ok tt, w', evs) /\
    exists e le' vs,
      logexp_thread (w_le w') log_A = (e, le', vs) /\
      (forall pre v post, vs = pre ++ v :: post -> v_index v = matches pre) /\
      (matches vs <= List.length (tests (w_le (ready tests_AB []))))%nat /\
      (e = T_null <->
       matches vs = List.length (tests (w_le (ready tests_AB [])))).
Proof.
  eexists _, _. split; [reflexivity|].
  eapply (X2_cursor_forward (ready tests_AB [])). reflexivity.
Defined.

Lemma X5_witness :
  wf (active tests_D) /\ test (active tests_D) <> None /\
  logexp_dispatch [] (active tests_D)
    [[rec_ 7 4 "m"]; [rec_ 8 4 "m"; rec_ 9 3 "h"]]
  = logexp_dispatch [] (active tests_D)
      [filter (classified [])
         (List.concat [[rec_ 7 4 "m"]; [rec_ 8 4 "m"; rec_ 9 3 "h"]])].
Proof.
  assert (W : wf (active tests_D)) by (cbv; lia).
  assert (N : test (active tests_D) <> None) by discriminate.
  split; [exact W|]. split; [exact N|].
  exact (X5_dispatch_flat [] (active tests_D)
           [[rec_ 7 4 "m"]; [rec_ 8 4 "m"; rec_ 9 3 "h"]] W N).
Defined.

Lemma X7_witness :
  fst (fst (logexp_spec "ReqStart" (ready tests_C []))) = Ok tt /\
  fst (bind (logexp_spec "ReqStart") (fun _ => logexp_spec "Hit")
         (ready tests_C []))
  = fst (logexp_spec "Hit" (ready tests_C [])).
Proof.
  assert (H : fst (fst (logexp_spec "ReqStart" (ready tests_C []))) = Ok tt)
    by (vm_compute; reflexivity).
  split; [exact H|].
  exact (X7_later_spec_wins "ReqStart" "Hit" (ready tests_C []) H).
Defined.

Lemma X8_witness :
  (forall le, find_logexp "l1" [] = Some le ->
              consistent {| w_le := le; w_src := [log_A] |}) /\
  exists l' src' evs,
    cmd_logexpect [] [log_A]
      ["logexpect"; "l1"; "-v"; "v1"; "ReqStart"; "-run"]%string
    = (Ok tt, l', src', evs) /\
    Ok tt <> @Asserted unit /\
    (Ok tt = Ok tt ->
     exists le, find_logexp "l1" l' = Some le /\
                consistent {| w_le := le; w_src := src' |}).
Proof.
  assert (H : forall le, find_logexp "l1" [] = Some le ->
                         consistent {| w_le := le; w_src := [log_A] |})
    by (intros le E; discriminate E).
  split; [exact H|].
  destruct (cmd_logexpect [] [log_A]
              ["logexpect"; "l1"; "-v"; "v1"; "ReqStart"; "-run"]%string)
    as [[[o l'] src'] evs] eqn:E.
  assert (O : o = Ok tt) by (vm_compute in E; now injection E as <- _ _ _).
  subst o. exists l', src', evs. split; [reflexivity|].
  exact (X8_no_assertion [] [log_A] "l1"
           ["-v"; "v1"; "ReqStart"; "-run"]%string _ _ _ _ H E).
Defined.

Lemma X9_witness :
  VTC_CHECK_NAME "l2" = true /\
  map name
    (snd (fst (fst (cmd_logexpect [started tests_AB] []
                      ["logexpect"; "l2"; "-d"; "1"]%string))))
  = ["l1"; "l2"]%string /\
  find_logexp "l1"
    (snd (fst (fst (cmd_logexpect [started tests_AB] []
                      ["logexpect"; "l2"; "-d"; "1"]%string))))
  = Some (started tests_AB).
Proof.
  assert (V : VTC_CHECK_NAME "l2" = true) by reflexivity.
  split; [reflexivity|].
  destruct (X9_registry [started tests_AB] [] "l2" ["-d"; "1"]%string V)
    as (_ & O & N).
  split.
  - exact N.
  - exact (O "l1"%string ltac:(discriminate)).
Defined.

Lemma X11_witness :
  exists w' evs,
    logexp_start (ready tests_D []) = (Ok tt, w', evs) /\
    exists rest,
      filter (classified (vsl (w_le (ready tests_D []))))
        (records_of_calls log_CD)
      = map v_rec (snd (logexp_thread (w_le w') log_CD)) ++ rest /\
      (fst (fst (logexp_thread (w_le w') log_CD)) = T_running -> rest = []).
Proof.
  eexists _, _. split; [reflexivity|].
  eapply (X11_one_verdict_per_record (ready tests_D [])). reflexivity.
Defined.
